(** * Change-tracking models and collections: a verified model of [models.ts]

    The development embeds the three classes of [src/models.ts] --
    [Events], [Model] and [Collection] -- as functions over an explicit
    object heap, and proves properties of the event core, of dirty
    tracking and of the primary-key index.

    Modelling conventions.
    - JavaScript objects live in a heap ([list obj]); a reference is the
      position of the object.  Objects are never freed.
    - Plain objects used as dictionaries ([map], [events], [fields],
      [persisted], [mappedEvents], [modelMap]) are finite maps over their
      own properties; names inherited from [Object.prototype] are not
      modelled.
    - A callback is a closure.  The closures the library itself creates are
      constructors of [callback] carrying the captured variables; a callback
      supplied by a caller is an observer that records its invocation, the
      way the test-suite uses spies.
    - Numbers are integers.
    - Calls that may re-enter [trigger] take a [fuel] argument bounding the
      nesting depth of triggers. *)

From stdpp Require Import gmap strings list fin_maps pretty.
From Stdlib Require Import ZArith Lia.

Open Scope Z_scope.

(** ** JavaScript values and arrays *)

(** A reference is an address of the heap. *)
Abbreviation ref := nat (only parsing).

Inductive value :=
| VUndef
| VNum (z : Z)
| VStr (s : string)
| VRef (r : ref).

#[global] Instance value_eq_dec : EqDecision value.
Proof. solve_decision. Defined.

(** ToBoolean, as used by [||]. *)
Definition truthy (v : value) : bool :=
  match v with
  | VUndef => false
  | VNum z => negb (z =? 0)
  | VStr s => negb (String.eqb s "")
  | VRef _ => true
  end.

(** [a || b] *)
Definition js_or (a b : value) : value := if truthy a then a else b.

(** ToPropertyKey: the string under which a value indexes an object. *)
Definition to_key (v : value) : string :=
  match v with
  | VUndef => "undefined"
  | VNum z => pretty z
  | VStr s => s
  | VRef _ => "[object Object]"
  end.

Section arrays.
Context {A : Type} `{EqDecision A}.

(** [Array.prototype.indexOf]: first position holding [x], or [-1]. *)
Fixpoint indexOf_from (i : Z) (x : A) (l : list A) : Z :=
  match l with
  | [] => -1
  | y :: l' => if decide (y = x) then i else indexOf_from (i + 1) x l'
  end.

Definition indexOf (x : A) (l : list A) : Z := indexOf_from 0 x l.

(** [Array.prototype.splice(start, deleteCount, ...items)]: a negative
    [start] counts from the end, and both [start] and [deleteCount] are
    clamped to the array. *)
Definition splice_start (len start : Z) : nat :=
  Z.to_nat (if start <? 0 then Z.max (len + start) 0 else Z.min start len).

Definition splice (l : list A) (start : Z) (deleteCount : nat) (items : list A)
  : list A :=
  let s := splice_start (Z.of_nat (length l)) start in
  take s l ++ items ++ drop (s + deleteCount)%nat l.

(** [l[i]] for a numeric index; [None] stands for [undefined]. *)
Definition nth_Z (l : list A) (i : Z) : option A :=
  if i <? 0 then None else l !! Z.to_nat i.
End arrays.

(** ** Closures *)

Inductive callback :=
| ModelNested (this : ref) (property : string)
    (** created by [Model.set] when the value is an [Events] *)
| CollChange (this : ref) (model : ref)
    (** created by [Collection.add], bound to the member's ['change'] *)
| CollChangePK (this : ref)
    (** created by [Collection.add], bound to the member's ['change:pk'] *)
| Spy (id : nat)
    (** an observer supplied by the caller *).

#[global] Instance callback_eq_dec : EqDecision callback.
Proof. solve_decision. Defined.

(** ** Instance state of the three classes *)

Module Events.
Record t := mk {
  eventIndex : nat;
  map : gmap string (list nat);
  events : gmap nat callback
}.
Definition new : t := mk 0 ∅ ∅.

(** The effect of [on(name, func)] on the instance, and the handle. *)
Definition on (name : string) (func : callback) (e : t) : nat * t :=
  let evts := default [] (map e !! name) in
  let idx := S (eventIndex e) in
  (idx, mk idx (<[name := evts ++ [idx]]> (map e)) (<[idx := func]> (events e))).

(** The effect of [off(name, eventIndex)] on the instance. *)
Definition off (name : string) (idx : nat) (e : t) : t :=
  match map e !! name with
  | None => e
  | Some evts =>
      mk (eventIndex e)
        (<[name := splice evts (indexOf idx evts) 1 []]> (map e))
        (delete idx (events e))
  end.
End Events.

Module Model.
Record t := mk {
  super : Events.t;
  fieldNames : list string;
  fields : gmap string value;
  mappedEvents : gmap string (list nat);
  persisted : gmap string value;
  clean : bool
}.
Definition with_super (e : Events.t) (m : t) : t :=
  mk e (fieldNames m) (fields m) (mappedEvents m) (persisted m) (clean m).
Definition with_fields (f : gmap string value) (m : t) : t :=
  mk (super m) (fieldNames m) f (mappedEvents m) (persisted m) (clean m).
Definition with_mappedEvents (me : gmap string (list nat)) (m : t) : t :=
  mk (super m) (fieldNames m) (fields m) me (persisted m) (clean m).
Definition with_persisted (p : gmap string value) (m : t) : t :=
  mk (super m) (fieldNames m) (fields m) (mappedEvents m) p (clean m).
Definition with_clean (b : bool) (m : t) : t :=
  mk (super m) (fieldNames m) (fields m) (mappedEvents m) (persisted m) b.
End Model.

Module ModelMeta.
Record t := mk { index : nat; change : nat; changePK : nat }.
Definition with_index (i : nat) (m : t) : t := mk i (change m) (changePK m).
End ModelMeta.

Module Collection.
(** [modelMap] maps a key to a [ModelMeta] object.  Those objects are
    shared by reference between the old and the new map during a rebuild,
    so they are kept in a store of their own ([metas]) and [modelMap]
    holds their addresses. *)
Record t := mk {
  super : Events.t;
  index : nat;
  metas : list ModelMeta.t;
  modelMap : gmap string nat;
  models : list value;
  persisted : list value;
  clean : bool
}.
Definition new : t := mk Events.new 0 [] ∅ [] [] false.
Definition with_super (e : Events.t) (c : t) : t :=
  mk e (index c) (metas c) (modelMap c) (models c) (persisted c) (clean c).
Definition with_metas (ms : list ModelMeta.t) (c : t) : t :=
  mk (super c) (index c) ms (modelMap c) (models c) (persisted c) (clean c).
Definition with_modelMap (mm : gmap string nat) (c : t) : t :=
  mk (super c) (index c) (metas c) mm (models c) (persisted c) (clean c).
Definition with_models (l : list value) (c : t) : t :=
  mk (super c) (index c) (metas c) (modelMap c) l (persisted c) (clean c).
Definition with_persisted (l : list value) (c : t) : t :=
  mk (super c) (index c) (metas c) (modelMap c) (models c) l (clean c).
Definition with_clean (b : bool) (c : t) : t :=
  mk (super c) (index c) (metas c) (modelMap c) (models c) (persisted c) b.
End Collection.

(** ** The heap and the execution monad *)

Inductive obj :=
| OEvents (e : Events.t)
| OModel (m : Model.t)
| OCollection (c : Collection.t).

(** The [Events] part every object has. *)
Definition ev_of (o : obj) : Events.t :=
  match o with
  | OEvents e => e
  | OModel m => Model.super m
  | OCollection c => Collection.super c
  end.

Definition with_ev (e : Events.t) (o : obj) : obj :=
  match o with
  | OEvents _ => OEvents e
  | OModel m => OModel (Model.with_super e m)
  | OCollection c => OCollection (Collection.with_super e c)
  end.

(** What an observer of a run can see: each call of [trigger], and each
    invocation of a caller-supplied callback. *)
Inductive entry :=
| Emitted (this : ref) (name : string)
| Called (spy : nat).

#[global] Instance entry_eq_dec : EqDecision entry.
Proof. solve_decision. Defined.

Record state := mkState {
  heap : list obj;
  log : list entry
}.

Inductive error :=
| TypeError
    (** the exception JavaScript raises on a property access of [undefined] *)
| IllTyped
    (** the heap or an argument contradicts the TypeScript declarations; the
        model does not follow such a run *).

Inductive outcome (A : Type) :=
| Ok (a : A) (st : state)
| Err (e : error)
| OutOfFuel.
Arguments Ok {A} a st.
Arguments Err {A} e.
Arguments OutOfFuel {A}.

Definition M (A : Type) : Type := state -> outcome A.

Definition ret {A} (a : A) : M A := fun st => Ok a st.
Definition throw {A} (e : error) : M A := fun _ => Err e.
Definition bind {A B} (c : M A) (k : A -> M B) : M B :=
  fun st =>
    match c st with
    | Ok a st' => k a st'
    | Err e => Err e
    | OutOfFuel => OutOfFuel
    end.

Notation "'let*' x ':=' c 'in' k" := (bind c (fun x => k))
  (at level 10, x name, c at level 100, k at level 200).
Notation "c '>>' k" := (bind c (fun _ => k))
  (at level 100, k at level 200, right associativity).

(** [array.forEach(f)] where [f] leaves the array alone. *)
Fixpoint forEach {A} (l : list A) (f : A -> M unit) : M unit :=
  match l with
  | [] => ret tt
  | x :: l' => f x >> forEach l' f
  end.

(** [array.forEach(f)] where [f] may change the array: the length is read
    once, then position [k] is read from the array as it is when the loop
    gets there, and skipped when it no longer exists. *)
Fixpoint forEach_live {A} (read : M (list A)) (f : A -> M unit) (k n : nat)
  : M unit :=
  match n with
  | O => ret tt
  | S n' =>
      let* l := read in
      match l !! k with
      | Some x => f x
      | None => ret tt
      end >>
      forEach_live read f (S k) n'
  end.

Definition record (e : entry) : M unit :=
  fun st => Ok tt (mkState (heap st) (log st ++ [e])).

Definition get_obj (r : ref) : M obj :=
  fun st => match heap st !! r with
            | Some o => Ok o st
            | None => Err IllTyped
            end.

Definition put_obj (r : ref) (o : obj) : M unit :=
  fun st => Ok tt (mkState (<[r := o]> (heap st)) (log st)).

Definition alloc (o : obj) : M ref :=
  fun st => Ok (length (heap st)) (mkState (heap st ++ [o]) (log st)).

Definition get_events (r : ref) : M Events.t :=
  let* o := get_obj r in ret (ev_of o).

Definition put_events (r : ref) (e : Events.t) : M unit :=
  let* o := get_obj r in put_obj r (with_ev e o).

Definition get_model (r : ref) : M Model.t :=
  let* o := get_obj r in
  match o with OModel m => ret m | _ => throw IllTyped end.

Definition modify_model (r : ref) (f : Model.t -> Model.t) : M unit :=
  let* m := get_model r in put_obj r (OModel (f m)).

Definition get_collection (r : ref) : M Collection.t :=
  let* o := get_obj r in
  match o with OCollection c => ret c | _ => throw IllTyped end.

Definition modify_collection (r : ref) (f : Collection.t -> Collection.t)
  : M unit :=
  let* c := get_collection r in put_obj r (OCollection (f c)).

(** The receiver of a method call on a value of a class type: [undefined]
    raises, a primitive contradicts the declared type. *)
Definition receiver (v : value) : M ref :=
  match v with
  | VRef r => ret r
  | VUndef => throw TypeError
  | _ => throw IllTyped
  end.

(** [value instanceof Events]: every object of the heap is one. *)
Definition instanceof_Events (v : value) : option ref :=
  match v with VRef r => Some r | _ => None end.

(** ** Events *)

(** [on(name, func)] *)
Definition Events_on (this : ref) (name : string) (func : callback) : M nat :=
  let* e := get_events this in
  let r := Events.on name func e in
  put_events this (snd r) >>
  ret (fst r).

(** [off(name, eventIndex)] *)
Definition Events_off (this : ref) (name : string) (eventIndex : nat) : M unit :=
  let* e := get_events this in
  put_events this (Events.off name eventIndex e).

(** ** State changes shared by the methods and the closures *)

(** [this.get(property)] on the instance state *)
Definition Model_get (m : Model.t) (property : string) : value :=
  default VUndef (Model.fields m !! property).

(** [v.pk] for [v] of a type extending [Model] *)
Definition pk_of (v : value) : M value :=
  let* r := receiver v in
  let* m := get_model r in
  ret (Model_get m "pk").

(** [v.persisted['pk']] *)
Definition persisted_pk_of (v : value) : M value :=
  let* r := receiver v in
  let* m := get_model r in
  ret (default VUndef (Model.persisted m !! "pk")).

(** One round of the loop of [rebuildMap]:
    [newMap[m.pk] = this.modelMap[m.persisted['pk'] || m.pk];
     newMap[m.pk].index = index]. *)
Definition rebuild_step (this : ref) (newMap : gmap string nat)
    (index : nat) (m : value) : M (gmap string nat) :=
  let* pk := pk_of m in
  let* ppk := persisted_pk_of m in
  let* c := get_collection this in
  match Collection.modelMap c !! to_key (js_or ppk pk) with
  | None => throw TypeError
  | Some a =>
      match Collection.metas c !! a with
      | None => throw IllTyped
      | Some meta =>
          modify_collection this
            (Collection.with_metas
               (<[a := ModelMeta.with_index index meta]> (Collection.metas c))) >>
          ret (<[to_key pk := a]> newMap)
      end
  end.

Fixpoint rebuild_loop (this : ref) (newMap : gmap string nat)
    (index : nat) (ms : list value) : M (gmap string nat) :=
  match ms with
  | [] => ret newMap
  | m :: ms' =>
      let* newMap' := rebuild_step this newMap index m in
      rebuild_loop this newMap' (S index) ms'
  end.

(** [rebuildMap()] *)
Definition Collection_rebuildMap (this : ref) : M unit :=
  let* c := get_collection this in
  let* newMap := rebuild_loop this ∅ 0 (Collection.models c) in
  modify_collection this (Collection.with_modelMap newMap).

(** The body of the closure [Collection.add] binds to ['change'], up to its
    [trigger]. *)
Definition member_changed (this model : ref) : M unit :=
  modify_collection this (Collection.with_clean false) >>
  let* pk := pk_of (VRef model) in
  modify_collection this (fun c =>
    Collection.with_persisted
      (splice (Collection.persisted c) (indexOf pk (Collection.persisted c)) 1 [])
      c).

(** ** [trigger] and the closures it calls *)

(** [this.map[name] || []] *)
Definition subscribers (this : ref) (name : string) : M (list nat) :=
  let* e := get_events this in
  ret (default [] (Events.map e !! name)).

Section closures.
Variable trigger : ref -> string -> M unit.

Definition call (cb : callback) : M unit :=
  match cb with
  | ModelNested this property =>
      modify_model this (Model.with_clean false) >>
      trigger this "change" >>
      trigger this ("change:" +:+ property)
  | CollChange this model =>
      member_changed this model >>
      trigger this "change"
  | CollChangePK this =>
      Collection_rebuildMap this
  | Spy id =>
      record (Called id)
  end.

(** [this.events[eventIndex]()] *)
Definition invoke (this : ref) (eventIndex : nat) : M unit :=
  let* e := get_events this in
  match Events.events e !! eventIndex with
  | None => throw TypeError
  | Some cb => call cb
  end.

Definition trigger_body (this : ref) (name : string) : M unit :=
  record (Emitted this name) >>
  let* evts := subscribers this name in
  forEach_live (subscribers this name) (invoke this) 0 (length evts).
End closures.

(** [trigger(name)]; [fuel] bounds the depth of nested triggers. *)
Fixpoint Events_trigger (fuel : nat) (this : ref) (name : string) : M unit :=
  match fuel with
  | O => fun _ => OutOfFuel
  | S fuel' => trigger_body (Events_trigger fuel') this name
  end.

(** ** Model *)

(** The first [if] of [set]: the current value is an [Events], so the
    handles kept for the field are released on it. *)
Definition unbind_current (this : ref) (property : string) : M unit :=
let* m := get_model this in
match instanceof_Events (Model_get m property) with
| Some current =>
    match Model.mappedEvents m !! property with
    | None => throw TypeError
    | Some es =>
        forEach es (fun e => Events_off current "change" e) >>
        modify_model this (fun m =>
          Model.with_mappedEvents (<[property := []]> (Model.mappedEvents m)) m)
    end
| None => ret tt
end.

(** The second [if] of [set]: the new value is an [Events], so the model
    subscribes to its ['change'] and keeps the handle.  The list that
    receives the handle is looked up before [on] is called. *)
Definition bind_value (this : ref) (property : string) (v : value) : M unit :=
match instanceof_Events v with
| Some new =>
    let* m := get_model this in
    match Model.mappedEvents m !! property with
    | None => throw TypeError
    | Some _ =>
        let* h := Events_on new "change" (ModelNested this property) in
        modify_model this (fun m =>
          Model.with_mappedEvents
            (<[property := default [] (Model.mappedEvents m !! property) ++ [h]]>
               (Model.mappedEvents m)) m)
    end
| None => ret tt
end.

(** [this.fields[property] = value; this.clean = false] *)
Definition store_value (this : ref) (property : string) (v : value) : M unit :=
modify_model this (fun m =>
  Model.with_clean false
    (Model.with_fields (<[property := v]> (Model.fields m)) m)).

(** [set(property, value)] *)
Definition Model_set (fuel : nat) (this : ref) (property : string) (v : value)
  : M unit :=
unbind_current this property >>
bind_value this property v >>
store_value this property v >>
Events_trigger fuel this "change" >>
Events_trigger fuel this ("change:" +:+ property).

(** [new Model(pk)] for a class whose decorated fields, after [pk], are
    [declared]. *)
Definition Model_new (fuel : nat) (declared : list string) (pk : value) : M ref :=
  let fieldNames := "pk" :: declared in
  let undefs : gmap string value :=
    list_to_map ((fun n => (n, VUndef)) <$> fieldNames) in
  let empties : gmap string (list nat) :=
    list_to_map ((fun n => (n, [])) <$> fieldNames) in
  let* this :=
    alloc (OModel (Model.mk Events.new fieldNames undefs empties undefs false)) in
  Model_set fuel this "pk" pk >>
  ret this.

(** [persist()] *)
Definition Model_persist (fuel : nat) (this : ref) : M bool :=
  let* m := get_model this in
  if Model.clean m then ret false
  else
    modify_model this (fun m =>
      Model.with_persisted (Model.fields m ∪ Model.persisted m)
        (Model.with_clean true m)) >>
    Events_trigger fuel this "persist" >>
    ret true.

(** ** Collection *)

Definition Collection_new : M ref := alloc (OCollection Collection.new).

(** [all()] *)
Definition Collection_all (c : Collection.t) : list value := Collection.models c.

(** [length] *)
Definition Collection_length (c : Collection.t) : Z :=
  Z.of_nat (length (Collection.models c)).

(** [at(index)] *)
Definition Collection_at (c : Collection.t) (index : Z) : value :=
  default VUndef (nth_Z (Collection.models c) index).

(** [this.modelMap[pk].index] *)
Definition index_of_pk (c : Collection.t) (pk : value) : M nat :=
  match Collection.modelMap c !! to_key pk with
  | None => throw TypeError
  | Some a =>
      match Collection.metas c !! a with
      | None => throw IllTyped
      | Some meta => ret (ModelMeta.index meta)
      end
  end.

(** [get(pk)] *)
Definition Collection_get (this : ref) (pk : value) : M value :=
  let* c := get_collection this in
  let* i := index_of_pk c pk in
  ret (Collection_at c (Z.of_nat i)).

(** [add(model)] *)
Definition Collection_add (fuel : nat) (this : ref) (model : value) : M unit :=
  let* c := get_collection this in
  let index := length (Collection.models c) in
  modify_collection this (fun c =>
    Collection.with_models (Collection.models c ++ [model]) c) >>
  let* r := receiver model in
  let* change := Events_on r "change" (CollChange this r) in
  let* changePK := Events_on r "change:pk" (CollChangePK this) in
  let* pk := pk_of model in
  modify_collection this (fun c =>
    Collection.with_modelMap
      (<[to_key pk := length (Collection.metas c)]> (Collection.modelMap c))
      (Collection.with_metas
         (Collection.metas c ++ [ModelMeta.mk index change changePK]) c)) >>
  modify_collection this (Collection.with_clean false) >>
  Events_trigger fuel this "change" >>
  Events_trigger fuel this "append".

(** [remove(model)] *)
Definition Collection_remove (fuel : nat) (this : ref) (model : value) : M unit :=
  modify_collection this (Collection.with_clean false) >>
  modify_collection this (fun c =>
    Collection.with_models
      (splice (Collection.models c) (indexOf model (Collection.models c)) 1 []) c) >>
  let* pk := pk_of model in
  modify_collection this (fun c =>
    Collection.with_modelMap (delete (to_key pk) (Collection.modelMap c)) c) >>
  let* pk := pk_of model in
  modify_collection this (fun c =>
    Collection.with_persisted
      (splice (Collection.persisted c) (indexOf pk (Collection.persisted c)) 1 [])
      c) >>
  Collection_rebuildMap this >>
  Events_trigger fuel this "change" >>
  Events_trigger fuel this "remove".

(** [removeAt(index)] *)
Definition Collection_removeAt (fuel : nat) (this : ref) (index : Z) : M unit :=
  let* c := get_collection this in
  Collection_remove fuel this (Collection_at c index).

(** [removeBy(pk)] *)
Definition Collection_removeBy (fuel : nat) (this : ref) (pk : value) : M unit :=
  let* m := Collection_get this pk in
  Collection_remove fuel this m.

(** The clamp of [moveAt]. *)
Definition clamp_index (newIndex length : Z) : Z :=
  if newIndex <? 0 then 0
  else if newIndex >? length - 1 then length - 1
  else newIndex.

(** The two [splice] calls of [moveAt]. *)
Definition move_models (models : list value) (index offset : Z) : list value :=
  let model := default VUndef (nth_Z models index) in
  let newIndex := clamp_index (index + offset) (Z.of_nat (length models)) in
  splice (splice models index 1 []) newIndex 0 [model].

(** [moveAt(index, offset)] *)
Definition Collection_moveAt (fuel : nat) (this : ref) (index offset : Z)
  : M unit :=
  modify_collection this (fun c =>
    Collection.with_models (move_models (Collection.models c) index offset) c) >>
  Collection_rebuildMap this >>
  Events_trigger fuel this "change".

(** [move(model, offset)] *)
Definition Collection_move (fuel : nat) (this : ref) (model : value) (offset : Z)
  : M unit :=
  let* c := get_collection this in
  Collection_moveAt fuel this (indexOf model (Collection.models c)) offset.

(** [moveBy(pk, offset)] *)
Definition Collection_moveBy (fuel : nat) (this : ref) (pk : value) (offset : Z)
  : M unit :=
  let* c := get_collection this in
  let* i := index_of_pk c pk in
  Collection_moveAt fuel this (Z.of_nat i) offset.

(** [persist()] *)
Definition Collection_persist (fuel : nat) (this : ref) : M bool :=
  let* c := get_collection this in
  if Collection.clean c then ret false
  else
    modify_collection this (fun c =>
      Collection.with_persisted [] (Collection.with_clean true c)) >>
    forEach (Collection.models c) (fun model =>
      let* pk := pk_of model in
      modify_collection this (fun c =>
        Collection.with_persisted (Collection.persisted c ++ [pk]) c)) >>
    Events_trigger fuel this "persist" >>
    ret true.

(** [array.map(f)]: the elements are visited from the first on. *)
Definition mapM {A B} (f : A -> M B) (l : list A) : M (list B) :=
  foldr (fun x rest => let* y := f x in let* ys := rest in ret (y :: ys))
        (ret []) l.

(** [get changed()] of a collection: the pks of the members, but for those
    that are in the snapshot. *)
Definition Collection_changed (this : ref) : M (list value) :=
  let* c := get_collection this in
  let* pks := mapM pk_of (Collection.models c) in
  let* c := get_collection this in
  ret (List.filter (fun pk => indexOf pk (Collection.persisted c) =? -1) pks).

(** [filter(key)].  The predicate is the caller's: it reads the member and
    the heap, answers a boolean and changes nothing. *)
Definition Collection_filter (this : ref) (key : state -> value -> bool)
  : M (list value) :=
  let* c := get_collection this in
  fun st => Ok (List.filter (key st) (Collection.models c)) st.

(** [removeWhere(key)]: the members are selected first, then removed one
    after the other. *)
Definition Collection_removeWhere (fuel : nat) (this : ref)
    (key : state -> value -> bool) : M unit :=
  let* selected := Collection_filter this key in
  forEach selected (Collection_remove fuel this).

(** * Properties *)

(** ** Arrays *)

Section array_facts.
Context {A : Type} `{EqDecision A}.
Implicit Types (l : list A) (x : A).

Lemma indexOf_from_spec x l i :
  ((x ∉ l) /\ indexOf_from i x l = -1) \/
  (exists n : nat, indexOf_from i x l = i + Z.of_nat n /\ l !! n = Some x /\
     forall j : nat, (j < n)%nat -> l !! j <> Some x).
Proof.
  revert i; induction l as [|y l IH]; intros i; simpl.
  { left. split; [apply not_elem_of_nil|done]. }
  destruct (decide (y = x)) as [->|Hne].
  - right. exists 0%nat. split; [lia|]. split; [done|].
    intros j Hj; exfalso; lia.
  - destruct (IH (i + 1)) as [[Hx H1]|(n & Hn & Hl & Hmin)].
    + left. split; [|done]. apply not_elem_of_cons. by split.
    + right. exists (S n). split; [lia|]. split; [done|].
      intros [|j] Hj; simpl; [congruence|]. apply Hmin; lia.
Qed.

(** [indexOf] answers [-1] for an absent element. *)
Lemma indexOf_absent x l : x ∉ l -> indexOf x l = -1.
Proof.
  intros Hx. unfold indexOf.
  destruct (indexOf_from_spec x l 0) as [[_ H1]|(n & _ & Hl & _)]; [done|].
  exfalso. apply Hx. by eapply list_elem_of_lookup_2.
Qed.

(** [indexOf] answers the first position of a present element. *)
Lemma indexOf_first x l (n : nat) :
  l !! n = Some x -> (forall j : nat, (j < n)%nat -> l !! j <> Some x) ->
  indexOf x l = Z.of_nat n.
Proof.
  intros Hn Hmin. unfold indexOf.
  destruct (indexOf_from_spec x l 0) as [[Hx _]|(k & Hk & Hl & Hkmin)].
  - exfalso. apply Hx. by eapply list_elem_of_lookup_2.
  - rewrite Hk. destruct (Nat.lt_trichotomy k n) as [Hlt|[->|Hgt]]; [|lia|].
    + exfalso. by apply (Hmin k).
    + exfalso. by apply (Hkmin n).
Qed.

Lemma indexOf_NoDup x l (n : nat) :
  NoDup l -> l !! n = Some x -> indexOf x l = Z.of_nat n.
Proof.
  intros Hnd Hn. apply indexOf_first; [done|].
  intros j Hj Hjx. pose proof (NoDup_lookup l j n x Hnd Hjx Hn). lia.
Qed.

(** [splice(i, 1)] at a position of the array deletes that position. *)
Lemma splice_delete l (i : nat) :
  (i < length l)%nat -> splice l (Z.of_nat i) 1 [] = delete i l.
Proof.
  intros Hi. unfold splice, splice_start.
  replace (Z.of_nat i <? 0) with false by lia.
  rewrite Z.min_l by lia. rewrite Nat2Z.id. simpl.
  rewrite Nat.add_1_r. symmetry. apply delete_take_drop.
Qed.

(** [splice(-1, 1)] deletes the last element, if there is one. *)
Lemma splice_minus_one l :
  splice l (-1) 1 [] = take (length l - 1) l.
Proof.
  unfold splice, splice_start. simpl.
  destruct l as [|x l]; [done|].
  replace (Z.to_nat (Z.max (Z.of_nat (length (x :: l)) + -1) 0))
    with (length (x :: l) - 1)%nat by (simpl; lia).
  rewrite (drop_ge (x :: l)) by (simpl; lia). by rewrite app_nil_r.
Qed.

(** [splice(i, 0, x)] inside the array inserts [x] before position [i]. *)
Lemma splice_insert l (i : nat) x :
  (i <= length l)%nat ->
  splice l (Z.of_nat i) 0 [x] = take i l ++ x :: drop i l.
Proof.
  intros Hi. unfold splice, splice_start.
  replace (Z.of_nat i <? 0) with false by lia.
  rewrite Z.min_l by lia. rewrite Nat2Z.id. simpl. by rewrite Nat.add_0_r.
Qed.

Lemma splice_absent l x : x ∉ l -> splice l (indexOf x l) 1 [] = take (length l - 1) l.
Proof. intros Hx. rewrite indexOf_absent by done. apply splice_minus_one. Qed.
End array_facts.

(** ** The execution monad *)

Lemma bind_Ok {A B} (c : M A) (k : A -> M B) st b st2 :
  bind c k st = Ok b st2 <-> exists a st1, c st = Ok a st1 /\ k a st1 = Ok b st2.
Proof.
  unfold bind. destruct (c st) as [a st1| |]; split.
  - intros H; eauto.
  - by intros (a' & st' & [= -> ->] & H).
  - done.
  - by intros (? & ? & ? & ?).
  - done.
  - by intros (? & ? & ? & ?).
Qed.

Lemma bind_Ok_l {A B} (c : M A) (k : A -> M B) st a st1 :
  c st = Ok a st1 -> bind c k st = k a st1.
Proof. unfold bind. by intros ->. Qed.


Lemma get_obj_Ok r st o st' :
  get_obj r st = Ok o st' <-> heap st !! r = Some o /\ st' = st.
Proof.
  unfold get_obj. destruct (heap st !! r); split;
    [by intros [= -> ->]|by intros [[= ->] ->]|done|by intros [? ?]].
Qed.

Lemma get_events_Ok r st e st' :
  get_events r st = Ok e st' <->
  exists o, heap st !! r = Some o /\ e = ev_of o /\ st' = st.
Proof.
  unfold get_events. rewrite bind_Ok. split.
  - intros (o & st1 & Ho & Hr). apply get_obj_Ok in Ho as [Ho ->].
    injection Hr as <- <-. eauto.
  - intros (o & Ho & -> & ->). exists o, st. by rewrite get_obj_Ok.
Qed.

Lemma get_model_Ok r st m st' :
  get_model r st = Ok m st' <-> heap st !! r = Some (OModel m) /\ st' = st.
Proof.
  unfold get_model. rewrite bind_Ok. split.
  - intros (o & st1 & Ho & Hr). apply get_obj_Ok in Ho as [Ho ->].
    destruct o; try done. by injection Hr as <- <-.
  - intros [Ho ->]. exists (OModel m), st. by rewrite get_obj_Ok.
Qed.

Lemma get_collection_Ok r st c st' :
  get_collection r st = Ok c st' <->
  heap st !! r = Some (OCollection c) /\ st' = st.
Proof.
  unfold get_collection. rewrite bind_Ok. split.
  - intros (o & st1 & Ho & Hr). apply get_obj_Ok in Ho as [Ho ->].
    destruct o; try done. by injection Hr as <- <-.
  - intros [Ho ->]. exists (OCollection c), st. by rewrite get_obj_Ok.
Qed.

Lemma subscribers_Ok r name st l st' :
  subscribers r name st = Ok l st' <->
  exists o, heap st !! r = Some o /\
            l = default [] (Events.map (ev_of o) !! name) /\ st' = st.
Proof.
  unfold subscribers. rewrite bind_Ok. split.
  - intros (e & st1 & He & Hr). apply get_events_Ok in He as (o & Ho & -> & ->).
    injection Hr as <- <-. eauto.
  - intros (o & Ho & -> & ->). exists (ev_of o), st. rewrite get_events_Ok. eauto.
Qed.

Definition set_obj (r : ref) (o : obj) (st : state) : state :=
  mkState (<[r := o]> (heap st)) (log st).

Definition add_log (e : entry) (st : state) : state :=
  mkState (heap st) (log st ++ [e]).

Lemma modify_model_Ok r f st u st' :
  modify_model r f st = Ok u st' <->
  exists m, heap st !! r = Some (OModel m) /\ st' = set_obj r (OModel (f m)) st.
Proof.
  unfold modify_model. rewrite bind_Ok. split.
  - intros (m & st1 & Hm & Hr). apply get_model_Ok in Hm as [Hm ->].
    injection Hr as <-. eauto.
  - intros (m & Hm & ->). exists m, st. rewrite get_model_Ok. by destruct u.
Qed.

Lemma modify_collection_Ok r f st u st' :
  modify_collection r f st = Ok u st' <->
  exists c, heap st !! r = Some (OCollection c) /\
            st' = set_obj r (OCollection (f c)) st.
Proof.
  unfold modify_collection. rewrite bind_Ok. split.
  - intros (c & st1 & Hc & Hr). apply get_collection_Ok in Hc as [Hc ->].
    injection Hr as <-. eauto.
  - intros (c & Hc & ->). exists c, st. rewrite get_collection_Ok. by destruct u.
Qed.

Lemma put_events_Ok r e st u st' :
  put_events r e st = Ok u st' <->
  exists o, heap st !! r = Some o /\ st' = set_obj r (with_ev e o) st.
Proof.
  unfold put_events. rewrite bind_Ok. split.
  - intros (o & st1 & Ho & Hr). apply get_obj_Ok in Ho as [Ho ->].
    injection Hr as <-. eauto.
  - intros (o & Ho & ->). exists o, st. rewrite get_obj_Ok. by destruct u.
Qed.

Lemma pk_of_Ok v st p st' :
  pk_of v st = Ok p st' <->
  exists r m, v = VRef r /\ heap st !! r = Some (OModel m) /\
              p = Model_get m "pk" /\ st' = st.
Proof.
  unfold pk_of. rewrite bind_Ok. split.
  - intros (r & st1 & Hr & H). destruct v; try done. injection Hr as <- <-.
    apply bind_Ok in H as (m & st1 & Hm & H). apply get_model_Ok in Hm as [Hm ->].
    injection H as <- <-. eauto 6.
  - intros (r & m & -> & Hm & -> & ->). exists r, st. split; [done|].
    apply bind_Ok. exists m, st. by rewrite get_model_Ok.
Qed.

Lemma persisted_pk_of_Ok v st p st' :
  persisted_pk_of v st = Ok p st' <->
  exists r m, v = VRef r /\ heap st !! r = Some (OModel m) /\
              p = default VUndef (Model.persisted m !! "pk") /\ st' = st.
Proof.
  unfold persisted_pk_of. rewrite bind_Ok. split.
  - intros (r & st1 & Hr & H). destruct v; try done. injection Hr as <- <-.
    apply bind_Ok in H as (m & st1 & Hm & H). apply get_model_Ok in Hm as [Hm ->].
    injection H as <- <-. eauto 6.
  - intros (r & m & -> & Hm & -> & ->). exists r, st. split; [done|].
    apply bind_Ok. exists m, st. by rewrite get_model_Ok.
Qed.

(** The same facts, for running a step forward. *)
Lemma get_events_run r st o :
  heap st !! r = Some o -> get_events r st = Ok (ev_of o) st.
Proof. intros. apply get_events_Ok. eauto. Qed.

Lemma subscribers_run r name st o :
  heap st !! r = Some o ->
  subscribers r name st = Ok (default [] (Events.map (ev_of o) !! name)) st.
Proof. intros. apply subscribers_Ok. eauto. Qed.

Lemma get_model_run r st m :
  heap st !! r = Some (OModel m) -> get_model r st = Ok m st.
Proof. intros. by apply get_model_Ok. Qed.

Lemma get_collection_run r st c :
  heap st !! r = Some (OCollection c) -> get_collection r st = Ok c st.
Proof. intros. by apply get_collection_Ok. Qed.

Lemma modify_model_run r f st m :
  heap st !! r = Some (OModel m) ->
  modify_model r f st = Ok tt (set_obj r (OModel (f m)) st).
Proof. intros. apply modify_model_Ok. eauto. Qed.

Lemma modify_collection_run r f st c :
  heap st !! r = Some (OCollection c) ->
  modify_collection r f st = Ok tt (set_obj r (OCollection (f c)) st).
Proof. intros. apply modify_collection_Ok. eauto. Qed.

Lemma put_events_run r e st o :
  heap st !! r = Some o -> put_events r e st = Ok tt (set_obj r (with_ev e o) st).
Proof. intros. apply put_events_Ok. eauto. Qed.

Lemma pk_of_run r st m :
  heap st !! r = Some (OModel m) -> pk_of (VRef r) st = Ok (Model_get m "pk") st.
Proof. intros. apply pk_of_Ok. eauto 6. Qed.

Lemma persisted_pk_of_run r st m :
  heap st !! r = Some (OModel m) ->
  persisted_pk_of (VRef r) st
  = Ok (default VUndef (Model.persisted m !! "pk")) st.
Proof. intros. apply persisted_pk_of_Ok. eauto 6. Qed.

Lemma lookup_set_obj_eq r o st :
  is_Some (heap st !! r) -> heap (set_obj r o st) !! r = Some o.
Proof.
  intros H. simpl. apply list_lookup_insert_eq. by apply lookup_lt_is_Some.
Qed.

Lemma lookup_set_obj_ne r r' o st :
  r <> r' -> heap (set_obj r o st) !! r' = heap st !! r'.
Proof. intros H. simpl. by apply list_lookup_insert_ne. Qed.

Ltac fold_states :=
  repeat match goal with
  | H : context [mkState (heap ?st) (log ?st ++ [?e])] |- _ =>
      change (mkState (heap st) (log st ++ [e])) with (add_log e st) in H
  | |- context [mkState (heap ?st) (log ?st ++ [?e])] =>
      change (mkState (heap st) (log st ++ [e])) with (add_log e st)
  end.

(** Decompose a hypothesis saying that a sequence of steps returned. *)
Ltac inv_M H :=
  lazymatch type of H with
  | bind _ _ _ = Ok _ _ =>
      let a := fresh "a" in
      let st := fresh "st" in
      let H1 := fresh "Hstep" in
      apply bind_Ok in H as (a & st & H1 & H);
      lazymatch type of a with unit => destruct a | _ => idtac end;
      inv_M H1; inv_M H
  | get_obj _ _ = Ok _ _ =>
      let E := fresh "E" in apply get_obj_Ok in H as [H E]; subst
  | get_events _ _ = Ok _ _ =>
      let o := fresh "o" in
      apply get_events_Ok in H as (o & H & ? & ?); subst
  | subscribers _ _ _ = Ok _ _ =>
      let o := fresh "o" in
      apply subscribers_Ok in H as (o & H & ? & ?); subst
  | get_model _ _ = Ok _ _ =>
      let E := fresh "E" in apply get_model_Ok in H as [H E]; subst
  | get_collection _ _ = Ok _ _ =>
      let E := fresh "E" in apply get_collection_Ok in H as [H E]; subst
  | modify_model _ _ _ = Ok _ _ =>
      let m := fresh "m" in apply modify_model_Ok in H as (m & H & ?); subst
  | modify_collection _ _ _ = Ok _ _ =>
      let c := fresh "c" in apply modify_collection_Ok in H as (c & H & ?); subst
  | put_events _ _ _ = Ok _ _ =>
      let o := fresh "o" in apply put_events_Ok in H as (o & H & ?); subst
  | pk_of _ _ = Ok _ _ =>
      let r := fresh "r" in
      let m := fresh "m" in
      apply pk_of_Ok in H as (r & m & ? & H & ? & ?); subst
  | persisted_pk_of _ _ = Ok _ _ =>
      let r := fresh "r" in
      let m := fresh "m" in
      apply persisted_pk_of_Ok in H as (r & m & ? & H & ? & ?); subst
  | Ok _ _ = Ok _ _ => simplify_eq
  | ret _ _ = Ok _ _ => unfold ret in H; simplify_eq
  | record _ _ = Ok _ _ => unfold record in H; simplify_eq; fold_states
  | throw _ _ = Ok _ _ => discriminate H
  | _ => idtac
  end.

(** ** What a cascade of triggers can do

    Every property of [trigger] below follows one scheme: a cascade only
    emits, calls observers, marks models dirty, runs the handlers of
    [Collection.add] and re-enters [trigger].  [cascade_ind] is the induction
    principle for it.  [T] describes the triggers that can occur, [A] the
    closures that can be called, [P] is the invariant. *)

Section cascade.
Variable T : ref -> string -> Prop.
Variable A : callback -> Prop.
Variable P : state -> Prop.

Hypothesis allowed : forall st x name o l h cb,
  P st -> T x name -> heap st !! x = Some o ->
  Events.map (ev_of o) !! name = Some l -> h ∈ l ->
  Events.events (ev_of o) !! h = Some cb -> A cb.
Hypothesis nested_T : forall t p,
  A (ModelNested t p) -> T t "change" /\ T t ("change:" +:+ p).
Hypothesis coll_T : forall t m, A (CollChange t m) -> T t "change".
Hypothesis P_emit : forall st x name,
  P st -> T x name -> P (add_log (Emitted x name) st).
Hypothesis P_spy : forall st id,
  P st -> A (Spy id) -> P (add_log (Called id) st).
Hypothesis P_dirty : forall st t p m,
  P st -> A (ModelNested t p) -> heap st !! t = Some (OModel m) ->
  P (set_obj t (OModel (Model.with_clean false m)) st).
Hypothesis P_member : forall st t model st',
  P st -> A (CollChange t model) ->
  member_changed t model st = Ok tt st' -> P st'.
Hypothesis P_rebuild : forall st t st',
  P st -> A (CollChangePK t) ->
  Collection_rebuildMap t st = Ok tt st' -> P st'.

Lemma call_ind (trigger : ref -> string -> M unit) :
  (forall x name st st',
      trigger x name st = Ok tt st' -> T x name -> P st -> P st') ->
  forall cb st st', call trigger cb st = Ok tt st' -> A cb -> P st -> P st'.
Proof.
  intros IH cb st st' Hrun Hcb HP. destruct cb as [t p|t m|t|id]; simpl in Hrun.
  - destruct (nested_T _ _ Hcb) as [T1 T2].
    apply bind_Ok in Hrun as (u & st1 & Hdirty & Hrun); destruct u.
    apply bind_Ok in Hrun as (u & st2 & Hfirst & Hrun); destruct u.
    inv_M Hdirty.
    apply (IH _ _ _ _ Hrun T2).
    apply (IH _ _ _ _ Hfirst T1). by eapply P_dirty.
  - apply bind_Ok in Hrun as (u & st1 & Hfirst & Hrun); destruct u.
    apply (IH _ _ _ _ Hrun (coll_T _ _ Hcb)). by eapply P_member.
  - by eapply P_rebuild.
  - inv_M Hrun. by apply P_spy.
Qed.

Lemma invoke_ind (trigger : ref -> string -> M unit) :
  (forall x name st st',
      trigger x name st = Ok tt st' -> T x name -> P st -> P st') ->
  forall x name k n st st',
    forEach_live (subscribers x name) (invoke trigger x) k n st = Ok tt st' ->
    T x name -> P st -> P st'.
Proof.
  intros IH x name k n; revert k.
  induction n as [|n IHn]; intros k st st' Hrun HT HP; simpl in Hrun.
  { by inv_M Hrun. }
  apply bind_Ok in Hrun as (l & st1 & Hl & Hrun). inv_M Hl.
  apply bind_Ok in Hrun as (u & st2 & Hk & Hrun); destruct u.
  apply (IHn _ _ _ Hrun HT). clear Hrun IHn.
  destruct (default [] (Events.map (ev_of o) !! name) !! k) as [h|] eqn:Ek;
    [|by inv_M Hk].
  unfold invoke in Hk. inv_M Hk. assert (o0 = o) as -> by congruence.
  destruct (Events.events (ev_of o) !! h) as [cb|] eqn:Eh; [|done].
  destruct (Events.map (ev_of o) !! name) as [l|] eqn:El; [|done]. simpl in Ek.
  eapply call_ind; [apply IH|apply Hk| |done].
  eapply allowed; eauto. by eapply list_elem_of_lookup_2.
Qed.

Lemma cascade_ind fuel : forall x name st st',
  Events_trigger fuel x name st = Ok tt st' -> T x name -> P st -> P st'.
Proof.
  induction fuel as [|fuel IH]; intros x name st st' Hrun HT HP; [done|].
  simpl in Hrun. unfold trigger_body in Hrun. inv_M Hrun.
  eapply invoke_ind; [apply IH|apply Hrun|done|]. by apply P_emit.
Qed.
End cascade.

(** ** What no cascade changes

    [evolves st st'] relates a state to a later state of the same cascade:
    subscriptions, the fields and snapshots of models and the members of
    collections are the same, a dirty flag that was set is still set, and
    the log has only grown. *)

Definition obj_evolves (o o' : obj) : Prop :=
  ev_of o' = ev_of o /\
  match o, o' with
  | OEvents _, OEvents _ => True
  | OModel m, OModel m' =>
      Model.fieldNames m' = Model.fieldNames m /\
      Model.fields m' = Model.fields m /\
      Model.mappedEvents m' = Model.mappedEvents m /\
      Model.persisted m' = Model.persisted m /\
      (Model.clean m = false -> Model.clean m' = false)
  | OCollection c, OCollection c' =>
      Collection.models c' = Collection.models c /\
      (Collection.clean c = false -> Collection.clean c' = false)
  | _, _ => False
  end.

Definition evolves (st st' : state) : Prop :=
  Forall2 obj_evolves (heap st) (heap st') /\
  exists t, log st' = log st ++ t.

Lemma obj_evolves_refl o : obj_evolves o o.
Proof. split; [done|]. by destruct o. Qed.

Lemma obj_evolves_trans o1 o2 o3 :
  obj_evolves o1 o2 -> obj_evolves o2 o3 -> obj_evolves o1 o3.
Proof.
  intros [E12 H12] [E23 H23]. split; [congruence|].
  destruct o1, o2, o3; try done.
  - destruct H12 as (? & ? & ? & ? & ?), H23 as (? & ? & ? & ? & ?).
    repeat split; try congruence. auto.
  - destruct H12 as (? & ?), H23 as (? & ?). split; [congruence|auto].
Qed.

Lemma evolves_refl st : evolves st st.
Proof.
  split.
  - apply Forall2_same_length_lookup. split; [done|].
    intros i o o' H1 H2. assert (o' = o) as -> by congruence.
    apply obj_evolves_refl.
  - exists []. by rewrite app_nil_r.
Qed.

Lemma evolves_trans st1 st2 st3 :
  evolves st1 st2 -> evolves st2 st3 -> evolves st1 st3.
Proof.
  intros [H12 [t12 L12]] [H23 [t23 L23]]. split.
  - eapply Forall2_trans; [apply obj_evolves_trans|done..].
  - exists (t12 ++ t23). by rewrite L23, L12, app_assoc.
Qed.

Lemma evolves_add_log e st : evolves st (add_log e st).
Proof.
  split; [apply (evolves_refl st)|]. by exists [e].
Qed.

Lemma evolves_set_obj r o o' st :
  heap st !! r = Some o -> obj_evolves o o' -> evolves st (set_obj r o' st).
Proof.
  intros Hr Ho. split; [|exists []; simpl; by rewrite app_nil_r].
  simpl. apply Forall2_same_length_lookup. split; [by rewrite length_insert|].
  intros i o1 o2 H1 H2. destruct (decide (i = r)) as [->|Hne].
  - rewrite list_lookup_insert_eq in H2 by (by eapply lookup_lt_Some).
    by simplify_eq.
  - rewrite list_lookup_insert_ne in H2 by done.
    assert (o2 = o1) as -> by congruence. apply obj_evolves_refl.
Qed.

Lemma evolves_lookup st st' r o :
  evolves st st' -> heap st !! r = Some o ->
  exists o', heap st' !! r = Some o' /\ obj_evolves o o'.
Proof. intros [H _] Hr. by eapply Forall2_lookup_l. Qed.

Lemma evolves_lookup_r st st' r o' :
  evolves st st' -> heap st' !! r = Some o' ->
  exists o, heap st !! r = Some o /\ obj_evolves o o'.
Proof. intros [H _] Hr. by eapply Forall2_lookup_r. Qed.

Lemma evolves_ev st st' r o o' :
  evolves st st' -> heap st !! r = Some o -> heap st' !! r = Some o' ->
  ev_of o' = ev_of o.
Proof.
  intros H Hr Hr'. destruct (evolves_lookup _ _ _ _ H Hr) as (o2 & Ho2 & [E _]).
  congruence.
Qed.

Lemma evolves_model st st' r m :
  evolves st st' -> heap st !! r = Some (OModel m) ->
  exists m', heap st' !! r = Some (OModel m') /\
    Model.super m' = Model.super m /\
    Model.fieldNames m' = Model.fieldNames m /\
    Model.fields m' = Model.fields m /\
    Model.mappedEvents m' = Model.mappedEvents m /\
    Model.persisted m' = Model.persisted m /\
    (Model.clean m = false -> Model.clean m' = false).
Proof.
  intros H Hr. destruct (evolves_lookup _ _ _ _ H Hr) as (o' & Ho' & [E Hm]).
  destruct o' as [|m'|]; try done. exists m'. by repeat split; try apply Hm.
Qed.

Lemma evolves_collection st st' r c :
  evolves st st' -> heap st !! r = Some (OCollection c) ->
  exists c', heap st' !! r = Some (OCollection c') /\
    Collection.super c' = Collection.super c /\
    Collection.models c' = Collection.models c /\
    (Collection.clean c = false -> Collection.clean c' = false).
Proof.
  intros H Hr. destruct (evolves_lookup _ _ _ _ H Hr) as (o' & Ho' & [E Hc]).
  destruct o' as [| |c']; try done. exists c'. by repeat split; try apply Hc.
Qed.

Lemma rebuild_loop_evolves this : forall ms newMap index st newMap' st',
  rebuild_loop this newMap index ms st = Ok newMap' st' -> evolves st st'.
Proof.
  induction ms as [|m ms IH]; intros newMap index st newMap' st' Hrun;
    simpl in Hrun.
  { inv_M Hrun. apply evolves_refl. }
  apply bind_Ok in Hrun as (nm & st1 & Hstep & Hrun).
  eapply evolves_trans; [|by eapply IH]. clear Hrun IH.
  unfold rebuild_step in Hstep.
  apply bind_Ok in Hstep as (pk & st2 & Hpk & Hstep). inv_M Hpk.
  apply bind_Ok in Hstep as (ppk & st2 & Hppk & Hstep). inv_M Hppk.
  apply bind_Ok in Hstep as (c & st2 & Hc & Hstep). inv_M Hc.
  destruct (Collection.modelMap c !! _) as [a|]; [|done].
  destruct (Collection.metas c !! a) as [meta|]; [|done].
  inv_M Hstep. eapply evolves_set_obj; [done|]. by split.
Qed.

Lemma rebuildMap_evolves this st st' :
  Collection_rebuildMap this st = Ok tt st' -> evolves st st'.
Proof.
  unfold Collection_rebuildMap. intros Hrun.
  apply bind_Ok in Hrun as (c & st1 & Hc & Hrun). inv_M Hc.
  apply bind_Ok in Hrun as (nm & st1 & Hloop & Hrun).
  eapply evolves_trans; [by eapply rebuild_loop_evolves|].
  inv_M Hrun. eapply evolves_set_obj; [done|]. by split.
Qed.

Lemma member_changed_evolves this model st st' :
  member_changed this model st = Ok tt st' -> evolves st st'.
Proof.
  unfold member_changed. intros Hrun.
  apply bind_Ok in Hrun as (u & st1 & H1 & Hrun); destruct u. inv_M H1.
  apply bind_Ok in Hrun as (pk & st2 & H2 & Hrun). inv_M H2.
  inv_M Hrun.
  eapply (evolves_trans _
            (set_obj this (OCollection (Collection.with_clean false c)) st)).
  - eapply evolves_set_obj; [exact H1|by split].
  - eapply evolves_set_obj; [exact Hrun|by split].
Qed.

(** The steps of a cascade, one by one. *)
Ltac evolves_step :=
  intros; (eapply evolves_trans; [eassumption|]);
  first [ apply evolves_add_log
        | eapply evolves_set_obj; [eassumption|by split]
        | by eapply member_changed_evolves
        | by eapply rebuildMap_evolves ].

(** No cascade changes a subscription, a field, a snapshot of a model or
    the members of a collection. *)
Lemma trigger_evolves fuel x name st st' :
  Events_trigger fuel x name st = Ok tt st' -> evolves st st'.
Proof.
  intros Hrun.
  apply (cascade_ind (fun _ _ => True) (fun _ => True) (evolves st))
    with (fuel := fuel) (x := x) (name := name) (st := st);
    try done; try evolves_step.
  apply evolves_refl.
Qed.

Lemma call_evolves fuel cb st st' :
  call (Events_trigger fuel) cb st = Ok tt st' -> evolves st st'.
Proof.
  intros Hrun.
  apply (call_ind (fun _ _ => True) (fun _ => True) (evolves st))
    with (trigger := Events_trigger fuel) (cb := cb) (st := st);
    try done; try evolves_step.
  - intros x1 name1 st1 st2 Ht _ H1. eapply evolves_trans; [done|].
    by eapply trigger_evolves.
  - apply evolves_refl.
Qed.

Lemma loop_evolves fuel x name k n st st' :
  forEach_live (subscribers x name) (invoke (Events_trigger fuel) x) k n st
  = Ok tt st' ->
  evolves st st'.
Proof.
  intros Hrun.
  apply (invoke_ind (fun _ _ => True) (fun _ => True) (evolves st))
    with (trigger := Events_trigger fuel) (x := x) (name := name) (k := k)
         (n := n) (st := st);
    try done; try evolves_step.
  - intros x1 name1 st1 st2 Ht _ H1. eapply evolves_trans; [done|].
    by eapply trigger_evolves.
  - apply evolves_refl.
Qed.

(** ** Acyclic wiring

    A cascade returns when the subscriptions are acyclic: [rank] orders the
    objects so that a closure bound to an object only ever triggers on an
    object of lower rank.  [wired rank st] says so, and that every handle
    listed under a name has its callback and was issued by the counter of
    the object, that the closures of the library are bound to the names the
    library binds them to, and that no model observes a value stored in its
    [pk]. *)

Definition is_model (st : state) (r : ref) : Prop :=
  exists m, heap st !! r = Some (OModel m).

Definition is_collection (st : state) (r : ref) : Prop :=
  exists c, heap st !! r = Some (OCollection c).

Definition cb_ok (rank : ref -> nat) (st : state) (x : ref) (name : string)
    (cb : callback) : Prop :=
  match cb with
  | Spy _ => True
  | ModelNested t p =>
      name = "change" /\ p <> "pk" /\ is_model st t /\ (rank t < rank x)%nat
  | CollChange t m =>
      name = "change" /\ is_collection st t /\ is_model st m /\
      (rank t < rank x)%nat
  | CollChangePK t =>
      name = "change:pk" /\ is_collection st t /\ (rank t < rank x)%nat
  end.

Definition wired (rank : ref -> nat) (st : state) : Prop :=
  forall x o name l h,
    heap st !! x = Some o -> Events.map (ev_of o) !! name = Some l -> h ∈ l ->
    exists cb, Events.events (ev_of o) !! h = Some cb /\
               cb_ok rank st x name cb /\
               (h <= Events.eventIndex (ev_of o))%nat.

Lemma is_model_evolves st st' r : evolves st st' -> is_model st r -> is_model st' r.
Proof.
  intros H [m Hm]. destruct (evolves_model _ _ _ _ H Hm) as (m' & Hm' & _).
  by exists m'.
Qed.

Lemma is_collection_evolves st st' r :
  evolves st st' -> is_collection st r -> is_collection st' r.
Proof.
  intros H [c Hc]. destruct (evolves_collection _ _ _ _ H Hc) as (c' & Hc' & _).
  by exists c'.
Qed.

Lemma cb_ok_evolves rank st st' x name cb :
  evolves st st' -> cb_ok rank st x name cb -> cb_ok rank st' x name cb.
Proof.
  intros H. destruct cb; simpl; [| | |done].
  - intros (? & ? & ? & ?). eauto using is_model_evolves.
  - intros (? & ? & ? & ?). eauto 6 using is_model_evolves, is_collection_evolves.
  - intros (? & ? & ?). eauto using is_collection_evolves.
Qed.

Lemma wired_evolves rank st st' : evolves st st' -> wired rank st -> wired rank st'.
Proof.
  intros H Hw x o' name l h Hx Hl Hh.
  destruct (evolves_lookup_r _ _ _ _ H Hx) as (o & Ho & [E _]).
  rewrite E in Hl. destruct (Hw x o name l h Ho Hl Hh) as (cb & Hcb & Hok & Hfr).
  exists cb. rewrite E. eauto using cb_ok_evolves.
Qed.

Lemma change_field_not_pk p : p <> "pk" -> "change:" +:+ p <> "change:pk".
Proof. intros Hp H. apply Hp. by apply (inj (String.app "change:")) in H. Qed.

Section termination.
Variable rank : ref -> nat.

Lemma member_changed_returns this model st :
  is_collection st this -> is_model st model ->
  exists st', member_changed this model st = Ok tt st'.
Proof.
  intros [c Hc] [m Hm]. unfold member_changed.
  assert (this <> model) as Hne by (intros ->; congruence).
  erewrite bind_Ok_l; [|by apply modify_collection_run].
  erewrite bind_Ok_l; cycle 1.
  { apply pk_of_run. by rewrite lookup_set_obj_ne. }
  eexists. apply modify_collection_run. by apply lookup_set_obj_eq.
Qed.

Lemma call_returns fuel x name cb st :
  (forall t name' st1,
      wired rank st1 -> name' <> "change:pk" -> is_Some (heap st1 !! t) ->
      (rank t < rank x)%nat ->
      exists st', Events_trigger fuel t name' st1 = Ok tt st') ->
  wired rank st -> name <> "change:pk" -> cb_ok rank st x name cb ->
  exists st', call (Events_trigger fuel) cb st = Ok tt st'.
Proof.
  intros IH Hw Hname Hok. destruct cb as [t p|t m|t|id]; simpl in *.
  - destruct Hok as (-> & Hp & [m Hm] & Hrank).
    erewrite bind_Ok_l; [|by apply modify_model_run].
    set (st1 := set_obj t _ st).
    assert (evolves st st1) as E1.
    { eapply evolves_set_obj; [done|]. by split. }
    destruct (IH t "change" st1) as (st2 & H2); try done.
    { by eapply wired_evolves. }
    { destruct (evolves_lookup _ _ _ _ E1 Hm) as (? & -> & _). eauto. }
    erewrite bind_Ok_l; [|done].
    pose proof (trigger_evolves _ _ _ _ _ H2) as E2.
    apply IH; [|by apply change_field_not_pk| |done].
    + eauto using wired_evolves.
    + destruct (evolves_lookup _ _ _ _ (evolves_trans _ _ _ E1 E2) Hm)
        as (? & -> & _). eauto.
  - destruct Hok as (-> & Hc & Hm & Hrank).
    destruct (member_changed_returns t m st Hc Hm) as (st1 & H1).
    erewrite bind_Ok_l; [|done].
    pose proof (member_changed_evolves _ _ _ _ H1) as E1.
    apply IH; [by eapply wired_evolves|done| |done].
    destruct Hc as [c Hc].
    destruct (evolves_lookup _ _ _ _ E1 Hc) as (? & -> & _). eauto.
  - by destruct Hok.
  - eexists. done.
Qed.

Lemma loop_returns fuel x name :
  (forall t name' st1,
      wired rank st1 -> name' <> "change:pk" -> is_Some (heap st1 !! t) ->
      (rank t < rank x)%nat ->
      exists st', Events_trigger fuel t name' st1 = Ok tt st') ->
  name <> "change:pk" ->
  forall n k st,
    wired rank st -> is_Some (heap st !! x) ->
    exists st',
      forEach_live (subscribers x name) (invoke (Events_trigger fuel) x) k n st
      = Ok tt st'.
Proof.
  intros IH Hname. induction n as [|n IHn]; intros k st Hw [o Ho]; simpl.
  { by eexists. }
  erewrite bind_Ok_l; [|by apply subscribers_run].
  destruct (default [] (Events.map (ev_of o) !! name) !! k) as [h|] eqn:Ek.
  - destruct (Events.map (ev_of o) !! name) as [l|] eqn:El; [|done].
    simpl in Ek.
    destruct (Hw x o name l h Ho El) as (cb & Hcb & Hok & _).
    { by eapply list_elem_of_lookup_2. }
    destruct (call_returns fuel x name cb st IH Hw Hname Hok) as (st1 & H1).
    assert (invoke (Events_trigger fuel) x h st = Ok tt st1) as Hinv.
    { unfold invoke. erewrite bind_Ok_l; [|by apply get_events_run].
      by rewrite Hcb. }
    erewrite bind_Ok_l; [|done].
    pose proof (call_evolves _ _ _ _ H1) as E1.
    apply IHn; [by eapply wired_evolves|].
    destruct (evolves_lookup _ _ _ _ E1 Ho) as (? & -> & _). eauto.
  - erewrite bind_Ok_l; [|done]. apply IHn; eauto.
Qed.

(** With acyclic wiring, [trigger] returns as soon as the fuel exceeds
    the rank of the emitter. *)
Lemma trigger_returns : forall fuel x name st,
  wired rank st -> name <> "change:pk" -> is_Some (heap st !! x) ->
  (rank x < fuel)%nat ->
  exists st', Events_trigger fuel x name st = Ok tt st'.
Proof.
  induction fuel as [|fuel IH]; intros x name st Hw Hname [o Ho] Hrank;
    [lia|].
  simpl. unfold trigger_body.
  erewrite bind_Ok_l; [|done]. fold_states.
  erewrite bind_Ok_l; [|by apply subscribers_run].
  apply loop_returns; try done.
  intros t name' st1 Hw1 Hn1 Ht Hr. apply IH; try done. lia.
Qed.
End termination.

(** ** Which objects a cascade can reach *)

(** The object a closure of the library writes to and triggers on. *)
Definition target (cb : callback) : option ref :=
  match cb with
  | ModelNested t _ | CollChange t _ | CollChangePK t => Some t
  | Spy _ => None
  end.

(** [edge st x t]: [x] has a subscriber that is a closure on [t]. *)
Definition edge (st : state) (x t : ref) : Prop :=
  exists o name l h cb,
    heap st !! x = Some o /\ Events.map (ev_of o) !! name = Some l /\ h ∈ l /\
    Events.events (ev_of o) !! h = Some cb /\ target cb = Some t.

Lemma edge_evolves st st' x t : evolves st st' -> edge st' x t -> edge st x t.
Proof.
  intros H (o' & name & l & h & cb & Hx & Hl & Hh & Hcb & Ht).
  destruct (evolves_lookup_r _ _ _ _ H Hx) as (o & Ho & [E _]).
  exists o, name, l, h, cb. rewrite <- E. eauto.
Qed.

Lemma member_changed_frame this model st st' r :
  member_changed this model st = Ok tt st' -> r <> this ->
  heap st' !! r = heap st !! r /\ log st' = log st.
Proof.
  unfold member_changed. intros Hrun Hne. inv_M Hrun.
  by rewrite !lookup_set_obj_ne.
Qed.

Lemma rebuild_loop_frame this r : forall ms newMap index st newMap' st',
  rebuild_loop this newMap index ms st = Ok newMap' st' -> r <> this ->
  heap st' !! r = heap st !! r /\ log st' = log st.
Proof.
  induction ms as [|m ms IH]; intros newMap index st newMap' st' Hrun Hne;
    simpl in Hrun.
  { by inv_M Hrun. }
  apply bind_Ok in Hrun as (nm & st1 & Hstep & Hrun).
  destruct (IH _ _ _ _ _ Hrun Hne) as [-> ->]. clear Hrun IH.
  unfold rebuild_step in Hstep.
  apply bind_Ok in Hstep as (pk & st2 & Hpk & Hstep). inv_M Hpk.
  apply bind_Ok in Hstep as (ppk & st2 & Hppk & Hstep). inv_M Hppk.
  apply bind_Ok in Hstep as (c & st2 & Hc & Hstep). inv_M Hc.
  destruct (Collection.modelMap c !! _) as [a|]; [|done].
  destruct (Collection.metas c !! a) as [meta|]; [|done].
  inv_M Hstep. by rewrite lookup_set_obj_ne.
Qed.

Lemma rebuildMap_frame this st st' r :
  Collection_rebuildMap this st = Ok tt st' -> r <> this ->
  heap st' !! r = heap st !! r /\ log st' = log st.
Proof.
  unfold Collection_rebuildMap. intros Hrun Hne.
  apply bind_Ok in Hrun as (c & st1 & Hc & Hrun). inv_M Hc.
  apply bind_Ok in Hrun as (nm & st1 & Hloop & Hrun).
  destruct (rebuild_loop_frame _ _ _ _ _ _ _ _ Hloop Hne) as [<- <-].
  inv_M Hrun. by rewrite lookup_set_obj_ne.
Qed.

(** [silent R t]: no entry of [t] is an event of [R]. *)
Definition silent (R : ref) (t : list entry) : Prop :=
  forall n, Emitted R n ∉ t.

Section frame.
Variables (st0 : state) (x0 R : ref).

Let inv (st : state) : Prop :=
  evolves st0 st /\
  (~ tc (edge st0) x0 R -> heap st !! R = heap st0 !! R) /\
  (~ rtc (edge st0) x0 R -> exists t, log st = log st0 ++ t /\ silent R t).

Let targets_reachable (cb : callback) : Prop :=
  forall t, target cb = Some t -> tc (edge st0) x0 t.

Lemma frame_step st st' :
  inv st -> evolves st st' ->
  (~ tc (edge st0) x0 R -> heap st' !! R = heap st !! R) ->
  (~ rtc (edge st0) x0 R -> exists t, log st' = log st ++ t /\ silent R t) ->
  inv st'.
Proof.
  intros (E & Hh & Hl) E' Hh' Hl'. split; [by eapply evolves_trans|]. split.
  - intros Hn. by rewrite Hh', Hh.
  - intros Hn. destruct (Hl Hn) as (t & Lt & St), (Hl' Hn) as (t' & Lt' & St').
    exists (t ++ t'). split; [by rewrite Lt', Lt, app_assoc|].
    intros n [?|?]%elem_of_app; [by eapply St|by eapply St'].
Qed.

(** A cascade started on [x0] leaves alone every object that no chain of
    subscriptions links to [x0], and emits nothing on it. *)
Lemma trigger_frame fuel name st' :
  Events_trigger fuel x0 name st0 = Ok tt st' ->
  (~ tc (edge st0) x0 R -> heap st' !! R = heap st0 !! R) /\
  (~ rtc (edge st0) x0 R -> exists t, log st' = log st0 ++ t /\ silent R t).
Proof.
  intros Hrun.
  cut (inv st'); [by intros (_ & ? & ?)|].
  apply (cascade_ind (fun t _ => rtc (edge st0) x0 t) targets_reachable inv)
    with (fuel := fuel) (x := x0) (name := name) (st := st0); try done.
  - intros st x name1 o l h cb (E & _) Hx Ho Hl Hh Hcb t Ht.
    eapply tc_rtc_l; [done|]. apply tc_once. eapply edge_evolves; [done|].
    by exists o, name1, l, h, cb.
  - intros t p Hcb. split; apply tc_rtc, Hcb; done.
  - intros t m Hcb. apply tc_rtc, Hcb; done.
  - intros st x name1 Hinv Hx. eapply frame_step; [done|apply evolves_add_log|done|].
    intros Hn. exists [Emitted x name1]. split; [done|].
    intros n [=]%list_elem_of_singleton. subst. done.
  - intros st id Hinv _. eapply frame_step; [done|apply evolves_add_log|done|].
    intros Hn. exists [Called id]. split; [done|].
    by intros n [=]%list_elem_of_singleton.
  - intros st t p m Hinv Hcb Hm.
    eapply frame_step; [done|eapply evolves_set_obj; [done|by split]| |].
    + intros Hn. apply lookup_set_obj_ne. intros ->. by apply Hn, Hcb.
    + intros Hn. exists []. split; [simpl; by rewrite app_nil_r|].
      intros n. apply not_elem_of_nil.
  - intros st t model st1 Hinv Hcb Hm.
    eapply frame_step; [done|by eapply member_changed_evolves| |].
    + intros Hn. eapply member_changed_frame; [done|].
      intros ->. by apply Hn, Hcb.
    + intros Hn. exists []. split; [|intros n; apply not_elem_of_nil].
      rewrite app_nil_r.
      destruct (decide (R = t)) as [->|Hne].
      * exfalso. by apply Hn, tc_rtc, Hcb.
      * by eapply member_changed_frame.
  - intros st t st1 Hinv Hcb Hm.
    eapply frame_step; [done|by eapply rebuildMap_evolves| |].
    + intros Hn. eapply rebuildMap_frame; [done|].
      intros ->. by apply Hn, Hcb.
    + intros Hn. exists []. split; [|intros n; apply not_elem_of_nil].
      rewrite app_nil_r.
      destruct (decide (R = t)) as [->|Hne].
      * exfalso. by apply Hn, tc_rtc, Hcb.
      * by eapply rebuildMap_frame.
  - split; [apply evolves_refl|]. split; [done|].
    intros _. exists []. split; [by rewrite app_nil_r|].
    intros n. apply not_elem_of_nil.
Qed.
End frame.

(** Acyclic wiring: a chain of subscriptions strictly lowers the rank. *)
Lemma wired_edge rank st x t : wired rank st -> edge st x t -> (rank t < rank x)%nat.
Proof.
  intros Hw (o & name & l & h & cb & Hx & Hl & Hh & Hcb & Ht).
  destruct (Hw x o name l h Hx Hl Hh) as (cb' & Hcb' & Hok & _).
  assert (cb' = cb) as -> by congruence.
  destruct cb; simpl in *; simplify_eq; tauto.
Qed.

Lemma wired_tc rank st x t :
  wired rank st -> tc (edge st) x t -> (rank t < rank x)%nat.
Proof.
  intros Hw H. induction H as [x t H|x y t H _ IH].
  - by eapply wired_edge.
  - pose proof (wired_edge _ _ _ _ Hw H). lia.
Qed.

Lemma wired_rtc rank st x t :
  wired rank st -> rtc (edge st) x t -> (rank t <= rank x)%nat.
Proof.
  intros Hw [->|H]%rtc_tc; [lia|]. pose proof (wired_tc _ _ _ _ Hw H). lia.
Qed.

(** What [trigger] adds to the log starts with its own event. *)
Lemma trigger_emits fuel x name st st' :
  Events_trigger fuel x name st = Ok tt st' ->
  exists t, log st' = log st ++ Emitted x name :: t.
Proof.
  destruct fuel as [|fuel]; [done|]. simpl. unfold trigger_body. intros Hrun.
  apply bind_Ok in Hrun as (u & st1 & H1 & Hrun); destruct u. inv_M H1.
  apply bind_Ok in Hrun as (l & st1 & H1 & Hrun). inv_M H1.
  apply loop_evolves in Hrun as [_ [t Ht]].
  exists t. rewrite Ht. simpl. by rewrite <- app_assoc.
Qed.

(** ** Wiring only depends on the subscription tables *)

Definition obj_shape (o o' : obj) : Prop :=
  ev_of o' = ev_of o /\
  match o, o' with
  | OEvents _, OEvents _ | OModel _, OModel _ | OCollection _, OCollection _ =>
      True
  | _, _ => False
  end.

Definition same_shape (st st' : state) : Prop :=
  Forall2 obj_shape (heap st) (heap st').

Lemma evolves_shape st st' : evolves st st' -> same_shape st st'.
Proof.
  intros [H _]. eapply Forall2_impl; [done|].
  intros o o' [E Ho]. split; [done|]. by destruct o, o'.
Qed.

Lemma same_shape_set_obj r o o' st :
  heap st !! r = Some o -> obj_shape o o' -> same_shape st (set_obj r o' st).
Proof.
  intros Hr Ho. unfold same_shape. simpl. apply Forall2_same_length_lookup.
  split; [by rewrite length_insert|].
  intros i o1 o2 H1 H2. destruct (decide (i = r)) as [->|Hne].
  - rewrite list_lookup_insert_eq in H2 by (by eapply lookup_lt_Some).
    by simplify_eq.
  - rewrite list_lookup_insert_ne in H2 by done.
    assert (o2 = o1) as -> by congruence. split; [done|by destruct o1].
Qed.

Lemma wired_shape rank st st' : same_shape st st' -> wired rank st -> wired rank st'.
Proof.
  intros H Hw x o' name l h Hx Hl Hh.
  destruct (Forall2_lookup_r _ _ _ _ _ H Hx) as (o & Ho & [E Hk]).
  rewrite E in Hl. destruct (Hw x o name l h Ho Hl Hh) as (cb & Hcb & Hok & Hfr).
  exists cb. rewrite E. split; [done|]. split; [|done].
  assert (forall r, is_model st r -> is_model st' r) as Hm.
  { intros r [m Hr]. destruct (Forall2_lookup_l _ _ _ _ _ H Hr) as (o2 & Ho2 & [_ K]).
    destruct o2; try done. by eexists. }
  assert (forall r, is_collection st r -> is_collection st' r) as Hc.
  { intros r [c Hr]. destruct (Forall2_lookup_l _ _ _ _ _ H Hr) as (o2 & Ho2 & [_ K]).
    destruct o2; try done. by eexists. }
  destruct cb as [t p|t m|t|id]; simpl in *; [| | |done].
  - destruct Hok as (? & ? & ? & ?). auto.
  - destruct Hok as (? & ? & ? & ?). auto.
  - destruct Hok as (? & ? & ?). auto.
Qed.


(** With acyclic wiring a cascade returns, changes nothing of rank at least
    that of its emitter, and leaves the wiring as it is. *)
Lemma trigger_total rank fuel x name st :
  wired rank st -> name <> "change:pk" -> is_Some (heap st !! x) ->
  (rank x < fuel)%nat ->
  exists st' t,
    Events_trigger fuel x name st = Ok tt st' /\
    evolves st st' /\ wired rank st' /\
    log st' = log st ++ Emitted x name :: t /\
    (forall r, (rank x <= rank r)%nat -> heap st' !! r = heap st !! r) /\
    (forall r, (rank x < rank r)%nat -> silent r (Emitted x name :: t)).
Proof.
  intros Hw Hname Hx Hrank.
  destruct (trigger_returns rank fuel x name st Hw Hname Hx Hrank) as (st' & Hrun).
  pose proof (trigger_evolves _ _ _ _ _ Hrun) as E.
  destruct (trigger_emits _ _ _ _ _ Hrun) as (t & Ht).
  exists st', t. split; [done|]. split; [done|].
  split; [by eapply wired_evolves|]. split; [done|].
  split.
  - intros r Hr. destruct (trigger_frame st x r fuel name st' Hrun) as [Hh _].
    apply Hh. intros Htc. pose proof (wired_tc _ _ _ _ Hw Htc). lia.
  - intros r Hr.
    destruct (trigger_frame st x r fuel name st' Hrun) as [_ Hl].
    destruct Hl as (t' & Ht' & Hs).
    { intros Hrtc. pose proof (wired_rtc _ _ _ _ Hw Hrtc). lia. }
    rewrite Ht in Ht'. by apply app_inv_head in Ht' as <-.
Qed.

(** ** [on] and [off] *)

(** [new Events()] *)
Definition Events_new : M ref := alloc (OEvents Events.new).

(** The empty heap. *)
Definition init : state := mkState [] [].

Lemma Events_on_run this name func st o :
  heap st !! this = Some o ->
  Events_on this name func st
  = Ok (S (Events.eventIndex (ev_of o)))
      (set_obj this (with_ev (snd (Events.on name func (ev_of o))) o) st).
Proof.
  intros Ho. unfold Events_on.
  erewrite bind_Ok_l; [|by apply get_events_run].
  erewrite bind_Ok_l; [|by apply put_events_run]. done.
Qed.

Lemma Events_off_run this name eventIndex st o :
  heap st !! this = Some o ->
  Events_off this name eventIndex st
  = Ok tt (set_obj this (with_ev (Events.off name eventIndex (ev_of o)) o) st).
Proof.
  intros Ho. unfold Events_off.
  erewrite bind_Ok_l; [|by apply get_events_run]. by apply put_events_run.
Qed.

Lemma with_ev_id o : with_ev (ev_of o) o = o.
Proof. by destruct o as [e|m|c]; [|destruct m|destruct c]. Qed.

Lemma ev_of_with_ev e o : ev_of (with_ev e o) = e.
Proof. by destruct o. Qed.

Lemma set_obj_id r o st : heap st !! r = Some o -> set_obj r o st = st.
Proof.
  intros H. unfold set_obj. rewrite list_insert_id by done. by destruct st.
Qed.

(** [off] under a name that has no subscription list changes nothing. *)
Lemma Events_off_absent_name this name eventIndex st o :
  heap st !! this = Some o -> Events.map (ev_of o) !! name = None ->
  Events_off this name eventIndex st = Ok tt st.
Proof.
  intros Ho Hname. erewrite Events_off_run by done.
  unfold Events.off. rewrite Hname, with_ev_id. by rewrite set_obj_id.
Qed.

(** [off] with a handle that is not listed under the name drops the last
    subscriber of the name, and the callback of the handle wherever it is
    listed. *)
Lemma Events_off_absent_handle name eventIndex e evts :
  Events.map e !! name = Some evts -> eventIndex ∉ evts ->
  Events.off name eventIndex e
  = Events.mk (Events.eventIndex e)
      (<[name := take (length evts - 1) evts]> (Events.map e))
      (delete eventIndex (Events.events e)).
Proof.
  intros Hname Hh. unfold Events.off. rewrite Hname. by rewrite splice_absent.
Qed.

(** One bus, one observer on ['foo']. *)
Definition bus_foo : M ref :=
  let* b := Events_new in
  let* _ := Events_on b "foo" (Spy 1) in
  ret b.

(** One bus, an observer on ['foo'] and one on ['bar']; the handle of the
    second is returned. *)
Definition bus_foo_bar : M (ref * nat) :=
  let* b := Events_new in
  let* _ := Events_on b "foo" (Spy 1) in
  let* h := Events_on b "bar" (Spy 2) in
  ret (b, h).

Definition log_of {A} (o : outcome A) : option (list entry) :=
  match o with
  | Ok _ st => Some (log st)
  | _ => None
  end.

(** C7 (the code departs from the claim): [off(name, handle)] with a handle
    that was never registered under [name] is not a no-op when [name] has
    subscribers.  On a bus with one observer on ['foo'], [trigger('foo')]
    calls the observer; after [off('foo', 7)], with [7] a handle that was
    never issued, [trigger('foo')] calls nobody.  And after
    [off('foo', h)] with [h] the handle of an observer on ['bar'],
    [trigger('bar')] raises a [TypeError]. *)
Theorem C7_off_unknown_handle_unsubscribes_another :
  log_of ((let* b := bus_foo in Events_trigger 1 b "foo") init)
  = Some [Emitted 0 "foo"; Called 1] /\
  log_of ((let* b := bus_foo in
           Events_off b "foo" 7 >> Events_trigger 1 b "foo") init)
  = Some [Emitted 0 "foo"] /\
  (let* bh := bus_foo_bar in
   Events_off (fst bh) "foo" (snd bh) >> Events_trigger 1 (fst bh) "bar") init
  = Err TypeError.
Proof. repeat split; vm_compute; reflexivity. Qed.

(** ** [persist] *)

(** The [pk] a member shows, when the member is a model. *)
Definition member_pk (st : state) (v : value) : option value :=
  match v with
  | VRef r =>
      match heap st !! r with
      | Some (OModel m) => Some (Model_get m "pk")
      | _ => None
      end
  | _ => None
  end.

Lemma member_pk_run st v pk : member_pk st v = Some pk -> pk_of v st = Ok pk st.
Proof.
  destruct v as [| | |r]; try done. simpl.
  destruct (heap st !! r) as [[|m|]|] eqn:Hr; try done.
  intros [= <-]. by apply pk_of_run.
Qed.

Lemma pk_of_member_pk st v pk st' :
  pk_of v st = Ok pk st' -> member_pk st v = Some pk /\ st' = st.
Proof. intros H. inv_M H. simpl. by rewrite H. Qed.

Lemma member_pk_set_collection st this c v :
  is_collection st this ->
  member_pk (set_obj this (OCollection c) st) v = member_pk st v.
Proof.
  intros [c0 Hc]. destruct v as [| | |r]; try done. simpl.
  destruct (decide (this = r)) as [->|Hne].
  - rewrite list_lookup_insert_eq by (by eapply lookup_lt_Some). by rewrite Hc.
  - by rewrite list_lookup_insert_ne.
Qed.

Lemma set_obj_set_obj r o1 o2 st :
  set_obj r o2 (set_obj r o1 st) = set_obj r o2 st.
Proof. unfold set_obj. simpl. by rewrite list_insert_insert_eq. Qed.

Lemma persist_loop this : forall l pks st c,
  heap st !! this = Some (OCollection c) ->
  Forall2 (fun v pk => member_pk st v = Some pk) l pks ->
  forEach l (fun model =>
    let* pk := pk_of model in
    modify_collection this (fun c =>
      Collection.with_persisted (Collection.persisted c ++ [pk]) c)) st
  = Ok tt
      (set_obj this
         (OCollection (Collection.with_persisted (Collection.persisted c ++ pks) c))
         st).
Proof.
  induction l as [|v l IH]; intros pks st c Hc H; simpl.
  - apply Forall2_nil_inv_l in H as ->.
    unfold ret. f_equal. rewrite app_nil_r. unfold set_obj.
    rewrite list_insert_id; [by destruct st|]. rewrite Hc. by destruct c.
  - apply Forall2_cons_inv_l in H as (pk & pks' & Hv & H & ->).
    erewrite bind_Ok_l; cycle 1.
    { erewrite bind_Ok_l; [|by apply member_pk_run].
      by apply modify_collection_run. }
    erewrite (IH pks'); cycle 1.
    { apply lookup_set_obj_eq. eauto. }
    { eapply Forall2_impl; [done|]. intros v' pk' Hv'.
      rewrite member_pk_set_collection; [done|by eexists]. }
    rewrite set_obj_set_obj. destruct c; simpl. by rewrite <- app_assoc.
Qed.

Lemma Model_persist_dirty rank fuel st this m :
  wired rank st -> (rank this < fuel)%nat ->
  heap st !! this = Some (OModel m) -> Model.clean m = false ->
  exists st1 t,
    Model_persist fuel this st = Ok true st1 /\
    heap st1 !! this
    = Some (OModel (Model.with_persisted (Model.fields m ∪ Model.persisted m)
                      (Model.with_clean true m))) /\
    (forall r, r <> this -> (rank this <= rank r)%nat ->
               heap st1 !! r = heap st !! r) /\
    same_shape st st1 /\ wired rank st1 /\
    log st1 = log st ++ Emitted this "persist" :: t /\
    (forall r, (rank this < rank r)%nat -> silent r (Emitted this "persist" :: t)).
Proof.
  intros Hw Hrank Hm Hdirty. unfold Model_persist.
  erewrite bind_Ok_l; [|by apply get_model_run]. rewrite Hdirty.
  erewrite bind_Ok_l; [|by apply modify_model_run].
  set (m1 := Model.with_persisted _ _). set (st1 := set_obj this (OModel m1) st).
  assert (same_shape st st1) as Hshape.
  { eapply same_shape_set_obj; [done|]. by split. }
  destruct (trigger_total rank fuel this "persist" st1)
    as (st2 & t & Hrun & E & Hw2 & Hlog & Hframe & Hsilent); try done.
  { by eapply wired_shape. }
  { unfold st1. rewrite lookup_set_obj_eq; eauto. }
  erewrite bind_Ok_l; [|done]. exists st2, t. split; [done|]. split.
  { rewrite Hframe by lia. apply lookup_set_obj_eq. eauto. }
  split.
  { intros r Hne Hr. rewrite Hframe by done. by apply lookup_set_obj_ne. }
  split.
  { eapply Forall2_trans; [|exact Hshape|exact (evolves_shape _ _ E)].
    intros o1 o2 o3 [E1 K1] [E2 K2]. split; [congruence|].
    by destruct o1, o2, o3. }
  done.
Qed.

Lemma Model_persist_clean fuel st this m :
  heap st !! this = Some (OModel m) -> Model.clean m = true ->
  Model_persist fuel this st = Ok false st.
Proof.
  intros Hm Hclean. unfold Model_persist.
  erewrite bind_Ok_l; [|by apply get_model_run]. by rewrite Hclean.
Qed.

Lemma Collection_persist_dirty rank fuel st this c pks :
  wired rank st -> (rank this < fuel)%nat ->
  heap st !! this = Some (OCollection c) -> Collection.clean c = false ->
  Forall2 (fun v pk => member_pk st v = Some pk) (Collection.models c) pks ->
  exists st1 t,
    Collection_persist fuel this st = Ok true st1 /\
    heap st1 !! this
    = Some (OCollection (Collection.with_persisted pks
                           (Collection.with_clean true c))) /\
    (forall r, r <> this -> (rank this <= rank r)%nat ->
               heap st1 !! r = heap st !! r) /\
    same_shape st st1 /\ wired rank st1 /\
    log st1 = log st ++ Emitted this "persist" :: t /\
    (forall r, (rank this < rank r)%nat -> silent r (Emitted this "persist" :: t)).
Proof.
  intros Hw Hrank Hc Hdirty Hpks. unfold Collection_persist.
  erewrite bind_Ok_l; [|by apply get_collection_run]. rewrite Hdirty.
  erewrite bind_Ok_l; [|by apply modify_collection_run].
  set (c0 := Collection.with_persisted [] (Collection.with_clean true c)).
  set (st0 := set_obj this (OCollection c0) st).
  erewrite bind_Ok_l; cycle 1.
  { apply (persist_loop this (Collection.models c) pks st0 c0).
    - apply lookup_set_obj_eq. eauto.
    - eapply Forall2_impl; [done|]. intros v pk Hv. subst st0.
      rewrite member_pk_set_collection; [done|by eexists]. }
  subst st0. rewrite set_obj_set_obj. simpl.
  set (c1 := Collection.with_persisted pks c0).
  set (st1 := set_obj this (OCollection c1) st).
  assert (same_shape st st1) as Hshape.
  { eapply same_shape_set_obj; [done|]. by split. }
  destruct (trigger_total rank fuel this "persist" st1)
    as (st2 & t & Hrun & E & Hw2 & Hlog & Hframe & Hsilent); try done.
  { by eapply wired_shape. }
  { unfold st1. rewrite lookup_set_obj_eq; eauto. }
  erewrite bind_Ok_l; [|done]. exists st2, t. split; [done|]. split.
  { rewrite Hframe by lia. unfold st1. rewrite lookup_set_obj_eq by eauto.
    by destruct c. }
  split.
  { intros r Hne Hr. rewrite Hframe by done. by apply lookup_set_obj_ne. }
  split.
  { eapply Forall2_trans; [|exact Hshape|exact (evolves_shape _ _ E)].
    intros o1 o2 o3 [E1 K1] [E2 K2]. split; [congruence|].
    by destruct o1, o2, o3. }
  done.
Qed.

Lemma Collection_persist_clean fuel st this c :
  heap st !! this = Some (OCollection c) -> Collection.clean c = true ->
  Collection_persist fuel this st = Ok false st.
Proof.
  intros Hc Hclean. unfold Collection_persist.
  erewrite bind_Ok_l; [|by apply get_collection_run]. by rewrite Hclean.
Qed.

(** C4: [persist()] on a dirty model or collection returns [true], copies
    the current state into the snapshot (each field's value for a model, the
    members' pks in order for a collection), clears the dirty flag and emits
    ['persist']; a second [persist()] right after it returns [false] and
    leaves the whole state, log included, as it is. *)
Theorem C4_persist_twice rank fuel st this :
  wired rank st -> (rank this < fuel)%nat ->
  (forall m,
      heap st !! this = Some (OModel m) -> Model.clean m = false ->
      exists st1 m1 t,
        Model_persist fuel this st = Ok true st1 /\
        heap st1 !! this = Some (OModel m1) /\
        Model.clean m1 = true /\
        Model.fields m1 = Model.fields m /\
        (forall k v, Model.fields m !! k = Some v ->
                     Model.persisted m1 !! k = Some v) /\
        log st1 = log st ++ Emitted this "persist" :: t /\
        Model_persist fuel this st1 = Ok false st1) /\
  (forall c,
      heap st !! this = Some (OCollection c) -> Collection.clean c = false ->
      Forall (fun v => is_Some (member_pk st v)) (Collection.models c) ->
      exists st1 c1 t,
        Collection_persist fuel this st = Ok true st1 /\
        heap st1 !! this = Some (OCollection c1) /\
        Collection.clean c1 = true /\
        Collection.models c1 = Collection.models c /\
        Forall2 (fun v pk => member_pk st v = Some pk)
          (Collection.models c) (Collection.persisted c1) /\
        log st1 = log st ++ Emitted this "persist" :: t /\
        Collection_persist fuel this st1 = Ok false st1).
Proof.
  intros Hw Hrank. split.
  - intros m Hm Hdirty.
    destruct (Model_persist_dirty rank fuel st this m)
      as (st1 & t & Hrun & Hm1 & _ & _ & _ & Hlog & _); try done.
    eexists st1, _, t. split; [done|]. split; [done|].
    split; [done|]. split; [done|]. split.
    { intros k v Hk. simpl. by apply lookup_union_Some_l. }
    split; [done|]. by eapply Model_persist_clean.
  - intros c Hc Hdirty Hmembers.
    assert (exists pks, Forall2 (fun v pk => member_pk st v = Some pk)
                          (Collection.models c) pks) as [pks Hpks].
    { clear -Hmembers. induction Hmembers as [|v l [pk Hv] _ [pks IH]].
      - by exists [].
      - exists (pk :: pks). by constructor. }
    destruct (Collection_persist_dirty rank fuel st this c pks)
      as (st1 & t & Hrun & Hc1 & _ & _ & _ & Hlog & _); try done.
    eexists st1, _, t. split; [done|]. split; [done|].
    split; [done|]. split; [done|]. split; [done|].
    split; [done|]. by eapply Collection_persist_clean.
Qed.

(** ** Checking the wiring of a given heap *)

Definition is_modelb (st : state) (r : ref) : bool :=
  match heap st !! r with Some (OModel _) => true | _ => false end.

Definition is_collectionb (st : state) (r : ref) : bool :=
  match heap st !! r with Some (OCollection _) => true | _ => false end.

Definition cb_okb (rank : ref -> nat) (st : state) (x : ref) (name : string)
    (cb : callback) : bool :=
  match cb with
  | Spy _ => true
  | ModelNested t p =>
      bool_decide (name = "change") && bool_decide (p <> "pk") &&
      is_modelb st t && (rank t <? rank x)%nat
  | CollChange t m =>
      bool_decide (name = "change") && is_collectionb st t && is_modelb st m &&
      (rank t <? rank x)%nat
  | CollChangePK t =>
      bool_decide (name = "change:pk") && is_collectionb st t &&
      (rank t <? rank x)%nat
  end.

Definition handle_okb (rank : ref -> nat) (st : state) (x : ref) (o : obj)
    (name : string) (h : nat) : bool :=
  match Events.events (ev_of o) !! h with
  | Some cb =>
      cb_okb rank st x name cb && (h <=? Events.eventIndex (ev_of o))%nat
  | None => false
  end.

Definition obj_okb (rank : ref -> nat) (st : state) (x : ref) (o : obj) : bool :=
  forallb (fun nl => forallb (handle_okb rank st x o (fst nl)) (snd nl))
    (map_to_list (Events.map (ev_of o))).

Fixpoint wired_from (rank : ref -> nat) (st : state) (x : ref) (os : list obj)
  : bool :=
  match os with
  | [] => true
  | o :: os' => obj_okb rank st x o && wired_from rank st (S x) os'
  end.

Definition wiredb (rank : ref -> nat) (st : state) : bool :=
  wired_from rank st 0 (heap st).

Lemma is_modelb_true st r : is_modelb st r = true -> is_model st r.
Proof.
  unfold is_modelb, is_model. destruct (heap st !! r) as [[|m|]|]; try done. eauto.
Qed.

Lemma is_collectionb_true st r : is_collectionb st r = true -> is_collection st r.
Proof.
  unfold is_collectionb, is_collection.
  destruct (heap st !! r) as [[| |c]|]; try done. eauto.
Qed.

Lemma cb_okb_true rank st x name cb :
  cb_okb rank st x name cb = true -> cb_ok rank st x name cb.
Proof.
  destruct cb as [t p|t m|t|id]; simpl; [| | |done];
    rewrite !andb_true_iff, ?bool_decide_eq_true, Nat.ltb_lt;
    intuition auto using is_modelb_true, is_collectionb_true.
Qed.

Lemma wired_from_lookup rank st : forall os x i o,
  wired_from rank st x os = true -> os !! i = Some o ->
  obj_okb rank st (x + i) o = true.
Proof.
  induction os as [|o' os IH]; intros x i o H Hi; [done|].
  simpl in H. apply andb_true_iff in H as [Ho H].
  destruct i as [|i]; simpl in Hi.
  - injection Hi as <-. by rewrite Nat.add_0_r.
  - rewrite <- Nat.add_succ_comm. by apply IH.
Qed.

Lemma wiredb_sound rank st : wiredb rank st = true -> wired rank st.
Proof.
  intros H x o name l h Hx Hl Hh.
  pose proof (wired_from_lookup rank st _ 0 x o H Hx) as Ho. simpl in Ho.
  unfold obj_okb in Ho. rewrite forallb_forall in Ho.
  specialize (Ho (name, l)). simpl in Ho.
  rewrite forallb_forall in Ho. specialize (fun H1 => Ho H1 h).
  unfold handle_okb in Ho.
  destruct (Events.events (ev_of o) !! h) as [cb|] eqn:Hcb.
  - exists cb. split; [done|].
    rewrite andb_true_iff, Nat.leb_le in Ho.
    destruct Ho as [Hok Hfr].
    + apply list_elem_of_In. by apply elem_of_map_to_list.
    + by apply list_elem_of_In.
    + split; [by apply cb_okb_true|done].
  - exfalso. assert (false = true) as Hf; [|done]. apply Ho.
    + apply list_elem_of_In. by apply elem_of_map_to_list.
    + by apply list_elem_of_In.
Qed.

(** ** Fixtures, after the test-suite *)

Definition state_of {A} (o : outcome A) : state :=
  match o with
  | Ok _ st => st
  | _ => init
  end.

(** [new FooModel(pk)]: fields [bar] and [qux = 5]. *)
Definition FooModel_new (fuel : nat) (pk : string) : M ref :=
  let* this := Model_new fuel ["bar"; "qux"] (VStr pk) in
  Model_set fuel this "qux" (VNum 5) >>
  ret this.

(** [new CollectedModel(pk)]: one field, [foos]. *)
Definition CollectedModel_new (fuel : nat) (pk : string) : M ref :=
  Model_new fuel ["foos"] (VStr pk).

(** A collection at address 0 with the members 1, 2, 3, 4 whose pks are
    ["1"], ["2"], ["3"], ["4"]. *)
Definition four_members : M ref :=
  let* c := Collection_new in
  let* m1 := FooModel_new 1 "1" in
  let* m2 := FooModel_new 1 "2" in
  let* m3 := FooModel_new 1 "3" in
  let* m4 := FooModel_new 1 "4" in
  Collection_add 1 c (VRef m1) >>
  Collection_add 1 c (VRef m2) >>
  Collection_add 1 c (VRef m3) >>
  Collection_add 1 c (VRef m4) >>
  ret c.

Definition st_four : state := Eval vm_compute in state_of (four_members init).

(** Collections below models. *)
Definition rank_four (r : ref) : nat := if (r =? 0)%nat then 0 else 1.

(** A model, alone, at address 0. *)
Definition st_foo : state := Eval vm_compute in state_of (FooModel_new 1 "1" init).

Definition the_model (st : state) (r : ref) : Model.t :=
  match heap st !! r with
  | Some (OModel m) => m
  | _ => Model.mk Events.new [] ∅ ∅ ∅ false
  end.

Definition the_collection (st : state) (r : ref) : Collection.t :=
  match heap st !! r with
  | Some (OCollection c) => c
  | _ => Collection.new
  end.

Lemma C4_persist_twice_witness :
  (exists st1, Model_persist 1 0 st_foo = Ok true st1 /\
               Model_persist 1 0 st1 = Ok false st1) /\
  (exists st1, Collection_persist 1 0 st_four = Ok true st1 /\
               Collection.persisted (the_collection st1 0)
               = [VStr "1"; VStr "2"; VStr "3"; VStr "4"] /\
               Collection_persist 1 0 st1 = Ok false st1).
Proof.
  split.
  - destruct (C4_persist_twice (fun _ => 0%nat) 1 st_foo 0) as [HM _].
    { apply wiredb_sound. vm_compute. reflexivity. }
    { vm_compute. lia. }
    destruct (HM (the_model st_foo 0)) as (st1 & m1 & t & H1 & _ & _ & _ & _ & _ & H2).
    { vm_compute. reflexivity. }
    { vm_compute. reflexivity. }
    exists st1. split; assumption.
  - destruct (C4_persist_twice rank_four 1 st_four 0) as [_ HC].
    { apply wiredb_sound. vm_compute. reflexivity. }
    { vm_compute. lia. }
    destruct (HC (the_collection st_four 0))
      as (st1 & c1 & t & H1 & Hc1 & _ & _ & Hp & _ & H2).
    { vm_compute. reflexivity. }
    { vm_compute. reflexivity. }
    { repeat constructor; vm_compute; eauto. }
    exists st1. split; [assumption|]. split; [|assumption].
    unfold the_collection. rewrite Hc1.
    assert (Collection.models (the_collection st_four 0)
            = [VRef 1; VRef 2; VRef 3; VRef 4]) as Hms
      by (vm_compute; reflexivity).
    rewrite Hms in Hp. clear Hms.
    apply Forall2_cons_inv_l in Hp as (p1 & l1 & E1 & Hp & ->).
    apply Forall2_cons_inv_l in Hp as (p2 & l2 & E2 & Hp & ->).
    apply Forall2_cons_inv_l in Hp as (p3 & l3 & E3 & Hp & ->).
    apply Forall2_cons_inv_l in Hp as (p4 & l4 & E4 & Hp & ->).
    apply Forall2_nil_inv_l in Hp as ->.
    vm_compute in E1, E2, E3, E4.
    injection E1 as <-. injection E2 as <-. injection E3 as <-.
    injection E4 as <-. reflexivity.
Defined.

(** ** Subscribing keeps the wiring acyclic *)

Definition same_kind (o o' : obj) : Prop :=
  match o, o' with
  | OEvents _, OEvents _ | OModel _, OModel _ | OCollection _, OCollection _ =>
      True
  | _, _ => False
  end.

Lemma same_kind_with_ev e o : same_kind o (with_ev e o).
Proof. by destruct o. Qed.

Lemma is_model_set_obj st r o o' x :
  heap st !! r = Some o -> same_kind o o' ->
  is_model st x -> is_model (set_obj r o' st) x.
Proof.
  intros Hr Hk [m Hm]. destruct (decide (r = x)) as [->|Hne].
  - rewrite Hr in Hm. injection Hm as ->. destruct o'; try done.
    eexists. apply lookup_set_obj_eq. eauto.
  - exists m. by rewrite lookup_set_obj_ne.
Qed.

Lemma is_collection_set_obj st r o o' x :
  heap st !! r = Some o -> same_kind o o' ->
  is_collection st x -> is_collection (set_obj r o' st) x.
Proof.
  intros Hr Hk [c Hc]. destruct (decide (r = x)) as [->|Hne].
  - rewrite Hr in Hc. injection Hc as ->. destruct o'; try done.
    eexists. apply lookup_set_obj_eq. eauto.
  - exists c. by rewrite lookup_set_obj_ne.
Qed.

Lemma cb_ok_set_obj rank st r o o' x name cb :
  heap st !! r = Some o -> same_kind o o' ->
  cb_ok rank st x name cb -> cb_ok rank (set_obj r o' st) x name cb.
Proof.
  intros Hr Hk. destruct cb as [t p|t m|t|id]; simpl; [| | |done].
  - intros (? & ? & ? & ?). eauto using is_model_set_obj.
  - intros (? & ? & ? & ?).
    eauto 6 using is_model_set_obj, is_collection_set_obj.
  - intros (? & ? & ?). eauto using is_collection_set_obj.
Qed.

(** After [x.on(name, cb)] the wiring is acyclic if [cb] respects the
    ranks. *)
Lemma wired_on rank st x o name cb :
  wired rank st -> heap st !! x = Some o -> cb_ok rank st x name cb ->
  wired rank (set_obj x (with_ev (snd (Events.on name cb (ev_of o))) o) st).
Proof.
  intros Hw Hx Hcb y o' name' l h Hy Hl Hh.
  set (o1 := with_ev _ o) in *.
  assert (same_kind o o1) as Hk by apply same_kind_with_ev.
  destruct (decide (x = y)) as [<-|Hne].
  - rewrite lookup_set_obj_eq in Hy by eauto. injection Hy as <-.
    unfold o1 in *. rewrite ev_of_with_ev in *. simpl in *.
    destruct (decide (name = name')) as [<-|Hn].
    + rewrite lookup_insert_eq in Hl. injection Hl as <-.
      apply elem_of_app in Hh as [Hh|Hh%list_elem_of_singleton].
      * destruct (Events.map (ev_of o) !! name) as [l0|] eqn:El0;
          [|by apply not_elem_of_nil in Hh].
        destruct (Hw x o name l0 h Hx El0 Hh) as (cb' & Hcb' & Hok & Hfr).
        exists cb'. rewrite lookup_insert_ne by lia.
        split; [done|]. split; [by eapply cb_ok_set_obj|lia].
      * subst h. exists cb. rewrite lookup_insert_eq.
        split; [done|]. split; [by eapply cb_ok_set_obj|lia].
    + rewrite lookup_insert_ne in Hl by done.
      destruct (Hw x o name' l h Hx Hl Hh) as (cb' & Hcb' & Hok & Hfr).
      exists cb'. rewrite lookup_insert_ne by lia.
      split; [done|]. split; [by eapply cb_ok_set_obj|lia].
  - rewrite lookup_set_obj_ne in Hy by done.
    destruct (Hw y o' name' l h Hy Hl Hh) as (cb' & Hcb' & Hok & Hfr).
    exists cb'. split; [done|]. split; [by eapply cb_ok_set_obj|done].
Qed.

(** Changing anything but the subscription tables of an object keeps the
    wiring. *)
Lemma wired_set_obj rank st r o o' :
  wired rank st -> heap st !! r = Some o -> obj_shape o o' ->
  wired rank (set_obj r o' st).
Proof.
  intros Hw Hr Ho. eapply wired_shape; [|done]. by eapply same_shape_set_obj.
Qed.

(** ** The parts of [set] *)

Lemma unbind_current_plain this property st m :
  heap st !! this = Some (OModel m) ->
  instanceof_Events (Model_get m property) = None ->
  unbind_current this property st = Ok tt st.
Proof.
  intros Hm Hcur. unfold unbind_current.
  erewrite bind_Ok_l; [|by apply get_model_run]. by rewrite Hcur.
Qed.

Lemma bind_value_plain this property v st :
  instanceof_Events v = None -> bind_value this property v st = Ok tt st.
Proof. intros Hv. unfold bind_value. by rewrite Hv. Qed.

Lemma bind_value_entity this property new st m es o :
  heap st !! this = Some (OModel m) ->
  Model.mappedEvents m !! property = Some es ->
  heap st !! new = Some o -> this <> new ->
  bind_value this property (VRef new) st
  = Ok tt
      (set_obj this
         (OModel (Model.with_mappedEvents
                    (<[property := es ++ [S (Events.eventIndex (ev_of o))]]>
                       (Model.mappedEvents m)) m))
         (set_obj new
            (with_ev (snd (Events.on "change" (ModelNested this property)
                             (ev_of o))) o) st)).
Proof.
  intros Hm Hes Ho Hne. unfold bind_value. simpl.
  erewrite bind_Ok_l; [|by apply get_model_run]. rewrite Hes.
  erewrite bind_Ok_l; [|by apply Events_on_run].
  erewrite modify_model_run; [|by rewrite lookup_set_obj_ne].
  by rewrite Hes.
Qed.


(** [set] once the subscriptions are settled: store, mark dirty, emit. *)
Lemma store_and_emit rank fuel st this property v m :
  wired rank st -> (rank this < fuel)%nat -> property <> "pk" ->
  heap st !! this = Some (OModel m) ->
  exists st' t1 t2,
    (store_value this property v >>
     Events_trigger fuel this "change" >>
     Events_trigger fuel this ("change:" +:+ property)) st = Ok tt st' /\
    heap st' !! this
    = Some (OModel (Model.with_clean false
                      (Model.with_fields (<[property := v]> (Model.fields m)) m))) /\
    (forall r, r <> this -> (rank this <= rank r)%nat ->
               heap st' !! r = heap st !! r) /\
    same_shape st st' /\ wired rank st' /\
    log st' = log st ++ Emitted this "change" :: t1 ++
                        Emitted this ("change:" +:+ property) :: t2.
Proof.
  intros Hw Hrank Hp Hm. unfold store_value.
  erewrite bind_Ok_l; [|by apply modify_model_run].
  set (m1 := Model.with_clean _ _). set (st1 := set_obj this (OModel m1) st).
  assert (same_shape st st1) as Hshape.
  { eapply same_shape_set_obj; [done|]. by split. }
  assert (heap st1 !! this = Some (OModel m1)) as Hm1.
  { apply lookup_set_obj_eq. eauto. }
  destruct (trigger_total rank fuel this "change" st1)
    as (st2 & t1 & Hrun1 & E1 & Hw2 & Hlog1 & Hframe1 & _);
    [by eapply wired_shape|done|by eauto|done|].
  erewrite bind_Ok_l; [|done].
  destruct (trigger_total rank fuel this ("change:" +:+ property) st2)
    as (st3 & t2 & Hrun2 & E2 & Hw3 & Hlog2 & Hframe2 & _);
    [done|by apply change_field_not_pk| |done|].
  { rewrite Hframe1 by lia. eauto. }
  exists st3, t1, t2. split; [done|]. split.
  { by rewrite Hframe2, Hframe1 by lia. }
  split.
  { intros r Hne Hr. rewrite Hframe2, Hframe1 by lia.
    by apply lookup_set_obj_ne. }
  split.
  { eapply Forall2_trans; [|exact Hshape|].
    2:{ eapply evolves_shape, evolves_trans; [exact E1|exact E2]. }
    intros o1 o2 o3 [Ea Ka] [Eb Kb]. split; [congruence|].
    by destruct o1, o2, o3. }
  split; [done|].
  rewrite Hlog2, Hlog1. simpl. by rewrite <- app_assoc.
Qed.

(** ** Fields that were never declared *)

Lemma lookup_defaults {A} (x : A) (names : list string) (p : string) :
  is_Some ((list_to_map ((fun n => (n, x)) <$> names) : gmap string A) !! p)
  <-> p ∈ names.
Proof.
  rewrite <- elem_of_dom, dom_list_to_map_L.
  rewrite <- list_fmap_compose, elem_of_list_to_set, list_elem_of_fmap.
  split; [by intros (y & -> & Hy)|]. intros Hp. by exists p.
Qed.

Lemma bind_value_keeps this property v st st' m :
  bind_value this property v st = Ok tt st' ->
  heap st !! this = Some (OModel m) ->
  exists m', heap st' !! this = Some (OModel m') /\
             Model.fieldNames m' = Model.fieldNames m /\
             forall q, is_Some (Model.mappedEvents m' !! q) <->
                       is_Some (Model.mappedEvents m !! q).
Proof.
  unfold bind_value. intros Hbind Hm.
  destruct (instanceof_Events v) as [new|]; [|inv_M Hbind; by exists m].
  apply bind_Ok in Hbind as (m0 & st1 & Hget & Hbind). inv_M Hget.
  assert (m0 = m) as -> by congruence.
  destruct (Model.mappedEvents m !! property) as [es|] eqn:Hes; [|done].
  apply bind_Ok in Hbind as (h & st1 & Hon & Hbind).
  unfold Events_on in Hon. inv_M Hon. inv_M Hbind.
  eexists. split; [apply lookup_set_obj_eq; eauto|].
  assert (Model.fieldNames m0 = Model.fieldNames m /\
          Model.mappedEvents m0 = Model.mappedEvents m) as [Hfm Hmm].
  { destruct (decide (new = this)) as [->|Hne].
    - rewrite lookup_set_obj_eq in Hbind by eauto.
      assert (o = OModel m) as -> by congruence. simpl in Hbind.
      by injection Hbind as <-.
    - rewrite lookup_set_obj_ne in Hbind by done.
      assert (m0 = m) as -> by congruence. done. }
  split; [done|]. intros q. simpl. rewrite Hmm.
  destruct (decide (property = q)) as [->|Hq].
  - rewrite lookup_insert_eq. split; eauto.
  - by rewrite lookup_insert_ne.
Qed.

(** The constructor gives a subscription list to the declared fields and to
    no other name; [set] never adds one. *)
Lemma Model_new_declared fuel declared pk st this st' :
  Model_new fuel declared pk st = Ok this st' ->
  exists m, heap st' !! this = Some (OModel m) /\
            Model.fieldNames m = "pk" :: declared /\
            forall p, is_Some (Model.mappedEvents m !! p) <-> p ∈ "pk" :: declared.
Proof.
  unfold Model_new, Model_set. intros Hrun.
  apply bind_Ok in Hrun as (r & st1 & Halloc & Hrun).
  unfold alloc in Halloc. injection Halloc as <- <-.
  set (fieldNames := "pk" :: declared) in *.
  set (m0 := Model.mk _ _ _ _ _ _) in Hrun.
  set (st1 := mkState (heap st ++ [OModel m0]) (log st)) in Hrun.
  assert (heap st1 !! length (heap st) = Some (OModel m0)) as Hm0.
  { simpl. by rewrite list_lookup_middle. }
  assert (forall p, is_Some (Model.mappedEvents m0 !! p) <-> p ∈ fieldNames) as Hdom.
  { intros p. apply (lookup_defaults [] fieldNames p). }
  apply bind_Ok in Hrun as (u & st2 & Hset & Hrun); destruct u.
  inv_M Hrun.
  apply bind_Ok in Hset as (u & st3 & Hunbind & Hset); destruct u.
  erewrite unbind_current_plain in Hunbind; [|done|]; cycle 1.
  { unfold Model_get, m0. cbn [Model.fields]. by rewrite lookup_insert_eq. }
  inv_M Hunbind.
  apply bind_Ok in Hset as (u & st3 & Hbind & Hset); destruct u.
  destruct (bind_value_keeps _ _ _ _ _ _ Hbind Hm0) as (m1 & Hm1 & Hf1 & Hdom1).
  apply bind_Ok in Hset as (u & st4 & Hstore & Hset); destruct u.
  apply bind_Ok in Hset as (u & st5 & Ht1 & Ht2); destruct u.
  apply trigger_evolves in Ht1, Ht2.
  pose proof (evolves_trans _ _ _ Ht1 Ht2) as E. clear Ht1 Ht2.
  unfold store_value in Hstore. inv_M Hstore.
  assert (m = m1) as -> by congruence.
  match type of E with
  | evolves (set_obj ?r (OModel ?mm) _) _ =>
      destruct (evolves_model _ _ r mm E)
        as (m2 & Hm2 & _ & Hf2 & _ & Hme2 & _);
        [apply lookup_set_obj_eq; eauto|]
  end.
  exists m2. split; [done|]. split; [by rewrite Hf2|].
  intros p. rewrite Hme2. simpl. rewrite Hdom1. apply Hdom.
Qed.




(** ** Following a cascade to one of its subscribers *)

(** [subscribed st x name h cb]: in [st], handle [h] is listed under [name]
    on [x] and bound to [cb]. *)
Definition subscribed (st : state) (x : ref) (name : string) (h : nat)
    (cb : callback) : Prop :=
  exists o l,
    heap st !! x = Some o /\ Events.map (ev_of o) !! name = Some l /\ h ∈ l /\
    Events.events (ev_of o) !! h = Some cb.

Lemma subscribed_shape st st' x name h cb :
  same_shape st st' -> subscribed st x name h cb -> subscribed st' x name h cb.
Proof.
  intros H (o & l & Hx & Hl & Hh & Hcb).
  destruct (Forall2_lookup_l _ _ _ _ _ H Hx) as (o' & Ho' & [E _]).
  exists o', l. by rewrite E.
Qed.

Lemma subscribed_evolves st st' x name h cb :
  evolves st st' -> subscribed st x name h cb -> subscribed st' x name h cb.
Proof. intros H. apply subscribed_shape. by apply evolves_shape. Qed.

Lemma loop_reaches fuel x name h cb : forall n k st st' o (j : nat),
  forEach_live (subscribers x name) (invoke (Events_trigger fuel) x) k n st
  = Ok tt st' ->
  heap st !! x = Some o ->
  default [] (Events.map (ev_of o) !! name) !! j = Some h ->
  Events.events (ev_of o) !! h = Some cb ->
  (k <= j < k + n)%nat ->
  exists s1 s2,
    evolves st s1 /\ call (Events_trigger fuel) cb s1 = Ok tt s2 /\
    evolves s2 st'.
Proof.
  induction n as [|n IH]; intros k st st' o j Hrun Ho Hj Hcb Hk; [lia|].
  simpl in Hrun.
  apply bind_Ok in Hrun as (l & st1 & Hl & Hrun). inv_M Hl.
  assert (o0 = o) as -> by congruence.
  apply bind_Ok in Hrun as (u & st2 & Hstep & Hrun); destruct u.
  destruct (decide (k = j)) as [->|Hne].
  - rewrite Hj in Hstep. unfold invoke in Hstep. inv_M Hstep.
    assert (o0 = o) as -> by congruence. rewrite Hcb in Hstep.
    exists st, st2. split; [apply evolves_refl|]. split; [done|].
    by eapply loop_evolves.
  - assert (evolves st st2) as E.
    { destruct (default [] (Events.map (ev_of o) !! name) !! k) as [h'|];
        [|inv_M Hstep; apply evolves_refl].
      unfold invoke in Hstep. inv_M Hstep.
      destruct (Events.events (ev_of o0) !! h') as [cb'|]; [|done].
      by eapply call_evolves. }
    destruct (evolves_lookup _ _ _ _ E Ho) as (o2 & Ho2 & [E2 _]).
    destruct (IH (S k) st2 st' o2 j Hrun Ho2) as (s1 & s2 & E1 & Hcall & E3);
      [by rewrite E2|by rewrite E2|lia|].
    exists s1, s2. split; [by eapply evolves_trans|done].
Qed.

(** A cascade that returns has called every subscriber of its event. *)
Lemma trigger_reaches fuel x name h cb st st' :
  Events_trigger (S fuel) x name st = Ok tt st' ->
  subscribed st x name h cb ->
  exists s1 s2,
    evolves st s1 /\ call (Events_trigger fuel) cb s1 = Ok tt s2 /\
    evolves s2 st'.
Proof.
  simpl. unfold trigger_body. intros Hrun (o & l & Hx & Hl & Hh & Hcb).
  apply bind_Ok in Hrun as (u & st1 & H1 & Hrun); destruct u. inv_M H1.
  apply bind_Ok in Hrun as (l' & st1 & H1 & Hrun). inv_M H1.
  simpl in H1. assert (o0 = o) as -> by congruence.
  apply list_elem_of_lookup in Hh as [j Hj].
  destruct (loop_reaches fuel x name h cb _ _ _ _ o j Hrun)
    as (s1 & s2 & E1 & Hcall & E2); try done.
  - by rewrite Hl.
  - rewrite Hl. simpl. split; [lia|]. by eapply lookup_lt_Some.
  - exists s1, s2. split; [|done].
    eapply evolves_trans; [apply evolves_add_log|done].
Qed.

Definition clean_of (st : state) (r : ref) : option bool :=
  match heap st !! r with
  | Some (OModel m) => Some (Model.clean m)
  | Some (OCollection c) => Some (Collection.clean c)
  | _ => None
  end.

Lemma dirty_evolves st st' r :
  evolves st st' -> clean_of st r = Some false -> clean_of st' r = Some false.
Proof.
  unfold clean_of. intros E H.
  destruct (heap st !! r) as [[|m|c]|] eqn:Hr; try done.
  - destruct (evolves_model _ _ _ _ E Hr) as (m' & -> & _ & _ & _ & _ & _ & Hc).
    injection H as H. by rewrite Hc.
  - destruct (evolves_collection _ _ _ _ E Hr) as (c' & -> & _ & _ & Hc).
    injection H as H. by rewrite Hc.
Qed.

(** What the closure created by [Model.set] does when it is called. *)
Lemma nested_handler_effect fuel this property st st' :
  call (Events_trigger fuel) (ModelNested this property) st = Ok tt st' ->
  clean_of st' this = Some false /\
  exists t1 t2,
    log st' = log st ++ Emitted this "change" :: t1 ++
                        Emitted this ("change:" +:+ property) :: t2.
Proof.
  simpl. intros Hrun.
  apply bind_Ok in Hrun as (u & st1 & Hdirty & Hrun); destruct u.
  apply bind_Ok in Hrun as (u & st2 & Ht1 & Ht2); destruct u.
  inv_M Hdirty.
  pose proof (trigger_evolves _ _ _ _ _ Ht1) as E1.
  pose proof (trigger_evolves _ _ _ _ _ Ht2) as E2.
  destruct (trigger_emits _ _ _ _ _ Ht1) as (t1 & L1).
  destruct (trigger_emits _ _ _ _ _ Ht2) as (t2 & L2).
  split.
  - eapply dirty_evolves; [exact (evolves_trans _ _ _ E1 E2)|].
    unfold clean_of. by rewrite lookup_set_obj_eq by eauto.
  - exists t1, t2. rewrite L2, L1. simpl. by rewrite <- app_assoc.
Qed.

Lemma nested_handler_returns rank fuel this property st :
  wired rank st -> is_model st this -> property <> "pk" ->
  (rank this < fuel)%nat ->
  exists st', call (Events_trigger fuel) (ModelNested this property) st = Ok tt st'.
Proof.
  intros Hw [m Hm] Hp Hrank. simpl.
  erewrite bind_Ok_l; [|by apply modify_model_run].
  set (st1 := set_obj this _ st).
  assert (same_shape st st1) as Hshape.
  { eapply same_shape_set_obj; [done|]. by split. }
  destruct (trigger_total rank fuel this "change" st1)
    as (st2 & t1 & Hrun1 & E1 & Hw2 & _ & Hframe1 & _);
    [by eapply wired_shape|done| |done|].
  { unfold st1. rewrite lookup_set_obj_eq; eauto. }
  erewrite bind_Ok_l; [|done].
  destruct (trigger_total rank fuel this ("change:" +:+ property) st2)
    as (st3 & t2 & Hrun2 & _);
    [done|by apply change_field_not_pk| |done|].
  { rewrite Hframe1 by lia. unfold st1. rewrite lookup_set_obj_eq; eauto. }
  eauto.
Qed.

(** ** [add], up to its triggers *)

(** The subscription tables of a model after [add] bound its two closures. *)
Definition add_member_events (this member : ref) (e : Events.t) : Events.t :=
  snd (Events.on "change:pk" (CollChangePK this)
         (snd (Events.on "change" (CollChange this member) e))).

(** The collection after [add] stored the member and its index entry. *)
Definition add_index (pk : value) (change changePK : nat) (model : value)
    (c : Collection.t) : Collection.t :=
  Collection.with_clean false
    (Collection.with_modelMap
       (<[to_key pk := length (Collection.metas c)]> (Collection.modelMap c))
       (Collection.with_metas
          (Collection.metas c ++
           [ModelMeta.mk (length (Collection.models c)) change changePK])
          (Collection.with_models (Collection.models c ++ [model]) c))).

Definition added (this member : ref) (c : Collection.t) (m : Model.t)
    (st : state) : state :=
  let idx := Events.eventIndex (Model.super m) in
  set_obj this
    (OCollection (add_index (Model_get m "pk") (S idx) (S (S idx))
                    (VRef member) c))
    (set_obj member
       (OModel (Model.with_super
                  (add_member_events this member (Model.super m)) m))
       st).

Lemma set_obj_comm r r' o o' st :
  r <> r' -> set_obj r o (set_obj r' o' st) = set_obj r' o' (set_obj r o st).
Proof.
  intros Hne. unfold set_obj. simpl. f_equal. by apply list_insert_insert_ne.
Qed.

Lemma Collection_add_run fuel this member st c m :
  heap st !! this = Some (OCollection c) ->
  heap st !! member = Some (OModel m) ->
  Collection_add fuel this (VRef member) st
  = (Events_trigger fuel this "change" >> Events_trigger fuel this "append")
      (added this member c m st).
Proof.
  intros Hc Hm. assert (this <> member) as Hne by congruence.
  unfold Collection_add.
  erewrite bind_Ok_l; [|by apply get_collection_run].
  erewrite bind_Ok_l; [|by apply modify_collection_run].
  erewrite (bind_Ok_l (receiver _)); [|done].
  erewrite bind_Ok_l; cycle 1.
  { apply Events_on_run. by rewrite lookup_set_obj_ne. }
  erewrite bind_Ok_l; cycle 1.
  { apply Events_on_run. apply lookup_set_obj_eq.
    rewrite lookup_set_obj_ne by done. eauto. }
  rewrite set_obj_set_obj.
  erewrite bind_Ok_l; cycle 1.
  { apply pk_of_run. apply lookup_set_obj_eq.
    rewrite lookup_set_obj_ne by done. eauto. }
  erewrite bind_Ok_l; cycle 1.
  { apply modify_collection_run. rewrite lookup_set_obj_ne by done.
    apply lookup_set_obj_eq. eauto. }
  erewrite bind_Ok_l; cycle 1.
  { apply modify_collection_run. apply lookup_set_obj_eq.
    rewrite lookup_set_obj_ne by done. rewrite lookup_set_obj_eq; eauto. }
  rewrite set_obj_set_obj.
  rewrite (set_obj_comm this member), set_obj_set_obj by done.
  rewrite (set_obj_comm member this) by done.
  unfold added, add_index, add_member_events. by destruct c, m.
Qed.

Lemma wired_added rank st this member c m :
  wired rank st ->
  heap st !! this = Some (OCollection c) ->
  heap st !! member = Some (OModel m) ->
  (rank this < rank member)%nat ->
  wired rank (added this member c m st).
Proof.
  intros Hw Hc Hm Hrank. assert (this <> member) as Hne by congruence.
  unfold added.
  set (e1 := snd (Events.on "change" (CollChange this member) (Model.super m))).
  set (st1 := set_obj member (with_ev e1 (OModel m)) st).
  assert (wired rank st1) as Hw1.
  { apply (wired_on rank st member (OModel m) "change" (CollChange this member));
      [done|done|].
    simpl. split; [done|]. split; [by eexists|]. split; [by eexists|done]. }
  set (e2 := add_member_events this member (Model.super m)).
  set (st2 := set_obj member (OModel (Model.with_super e2 m)) st).
  assert (wired rank st2) as Hw2.
  { replace st2 with
      (set_obj member
         (with_ev (snd (Events.on "change:pk" (CollChangePK this)
                          (ev_of (with_ev e1 (OModel m)))))
            (with_ev e1 (OModel m))) st1).
    - apply (wired_on rank st1 member (with_ev e1 (OModel m)) "change:pk"
               (CollChangePK this)); [done|apply lookup_set_obj_eq; eauto|].
      simpl. split; [done|]. split; [|done].
      exists c. unfold st1. by rewrite lookup_set_obj_ne.
    - unfold st1. rewrite set_obj_set_obj. unfold st2, e2. by destruct m. }
  eapply wired_set_obj; [done| |].
  - unfold st2. by rewrite lookup_set_obj_ne.
  - by split.
Qed.

(** [add] of a model returns when the wiring is acyclic and stays so. *)
Lemma Collection_add_total rank fuel this member st c m :
  wired rank st ->
  heap st !! this = Some (OCollection c) ->
  heap st !! member = Some (OModel m) ->
  (rank this < rank member)%nat -> (rank this < fuel)%nat ->
  exists st' t1 t2,
    Collection_add fuel this (VRef member) st = Ok tt st' /\
    Events_trigger fuel this "change" (added this member c m st) <> Err TypeError /\
    wired rank st' /\
    evolves (added this member c m st) st' /\
    (forall r, (rank this <= rank r)%nat ->
               heap st' !! r = heap (added this member c m st) !! r) /\
    log st' = log st ++ Emitted this "change" :: t1 ++
                        Emitted this "append" :: t2 /\
    exists s1,
      Events_trigger fuel this "change" (added this member c m st) = Ok tt s1 /\
      log s1 = log st ++ Emitted this "change" :: t1 /\
      evolves s1 st'.
Proof.
  intros Hw Hc Hm Hrank Hfuel. assert (this <> member) as Hne by congruence.
  erewrite Collection_add_run by done.
  pose proof (wired_added rank st this member c m Hw Hc Hm Hrank) as Hwa.
  assert (is_Some (heap (added this member c m st) !! this)) as Hthis.
  { unfold added. rewrite lookup_set_obj_eq; [eauto|].
    rewrite lookup_set_obj_ne by done. eauto. }
  destruct (trigger_total rank fuel this "change" _ Hwa)
    as (st1 & t1 & Hrun1 & E1 & Hw1 & Hlog1 & Hframe1 & _); [done..|].
  destruct (trigger_total rank fuel this "append" st1 Hw1)
    as (st2 & t2 & Hrun2 & E2 & Hw2 & Hlog2 & Hframe2 & _); [done| |done|].
  { destruct Hthis as [o Ho].
    destruct (evolves_lookup _ _ _ _ E1 Ho) as (? & -> & _). eauto. }
  exists st2, t1, t2. erewrite bind_Ok_l by done.
  split; [done|]. split; [by rewrite Hrun1|]. split; [done|].
  split; [by eapply evolves_trans|]. split.
  { intros r Hr. by rewrite Hframe2, Hframe1. }
  split.
  { rewrite Hlog2, Hlog1. simpl. by rewrite <- app_assoc. }
  exists st1. done.
Qed.

(** Assigning an entity to a field subscribes the model to its
    ['change']. *)
Lemma set_entity_subscribes rank fuel st R m f es E o :
  wired rank st ->
  heap st !! R = Some (OModel m) ->
  Model.mappedEvents m !! f = Some es -> f <> "pk" ->
  instanceof_Events (Model_get m f) = None ->
  heap st !! E = Some o ->
  (rank R < rank E)%nat -> (rank R < fuel)%nat ->
  exists st1 h,
    Model_set fuel R f (VRef E) st = Ok tt st1 /\
    subscribed st1 E "change" h (ModelNested R f).
Proof.
  intros Hw Hm Hes Hf Hcur Ho Hrank Hfuel.
  assert (R <> E) as Hne by (intros ->; lia).
  set (h := Datatypes.S (Events.eventIndex (ev_of o))).
  set (oE := with_ev (snd (Events.on "change" (ModelNested R f) (ev_of o))) o).
  set (m0 := Model.with_mappedEvents
               (<[f := es ++ [h]]> (Model.mappedEvents m)) m).
  set (sta := set_obj R (OModel m0) (set_obj E oE st)).
  assert (wired rank sta) as Hwa.
  { eapply wired_set_obj; [|by rewrite lookup_set_obj_ne|by split].
    apply wired_on; [done|done|]. simpl. split; [done|]. split; [done|].
    split; [by eexists|done]. }
  destruct (store_and_emit rank fuel sta R f (VRef E) m0)
    as (st1 & t1 & t2 & Hset & _ & _ & Hshape1 & _); [done|lia|done| |].
  { unfold sta. apply lookup_set_obj_eq. rewrite lookup_set_obj_ne by done. eauto. }
  exists st1, h. split.
  { unfold Model_set.
    erewrite bind_Ok_l; [|by eapply unbind_current_plain].
    erewrite bind_Ok_l; [|by eapply bind_value_entity]. exact Hset. }
  apply (subscribed_shape sta st1); [done|].
  exists oE, (default [] (Events.map (ev_of o) !! "change") ++ [h]).
  split.
  { unfold sta. rewrite lookup_set_obj_ne by done.
    apply lookup_set_obj_eq. eauto. }
  unfold oE. rewrite ev_of_with_ev. simpl.
  rewrite !lookup_insert_eq. split; [done|]. split; [|done].
  apply elem_of_app. right. by apply list_elem_of_singleton.
Qed.

(** C2: assigning an entity to a field of a model [R] subscribes [R] to
    the ['change'] of the entity with a closure that, whenever it is called,
    marks [R] dirty and emits ['change'] and ['change:<field>'] on [R]; so
    when the entity is a collection [S], after [R.persist()], which leaves
    [R] clean, adding a member to [S] leaves [R] dirty and emits ['change']
    on [R]. *)
Theorem C2_collection_change_bubbles rank fuel st R m f es K member :
  wired rank st ->
  heap st !! R = Some (OModel m) ->
  Model.mappedEvents m !! f = Some es -> f <> "pk" ->
  instanceof_Events (Model_get m f) = None ->
  is_collection st K -> is_model st member ->
  (rank R < rank K)%nat -> (rank K < rank member)%nat -> (rank K < fuel)%nat ->
  (forall st0,
      wired rank st0 -> is_model st0 R ->
      exists st0' t1 t2,
        call (Events_trigger fuel) (ModelNested R f) st0 = Ok tt st0' /\
        clean_of st0' R = Some false /\
        log st0' = log st0 ++ Emitted R "change" :: t1 ++
                              Emitted R ("change:" +:+ f) :: t2) /\
  (forall E o,
      heap st !! E = Some o -> (rank R < rank E)%nat ->
      exists st1 h,
        Model_set fuel R f (VRef E) st = Ok tt st1 /\
        subscribed st1 E "change" h (ModelNested R f)) /\
  exists st1 st2 st3 h t,
    Model_set fuel R f (VRef K) st = Ok tt st1 /\
    subscribed st1 K "change" h (ModelNested R f) /\
    Model_persist fuel R st1 = Ok true st2 /\
    clean_of st2 R = Some true /\
    Collection_add fuel K (VRef member) st2 = Ok tt st3 /\
    clean_of st3 R = Some false /\
    log st3 = log st2 ++ t /\
    Emitted R "change" ∈ t /\ Emitted R ("change:" +:+ f) ∈ t.
Proof.
  intros Hw Hm Hes Hf Hcur [c Hc] [mm Hmm] HRS HSm Hfuel.
  split.
  { intros st0 Hw0 Hm0.
    destruct (nested_handler_returns rank fuel R f st0) as (st0' & Hrun);
      [done|done|done|lia|].
    destruct (nested_handler_effect _ _ _ _ _ Hrun) as (Hd & t1 & t2 & Hl).
    by exists st0', t1, t2. }
  split.
  { intros E o Ho HRE.
    eapply set_entity_subscribes; try done. lia. }
  assert (R <> K) as HneRS by congruence.
  assert (R <> member) as HneRm by (intros ->; lia).
  assert (K <> member) as HneSm by congruence.
  (* set *)
  unfold Model_set.
  erewrite bind_Ok_l; [|by eapply unbind_current_plain].
  erewrite bind_Ok_l; [|by eapply bind_value_entity].
  set (h := Datatypes.S (Events.eventIndex (ev_of (OCollection c)))).
  set (oS := with_ev _ (OCollection c)).
  set (m0 := Model.with_mappedEvents _ m).
  set (sta := set_obj R (OModel m0) (set_obj K oS st)).
  assert (wired rank sta) as Hwa.
  { eapply wired_set_obj; [|by rewrite lookup_set_obj_ne|by split].
    apply wired_on; [done|done|]. simpl. split; [done|]. split; [done|].
    split; [by eexists|done]. }
  destruct (store_and_emit rank fuel sta R f (VRef K) m0)
    as (st1 & t1 & t2 & Hset & HR1 & Hframe1 & Hshape1 & Hw1 & Hlog1);
    [done|lia|done| |].
  { unfold sta. apply lookup_set_obj_eq. rewrite lookup_set_obj_ne by done. eauto. }
  assert (heap sta !! K = Some oS) as HSa.
  { unfold sta. rewrite lookup_set_obj_ne by done.
    apply lookup_set_obj_eq. eauto. }
  assert (subscribed sta K "change" h (ModelNested R f)) as Hsub.
  { exists oS, (default [] (Events.map (Collection.super c) !! "change") ++ [h]).
    split; [done|]. unfold oS. simpl.
    rewrite !lookup_insert_eq. split; [done|]. split; [|done].
    apply elem_of_app. right. by apply list_elem_of_singleton. }
  (* persist *)
  destruct (Model_persist_dirty rank fuel st1 R _ Hw1 ltac:(lia) HR1 eq_refl)
    as (st2 & tp & Hpersist & HR2 & Hframe2 & Hshape2 & Hw2 & Hlog2 & _).
  (* add *)
  assert (exists c2, heap st2 !! K = Some (OCollection c2)) as [c2 Hc2].
  { rewrite Hframe2, Hframe1 by (done || lia). rewrite HSa. unfold oS. simpl.
    eauto. }
  assert (exists mm2, heap st2 !! member = Some (OModel mm2)) as [mm2 Hmm2].
  { rewrite Hframe2, Hframe1 by (done || lia). unfold sta.
    rewrite !lookup_set_obj_ne by done. eauto. }
  destruct (Collection_add_total rank fuel K member st2 c2 mm2)
    as (st3 & ta1 & ta2 & Hadd & _ & Hw3 & E3 & Hframe3 & Hlog3 &
        s1 & Hchange & Hlogs1 & Es1); try done.
  assert (subscribed (added K member c2 mm2 st2) K "change" h (ModelNested R f))
    as Hsub2.
  { apply (subscribed_shape sta st1) in Hsub; [|done].
    apply (subscribed_shape st1 st2) in Hsub; [|done].
    destruct Hsub as (o & l & Ho & Hl & Hh & Hcb).
    assert (o = OCollection c2) as -> by congruence. simpl in Hl, Hcb.
    eexists _, l. unfold added. rewrite lookup_set_obj_eq; cycle 1.
    { rewrite lookup_set_obj_ne by done. eauto. }
    split; [done|]. done. }
  destruct fuel as [|fuel]; [lia|].
  destruct (trigger_reaches _ _ _ _ _ _ _ Hchange Hsub2)
    as (u1 & u2 & Eu1 & Hcall & Eu2).
  destruct (nested_handler_effect _ _ _ _ _ Hcall) as (Hdirty & v1 & v2 & Hlogu).
  exists st1, st2, st3, h. eexists.
  split; [done|]. split; [by eapply subscribed_shape|].
  split; [done|]. split.
  { unfold clean_of. by rewrite HR2. }
  split; [done|]. split.
  { eapply dirty_evolves; [|done]. by eapply evolves_trans. }
  split; [done|].
  (* the events of [R] are among those of the cascade on ['change'] *)
  destruct Eu1 as [_ [w1 Lw1]]. destruct Eu2 as [_ [w2 Lw2]].
  assert (Emitted K "change" :: ta1
          = w1 ++ (Emitted R "change" :: v1 ++
                   Emitted R ("change:" +:+ f) :: v2) ++ w2) as Hs1.
  { apply (app_inv_head (log st2)). rewrite <- Hlogs1, Lw2, Hlogu, Lw1.
    change (log (added K member c2 mm2 st2)) with (log st2).
    by rewrite <- !app_assoc. }
  rewrite (app_comm_cons ta1), Hs1. split.
  - apply elem_of_app. left. apply elem_of_app. right.
    apply elem_of_app. left. by left.
  - apply elem_of_app. left. apply elem_of_app. right.
    apply elem_of_app. left. right. apply elem_of_app. right. by left.
Qed.


(** A [CollectedModel] at address 0, an empty collection at address 1 and a
    [FooModel] at address 2. *)
Definition st_nested : state :=
  Eval vm_compute in
    state_of ((CollectedModel_new 1 "2" >> Collection_new >>
               FooModel_new 1 "1") init).

Lemma C2_collection_change_bubbles_witness :
  exists st1 st2 st3,
    Model_set 2 0 "foos" (VRef 1) st_nested = Ok tt st1 /\
    Model_persist 2 0 st1 = Ok true st2 /\
    clean_of st2 0 = Some true /\
    Collection_add 2 1 (VRef 2) st2 = Ok tt st3 /\
    clean_of st3 0 = Some false.
Proof.
  destruct (C2_collection_change_bubbles (fun r => r) 2 st_nested 0
              (the_model st_nested 0) "foos" [] 1 2)
    as (_ & _ & st1 & st2 & st3 & h & t & H1 & _ & H2 & H3 & H4 & H5 & _).
  - apply wiredb_sound. vm_compute. reflexivity.
  - vm_compute. reflexivity.
  - vm_compute. reflexivity.
  - discriminate.
  - vm_compute. reflexivity.
  - eexists. vm_compute. reflexivity.
  - eexists. vm_compute. reflexivity.
  - lia.
  - lia.
  - lia.
  - exists st1, st2, st3. repeat split; assumption.
Defined.

(** ** The handler [add] binds to a member's ['change'] *)

Lemma member_changed_run this model st c m :
  heap st !! this = Some (OCollection c) ->
  heap st !! model = Some (OModel m) ->
  member_changed this model st
  = Ok tt
      (set_obj this
         (OCollection
            (Collection.with_persisted
               (splice (Collection.persisted c)
                  (indexOf (Model_get m "pk") (Collection.persisted c)) 1 [])
               (Collection.with_clean false c))) st).
Proof.
  intros Hc Hm. assert (this <> model) as Hne by congruence.
  unfold member_changed.
  erewrite bind_Ok_l; [|by apply modify_collection_run].
  erewrite bind_Ok_l; [|apply pk_of_run; by rewrite lookup_set_obj_ne].
  erewrite modify_collection_run; [|apply lookup_set_obj_eq; eauto].
  by rewrite set_obj_set_obj.
Qed.

(** When the member's pk is in the snapshot, the handler drops its first
    occurrence. *)
Lemma member_changed_present this model st c m (i : nat) :
  heap st !! this = Some (OCollection c) ->
  heap st !! model = Some (OModel m) ->
  Collection.persisted c !! i = Some (Model_get m "pk") ->
  (forall j : nat, (j < i)%nat ->
                   Collection.persisted c !! j <> Some (Model_get m "pk")) ->
  member_changed this model st
  = Ok tt
      (set_obj this
         (OCollection
            (Collection.with_persisted (delete i (Collection.persisted c))
               (Collection.with_clean false c))) st).
Proof.
  intros Hc Hm Hi Hfirst. erewrite member_changed_run by done.
  erewrite indexOf_first by done.
  rewrite splice_delete; [done|]. by eapply lookup_lt_Some.
Qed.

(** When it is not, the handler drops the last pk of the snapshot. *)
Lemma member_changed_absent this model st c m :
  heap st !! this = Some (OCollection c) ->
  heap st !! model = Some (OModel m) ->
  Model_get m "pk" ∉ Collection.persisted c ->
  member_changed this model st
  = Ok tt
      (set_obj this
         (OCollection
            (Collection.with_persisted
               (take (length (Collection.persisted c) - 1)
                  (Collection.persisted c))
               (Collection.with_clean false c))) st).
Proof.
  intros Hc Hm Hpk. erewrite member_changed_run by done.
  by rewrite splice_absent.
Qed.

Definition persisted_of {A} (o : outcome A) (r : ref) : list value :=
  Collection.persisted (the_collection (state_of o) r).

(** C6 (the code departs from the claim): the handler does not leave
    [persisted] unchanged when the member's pk is absent from it.  In a
    collection of four members with the snapshot ["1"; "2"; "3"; "4"], a
    first change of member ["1"] drops ["1"] from the snapshot, as claimed;
    a second change of the same member, whose pk is now absent, drops
    ["4"]. *)
Theorem C6_change_of_absent_pk_drops_last :
  let persisted := Collection_persist 1 0 st_four in
  let changed := Model_set 2 1 "bar" (VStr "x") (state_of persisted) in
  let changed_again := Model_set 2 1 "bar" (VStr "y") (state_of changed) in
  persisted_of persisted 0 = [VStr "1"; VStr "2"; VStr "3"; VStr "4"] /\
  persisted_of changed 0 = [VStr "2"; VStr "3"; VStr "4"] /\
  persisted_of changed_again 0 = [VStr "2"; VStr "3"] /\
  clean_of (state_of changed_again) 0 = Some false /\
  log_of changed_again
  = Some (log (state_of changed) ++
          [Emitted 1 "change"; Emitted 0 "change"; Emitted 1 "change:bar"]).
Proof. repeat split; vm_compute; reflexivity. Qed.

(** ** Unsubscribing

    [set] releases the handle it took on the previous value.  When that
    handle is the last one issued by the value, [off] undoes [on]: the
    subscribers are the ones from before. *)

Definition ev_wired (rank : ref -> nat) (st : state) (x : ref) (e : Events.t)
  : Prop :=
  forall name l h,
    Events.map e !! name = Some l -> h ∈ l ->
    exists cb, Events.events e !! h = Some cb /\ cb_ok rank st x name cb /\
               (h <= Events.eventIndex e)%nat.

Lemma wired_ev_wired rank st :
  wired rank st <->
  forall x o, heap st !! x = Some o -> ev_wired rank st x (ev_of o).
Proof.
  split.
  - intros Hw x o Hx name l h Hl Hh. by eapply Hw.
  - intros H x o name l h Hx Hl Hh. by eapply H.
Qed.














(** [off] of the handle [on] has just returned. *)
Lemma off_on name cb e :
  (forall h, h ∈ default [] (Events.map e !! name) ->
             (h <= Events.eventIndex e)%nat) ->
  Events.off name (S (Events.eventIndex e)) (snd (Events.on name cb e))
  = Events.mk (S (Events.eventIndex e))
      (<[name := default [] (Events.map e !! name)]> (Events.map e))
      (delete (S (Events.eventIndex e)) (Events.events e)).
Proof.
  intros Hfresh. unfold Events.off, Events.on. simpl.
  rewrite lookup_insert_eq, insert_insert_eq, delete_insert_eq.
  f_equal. f_equal.
  set (l := default [] (Events.map e !! name)) in *.
  set (h := S (Events.eventIndex e)).
  assert (h ∉ l) as Hh.
  { intros Hin. apply Hfresh in Hin. unfold h in Hin. lia. }
  rewrite (indexOf_first h (l ++ [h]) (length l)).
  - rewrite splice_delete by (rewrite length_app; simpl; lia).
    rewrite delete_take_drop, take_app_length.
    rewrite drop_app_ge by lia.
    replace (S (length l) - length l)%nat with 1%nat by lia.
    simpl. by rewrite app_nil_r.
  - by rewrite list_lookup_middle.
  - intros j Hj Hlook. rewrite lookup_app_l in Hlook by done.
    apply Hh. by eapply list_elem_of_lookup_2.
Qed.












(** ** Mutations of a collection, seen from an object it cannot reach *)

Inductive mutation :=
| Add (model : value)
| Remove (model : value)
| RemoveAt (index : Z)
| RemoveBy (pk : value)
| Move (model : value) (offset : Z)
| MoveAt (index offset : Z)
| MoveBy (pk : value) (offset : Z).

Definition mutate (fuel : nat) (this : ref) (mu : mutation) : M unit :=
  match mu with
  | Add model => Collection_add fuel this model
  | Remove model => Collection_remove fuel this model
  | RemoveAt index => Collection_removeAt fuel this index
  | RemoveBy pk => Collection_removeBy fuel this pk
  | Move model offset => Collection_move fuel this model offset
  | MoveAt index offset => Collection_moveAt fuel this index offset
  | MoveBy pk offset => Collection_moveBy fuel this pk offset
  end.


























(** ** The index of a collection *)

(** The key under which [rebuildMap] files a member, and the key under
    which it looks for the member's previous entry. *)
Definition pk_key (m : Model.t) : string := to_key (Model_get m "pk").

Definition lookup_key (m : Model.t) : string :=
  to_key (js_or (default VUndef (Model.persisted m !! "pk")) (Model_get m "pk")).

Definition member_model (st : state) (v : value) : option Model.t :=
  match v with
  | VRef r =>
      match heap st !! r with
      | Some (OModel m) => Some m
      | _ => None
      end
  | _ => None
  end.

Definition member_key (st : state) (v : value) : option string :=
  pk_key <$> member_model st v.

Definition member_lookup (st : state) (v : value) : option string :=
  lookup_key <$> member_model st v.

(** Every entry of the map has its [ModelMeta], and no two keys share one. *)
Definition index_sound (c : Collection.t) : Prop :=
  (forall k a, Collection.modelMap c !! k = Some a ->
               is_Some (Collection.metas c !! a)) /\
  (forall k k' a, Collection.modelMap c !! k = Some a ->
                  Collection.modelMap c !! k' = Some a -> k = k').

(** [resolvable st c]: the members are models with distinct keys, each
    looked up under the key it is filed under, and each with an entry. *)
Definition resolvable (st : state) (c : Collection.t) : Prop :=
  index_sound c /\
  NoDup (member_key st <$> Collection.models c) /\
  forall v, v ∈ Collection.models c ->
    exists k, member_key st v = Some k /\ member_lookup st v = Some k /\
              is_Some (Collection.modelMap c !! k).

(** [indexed st c]: moreover the entry of each member holds its position. *)
Definition indexed (st : state) (c : Collection.t) : Prop :=
  resolvable st c /\
  forall (i : nat) v, Collection.models c !! i = Some v ->
    exists k a meta,
      member_key st v = Some k /\ Collection.modelMap c !! k = Some a /\
      Collection.metas c !! a = Some meta /\ ModelMeta.index meta = i.

Lemma member_model_set_collection st this c v :
  is_collection st this ->
  member_model (set_obj this (OCollection c) st) v = member_model st v.
Proof.
  intros [c0 Hc]. destruct v as [| | |r]; try done. simpl.
  destruct (decide (this = r)) as [->|Hne].
  - rewrite list_lookup_insert_eq by (by eapply lookup_lt_Some). by rewrite Hc.
  - by rewrite list_lookup_insert_ne.
Qed.

Lemma member_model_run st v m :
  member_model st v = Some m ->
  pk_of v st = Ok (Model_get m "pk") st /\
  persisted_pk_of v st = Ok (default VUndef (Model.persisted m !! "pk")) st.
Proof.
  destruct v as [| | |r]; try done. simpl.
  destruct (heap st !! r) as [[|m'|]|] eqn:Hr; try done. intros [= ->].
  split; [by apply pk_of_run|by apply persisted_pk_of_run].
Qed.

Lemma rebuild_step_run this newMap index v st c m a meta :
  heap st !! this = Some (OCollection c) ->
  member_model st v = Some m ->
  Collection.modelMap c !! lookup_key m = Some a ->
  Collection.metas c !! a = Some meta ->
  rebuild_step this newMap index v st
  = Ok (<[pk_key m := a]> newMap)
      (set_obj this
         (OCollection
            (Collection.with_metas
               (<[a := ModelMeta.with_index index meta]> (Collection.metas c))
               c)) st).
Proof.
  intros Hc Hm Ha Hmeta. destruct (member_model_run _ _ _ Hm) as [Hpk Hppk].
  unfold rebuild_step.
  erewrite bind_Ok_l; [|done]. erewrite bind_Ok_l; [|done].
  erewrite bind_Ok_l; [|by apply get_collection_run].
  fold (lookup_key m). rewrite Ha, Hmeta.
  erewrite bind_Ok_l; [|by apply modify_collection_run]. done.
Qed.


Lemma member_key_set_collection st this c v :
  is_collection st this ->
  member_key (set_obj this (OCollection c) st) v = member_key st v.
Proof. intros H. unfold member_key. by rewrite member_model_set_collection. Qed.

Lemma member_lookup_set_collection st this c v :
  is_collection st this ->
  member_lookup (set_obj this (OCollection c) st) v = member_lookup st v.
Proof. intros H. unfold member_lookup. by rewrite member_model_set_collection. Qed.

Lemma with_metas_id c : Collection.with_metas (Collection.metas c) c = c.
Proof. by destruct c. Qed.

Lemma with_metas_with_metas l l' c :
  Collection.with_metas l (Collection.with_metas l' c) = Collection.with_metas l c.
Proof. by destruct c. Qed.

(** The loop of [rebuildMap] over members that resolve: the new map takes
    the members' entries over, and each entry gets the member's position. *)
Lemma rebuild_loop_spec this : forall ms newMap idx st c,
  heap st !! this = Some (OCollection c) ->
  index_sound c ->
  NoDup (member_key st <$> ms) ->
  (forall v, v ∈ ms ->
     exists k, member_key st v = Some k /\ member_lookup st v = Some k /\
               is_Some (Collection.modelMap c !! k)) ->
  exists metas' newMap',
    rebuild_loop this newMap idx ms st
    = Ok newMap' (set_obj this (OCollection (Collection.with_metas metas' c)) st) /\
    length metas' = length (Collection.metas c) /\
    (forall k, newMap' !! k
               = if decide (Some k ∈ member_key st <$> ms)
                 then Collection.modelMap c !! k else newMap !! k) /\
    (forall (j : nat) v k a,
        ms !! j = Some v -> member_key st v = Some k ->
        Collection.modelMap c !! k = Some a ->
        exists meta, metas' !! a = Some meta /\
                     ModelMeta.index meta = (idx + j)%nat) /\
    (forall a,
        (forall v k, v ∈ ms -> member_key st v = Some k ->
                     Collection.modelMap c !! k <> Some a) ->
        metas' !! a = Collection.metas c !! a).
Proof.
  induction ms as [|v ms IH]; intros newMap idx st c Hc Hsound Hnd Hres.
  { exists (Collection.metas c), newMap. simpl.
    rewrite with_metas_id, set_obj_id by done. split; [done|]. split; [done|].
    split.
    { done. }
    split; [by intros j v k a Hj|done]. }
  destruct (Hres v) as (k & Hk & Hlk & [a Ha]); [by left|].
  unfold member_key in Hk. unfold member_lookup in Hlk.
  destruct (member_model st v) as [m|] eqn:Hm; [|done].
  simpl in Hk, Hlk. injection Hk as Hk. injection Hlk as Hlk.
  destruct Hsound as [Hvalid Hinj].
  destruct (Hvalid k a Ha) as [meta Hmeta].
  simpl.
  erewrite bind_Ok_l; cycle 1.
  { eapply rebuild_step_run; [done|done|by rewrite Hlk|done]. }
  set (c1 := Collection.with_metas _ c). set (st1 := set_obj this (OCollection c1) st).
  assert (is_collection st this) as Hthis by (by eexists).
  apply NoDup_cons in Hnd as [Hfresh Hnd].
  destruct (IH (<[pk_key m := a]> newMap) (S idx) st1 c1)
    as (metas' & newMap' & Hrun & Hlen & Hmap & Hidx & Hkeep).
  { apply lookup_set_obj_eq. eauto. }
  { split.
    - intros k' a' Hk'. simpl in *. apply lookup_lt_is_Some.
      rewrite length_insert. apply lookup_lt_is_Some. by eapply Hvalid.
    - done. }
  { erewrite list_fmap_ext; [done|]. intros i x Hx.
    by apply member_key_set_collection. }
  { intros w Hw. unfold st1.
    rewrite member_key_set_collection, member_lookup_set_collection by done.
    apply Hres. by right. }
  exists metas', newMap'. rewrite Hrun. unfold st1.
  rewrite set_obj_set_obj. unfold c1. rewrite with_metas_with_metas.
  split; [done|]. split.
  { rewrite Hlen. simpl. by rewrite length_insert. }
  assert (forall w, member_key st1 w = member_key st w) as Hsame.
  { intros w. by apply member_key_set_collection. }
  assert (member_key st v = Some k) as Hvk.
  { unfold member_key. rewrite Hm. simpl. by rewrite Hk. }
  split; [|split].
  - intros k'. rewrite Hmap. simpl.
    erewrite (list_fmap_ext (member_key st1) (member_key st)) by (intros; apply Hsame).
    rewrite Hvk.
    destruct (decide (Some k' ∈ member_key st <$> ms)) as [Hin|Hnin].
    + rewrite decide_True; [done|]. by right.
    + destruct (decide (k' = k)) as [->|Hne].
      * rewrite decide_True by (by left). by rewrite Hk, lookup_insert_eq.
      * rewrite decide_False.
        { rewrite lookup_insert_ne; [done|]. by rewrite Hk. }
        intros [?|?]%elem_of_cons; [congruence|done].
  - intros j w k' a' Hj Hw Ha'. destruct j as [|j]; simpl in Hj.
    + injection Hj as <-. rewrite Hvk in Hw. injection Hw as <-.
      assert (a' = a) as -> by congruence.
      rewrite Hkeep.
      * simpl. rewrite list_lookup_insert_eq by (by eapply lookup_lt_Some).
        eexists. split; [done|]. simpl. lia.
      * intros w k' Hw Hwk Hcontra. rewrite Hsame in Hwk. simpl in Hcontra.
        assert (k' = k) as -> by (by eapply Hinj).
        apply Hfresh. rewrite Hvk, <- Hwk. apply list_elem_of_fmap. eauto.
    + destruct (Hidx j w k' a' Hj) as (meta' & Hmeta' & Hi); [by rewrite Hsame|done|].
      exists meta'. split; [done|]. lia.
  - intros a' Hfree. rewrite Hkeep.
    + simpl. rewrite list_lookup_insert_ne; [done|].
      intros ->. eapply (Hfree v k); [by left|done|done].
    + intros w k' Hw Hwk. rewrite Hsame in Hwk. simpl.
      eapply Hfree; [by right|done].
Qed.

(** [rebuildMap] on members that resolve returns, changes only the index
    of the collection, and leaves it indexed. *)
Lemma rebuildMap_spec this st c :
  heap st !! this = Some (OCollection c) -> resolvable st c ->
  exists c',
    Collection_rebuildMap this st = Ok tt (set_obj this (OCollection c') st) /\
    Collection.super c' = Collection.super c /\
    Collection.models c' = Collection.models c /\
    Collection.persisted c' = Collection.persisted c /\
    Collection.clean c' = Collection.clean c /\
    indexed st c'.
Proof.
  intros Hc (Hsound & Hnd & Hres).
  destruct (rebuild_loop_spec this (Collection.models c) ∅ 0 st c)
    as (metas' & newMap' & Hrun & Hlen & Hmap & Hidx & _); try done.
  exists (Collection.with_modelMap newMap' (Collection.with_metas metas' c)).
  split.
  { unfold Collection_rebuildMap.
    erewrite bind_Ok_l; [|by apply get_collection_run].
    erewrite bind_Ok_l; [|done].
    erewrite modify_collection_run; [|apply lookup_set_obj_eq; eauto].
    by rewrite set_obj_set_obj. }
  do 4 (split; [by destruct c|]).
  assert (forall k a, newMap' !! k = Some a ->
                      Collection.modelMap c !! k = Some a) as Hsub.
  { intros k a Hk. rewrite Hmap in Hk. by case_decide. }
  destruct Hsound as [Hvalid Hinj].
  split; [split; [split|split]|].
  - intros k a Hk. apply Hsub in Hk. simpl.
    apply lookup_lt_is_Some. rewrite Hlen. apply lookup_lt_is_Some. by eapply Hvalid.
  - intros k k' a Hk Hk'. simpl in *. eapply Hinj; by apply Hsub.
  - by destruct c.
  - intros v Hv. destruct (Hres v) as (k & Hk & Hlk & Hin); [by destruct c|].
    exists k. split; [done|]. split; [done|]. simpl. rewrite Hmap.
    rewrite decide_True; [done|]. rewrite <- Hk. apply list_elem_of_fmap.
    exists v. split; [done|]. by destruct c.
  - intros i v Hi. assert (Collection.models c !! i = Some v) as Hi' by (by destruct c).
    destruct (Hres v) as (k & Hk & Hlk & [a Ha]); [by eapply list_elem_of_lookup_2|].
    destruct (Hidx i v k a Hi' Hk Ha) as (meta & Hmeta & Hindex).
    exists k, a, meta. split; [done|]. split; [|by destruct c].
    simpl. rewrite Hmap. rewrite decide_True; [done|].
    rewrite <- Hk. apply list_elem_of_fmap. exists v. split; [done|].
    by eapply list_elem_of_lookup_2.
Qed.

Lemma resolvable_keys st st' c :
  (forall v, member_key st' v = member_key st v) ->
  (forall v, member_lookup st' v = member_lookup st v) ->
  resolvable st c -> resolvable st' c.
Proof.
  intros Hk Hl (Hsound & Hnd & Hres). split; [done|]. split.
  - erewrite list_fmap_ext; [done|]. intros; apply Hk.
  - intros v Hv. rewrite Hk, Hl. by apply Hres.
Qed.

Lemma indexed_keys st st' c :
  (forall v, member_key st' v = member_key st v) ->
  (forall v, member_lookup st' v = member_lookup st v) ->
  indexed st c -> indexed st' c.
Proof.
  intros Hk Hl [Hres Hpos]. split; [by eapply resolvable_keys|].
  intros i v Hi. rewrite Hk. by apply Hpos.
Qed.

(** No cascade changes the keys of a model. *)
Lemma member_model_evolves st st' v m :
  evolves st st' -> member_model st v = Some m ->
  exists m', member_model st' v = Some m' /\
             Model.fields m' = Model.fields m /\
             Model.persisted m' = Model.persisted m.
Proof.
  intros E. destruct v as [| | |r]; try done. simpl.
  destruct (heap st !! r) as [[|m0|]|] eqn:Hr; try done. intros [= ->].
  destruct (evolves_model _ _ _ _ E Hr) as (m' & -> & _ & _ & Hf & _ & Hp & _).
  eauto.
Qed.

Lemma member_model_evolves_None st st' v :
  evolves st st' -> member_model st v = None -> member_model st' v = None.
Proof.
  intros E. destruct v as [| | |r]; try done. simpl.
  destruct (heap st' !! r) as [[|m'|]|] eqn:Hr'; try done.
  destruct (evolves_lookup_r _ _ _ _ E Hr') as (o & -> & [_ Ho]).
  by destruct o.
Qed.

Lemma keys_evolves st st' :
  evolves st st' ->
  (forall v, member_key st' v = member_key st v) /\
  (forall v, member_lookup st' v = member_lookup st v).
Proof.
  intros E. split; intros v; unfold member_key, member_lookup;
    destruct (member_model st v) as [m|] eqn:Hm.
  - destruct (member_model_evolves _ _ _ _ E Hm) as (m' & -> & Hf & Hp).
    simpl. unfold pk_key, Model_get. by rewrite Hf.
  - by rewrite (member_model_evolves_None _ _ _ E Hm).
  - destruct (member_model_evolves _ _ _ _ E Hm) as (m' & -> & Hf & Hp).
    simpl. unfold lookup_key, Model_get. by rewrite Hf, Hp.
  - by rewrite (member_model_evolves_None _ _ _ E Hm).
Qed.

(** ** [moveAt] on lists *)

Lemma clamp_index_bounds newIndex (n : nat) :
  (0 < n)%nat -> 0 <= clamp_index newIndex (Z.of_nat n) <= Z.of_nat n - 1.
Proof. unfold clamp_index. intros Hn. repeat case_match; lia. Qed.

(** The position at which [moveAt(index, offset)] reinserts, in a list of
    length [n]. *)
Definition move_target (n : nat) (index : nat) (offset : Z) : nat :=
  Z.to_nat (clamp_index (Z.of_nat index + offset) (Z.of_nat n)).

Lemma move_target_lt n index offset : (0 < n)%nat -> (move_target n index offset < n)%nat.
Proof.
  intros Hn. unfold move_target.
  pose proof (clamp_index_bounds (Z.of_nat index + offset) n Hn). lia.
Qed.

Lemma move_models_eq l (i : nat) offset x :
  l !! i = Some x ->
  move_models l (Z.of_nat i) offset
  = take (move_target (length l) i offset) (delete i l) ++
    x :: drop (move_target (length l) i offset) (delete i l).
Proof.
  intros Hi. pose proof (lookup_lt_Some _ _ _ Hi) as Hlt.
  unfold move_models, nth_Z.
  replace (Z.of_nat i <? 0) with false by lia. rewrite Nat2Z.id, Hi. simpl.
  rewrite splice_delete by done.
  pose proof (move_target_lt (length l) i offset ltac:(lia)) as Ht.
  pose proof (clamp_index_bounds (Z.of_nat i + offset) (length l) ltac:(lia)) as Hb.
  replace (clamp_index (Z.of_nat i + offset) (Z.of_nat (length l)))
    with (Z.of_nat (move_target (length l) i offset))
    by (unfold move_target; lia).
  apply splice_insert. rewrite length_delete by eauto. lia.
Qed.

Lemma move_models_Permutation l (i : nat) offset x :
  l !! i = Some x -> move_models l (Z.of_nat i) offset ≡ₚ l.
Proof.
  intros Hi. rewrite (move_models_eq l i offset x Hi).
  rewrite <- Permutation_middle, take_drop. symmetry. by apply delete_Permutation.
Qed.



Lemma resolvable_Permutation st c l :
  l ≡ₚ Collection.models c -> resolvable st c ->
  resolvable st (Collection.with_models l c).
Proof.
  intros Hp (Hsound & Hnd & Hres). split; [by destruct c|]. split.
  - replace (Collection.models (Collection.with_models l c)) with l by (by destruct c).
    by rewrite Hp.
  - intros v Hv. replace (Collection.models (Collection.with_models l c)) with l in Hv
      by (by destruct c).
    rewrite Hp in Hv. destruct (Hres v Hv) as (k & ? & ? & ?).
    exists k. by destruct c.
Qed.

(** ** [moveAt] *)

(** With acyclic wiring, [moveAt] from a valid index returns for every
    offset, reorders the members as [move_models] says, and rebuilds the
    index for the new order. *)
Lemma Collection_moveAt_total rank fuel this st c (i : nat) offset x :
  wired rank st -> heap st !! this = Some (OCollection c) -> resolvable st c ->
  (rank this < fuel)%nat -> Collection.models c !! i = Some x ->
  exists st' c' t,
    Collection_moveAt fuel this (Z.of_nat i) offset st = Ok tt st' /\
    heap st' !! this = Some (OCollection c') /\
    Collection.models c' = move_models (Collection.models c) (Z.of_nat i) offset /\
    Collection.persisted c' = Collection.persisted c /\
    Collection.clean c' = Collection.clean c /\
    indexed st' c' /\ wired rank st' /\
    log st' = log st ++ Emitted this "change" :: t /\
    (forall v, member_key st' v = member_key st v) /\
    (forall v, member_lookup st' v = member_lookup st v).
Proof.
  intros Hw Hc Hres Hfuel Hi.
  set (c1 := Collection.with_models
               (move_models (Collection.models c) (Z.of_nat i) offset) c).
  set (st1 := set_obj this (OCollection c1) st).
  assert (is_collection st this) as Hic by (by exists c).
  assert (heap st1 !! this = Some (OCollection c1)) as Hc1.
  { apply lookup_set_obj_eq. eauto. }
  assert (resolvable st1 c1) as Hres1.
  { apply (resolvable_keys st).
    - intros v. by apply member_key_set_collection.
    - intros v. by apply member_lookup_set_collection.
    - apply resolvable_Permutation; [|done]. by eapply move_models_Permutation. }
  destruct (rebuildMap_spec this st1 c1 Hc1 Hres1)
    as (c2 & Hrun & Hsuper & Hmodels & Hpers & Hclean & Hidx).
  unfold st1 in Hrun at 2. rewrite set_obj_set_obj in Hrun.
  set (st2 := set_obj this (OCollection c2) st) in *.
  assert (wired rank st2) as Hw2.
  { apply (wired_set_obj rank st this (OCollection c)); [done|done|].
    split; [|done]. simpl. rewrite Hsuper. by destruct c. }
  assert (heap st2 !! this = Some (OCollection c2)) as Hc2.
  { apply lookup_set_obj_eq. eauto. }
  destruct (trigger_total rank fuel this "change" st2 Hw2)
    as (st3 & t & Hrun3 & E & Hw3 & Hlog & Hframe & _); [done|eauto|done|].
  destruct (keys_evolves _ _ E) as [Hk Hl].
  exists st3, c2, t. split.
  { unfold Collection_moveAt.
    erewrite bind_Ok_l; [|by apply modify_collection_run].
    fold c1. fold st1. erewrite bind_Ok_l; [|done]. done. }
  split; [by rewrite Hframe|].
  split; [by rewrite Hmodels; destruct c|].
  split; [by rewrite Hpers; destruct c|].
  split; [by rewrite Hclean; destruct c|].
  split.
  { apply (indexed_keys st1); [| |done].
    - intros v. rewrite Hk. unfold st2, st1.
      by rewrite !member_key_set_collection.
    - intros v. rewrite Hl. unfold st2, st1.
      by rewrite !member_lookup_set_collection. }
  split; [done|]. split; [done|]. split.
  - intros v. rewrite Hk. by apply member_key_set_collection.
  - intros v. rewrite Hl. by apply member_lookup_set_collection.
Qed.

(** ** A checker for the index on a concrete heap *)

Definition member_okb (st : state) (c : Collection.t) (v : value) : bool :=
  match member_key st v, member_lookup st v with
  | Some k, Some k' =>
      bool_decide (k' = k) && bool_decide (is_Some (Collection.modelMap c !! k))
  | _, _ => false
  end.

Definition index_soundb (c : Collection.t) : bool :=
  forallb (fun ka => bool_decide (is_Some (Collection.metas c !! ka.2)))
          (map_to_list (Collection.modelMap c)) &&
  bool_decide (NoDup (map_to_list (Collection.modelMap c)).*2).

Definition resolvableb (st : state) (c : Collection.t) : bool :=
  index_soundb c &&
  bool_decide (NoDup (member_key st <$> Collection.models c)) &&
  forallb (member_okb st c) (Collection.models c).

Lemma index_soundb_sound c : index_soundb c = true -> index_sound c.
Proof.
  unfold index_soundb. intros [Hall Hnd%bool_decide_eq_true]%andb_true_iff.
  rewrite forallb_forall in Hall. split.
  - intros k a Hk. apply elem_of_map_to_list in Hk.
    apply list_elem_of_In in Hk. apply Hall in Hk.
    by apply bool_decide_eq_true in Hk.
  - intros k k' a Hk Hk'.
    apply elem_of_map_to_list, list_elem_of_lookup in Hk as [i Hi].
    apply elem_of_map_to_list, list_elem_of_lookup in Hk' as [j Hj].
    assert (i = j) as ->.
    { eapply (NoDup_lookup _ i j a Hnd); rewrite list_lookup_fmap.
      - by rewrite Hi.
      - by rewrite Hj. }
    congruence.
Qed.

Lemma resolvableb_sound st c : resolvableb st c = true -> resolvable st c.
Proof.
  unfold resolvableb.
  intros [[Hs Hnd%bool_decide_eq_true]%andb_true_iff Hall]%andb_true_iff.
  split; [by apply index_soundb_sound|]. split; [done|].
  intros v Hv. rewrite forallb_forall in Hall.
  apply list_elem_of_In, Hall in Hv. unfold member_okb in Hv.
  destruct (member_key st v) as [k|]; [|done].
  destruct (member_lookup st v) as [k'|]; [|done].
  apply andb_true_iff in Hv as [->%bool_decide_eq_true Hin%bool_decide_eq_true].
  by exists k.
Qed.

Lemma resolvable_NoDup st c : resolvable st c -> NoDup (Collection.models c).
Proof. intros (_ & Hnd & _). by eapply NoDup_fmap_1. Qed.


Lemma Collection_move_run fuel this model offset st c (i : nat) :
  heap st !! this = Some (OCollection c) -> NoDup (Collection.models c) ->
  Collection.models c !! i = Some model ->
  Collection_move fuel this model offset st
  = Collection_moveAt fuel this (Z.of_nat i) offset st.
Proof.
  intros Hc Hnd Hi. unfold Collection_move.
  erewrite bind_Ok_l; [|by apply get_collection_run].
  by rewrite (indexOf_NoDup model _ i).
Qed.



(** ** [remove] *)

(** The collection after the three deletions of [remove(model)], before the
    index is rebuilt. *)
Definition removed (model pk : value) (c : Collection.t) : Collection.t :=
  Collection.with_persisted
    (splice (Collection.persisted c) (indexOf pk (Collection.persisted c)) 1 [])
    (Collection.with_modelMap
       (delete (to_key pk) (Collection.modelMap c))
       (Collection.with_models
          (splice (Collection.models c) (indexOf model (Collection.models c)) 1 [])
          (Collection.with_clean false c))).

Lemma Collection_remove_run fuel this r st c m :
  heap st !! this = Some (OCollection c) -> heap st !! r = Some (OModel m) ->
  Collection_remove fuel this (VRef r) st
  = (Collection_rebuildMap this >>
     Events_trigger fuel this "change" >>
     Events_trigger fuel this "remove")
      (set_obj this (OCollection (removed (VRef r) (Model_get m "pk") c)) st).
Proof.
  intros Hc Hm. assert (this <> r) as Hne by congruence.
  assert (forall o, heap (set_obj this o st) !! r = Some (OModel m)) as Hm'.
  { intros o. by rewrite lookup_set_obj_ne. }
  assert (forall o, heap (set_obj this o st) !! this = Some o) as Hc'.
  { intros o. apply lookup_set_obj_eq. eauto. }
  unfold Collection_remove.
  erewrite bind_Ok_l; [|by apply modify_collection_run].
  erewrite bind_Ok_l; [|by apply modify_collection_run].
  rewrite set_obj_set_obj.
  erewrite bind_Ok_l; [|by apply pk_of_run].
  erewrite bind_Ok_l; [|by apply modify_collection_run].
  rewrite set_obj_set_obj.
  erewrite bind_Ok_l; [|by apply pk_of_run].
  erewrite bind_Ok_l; [|by apply modify_collection_run].
  rewrite set_obj_set_obj. unfold removed. by destruct c.
Qed.

(** Dropping members and the index entry of a key none of the remaining
    members has keeps the remaining members resolvable. *)
Lemma resolvable_removed st c l k p b :
  resolvable st c -> l `sublist_of` Collection.models c ->
  (forall v, v ∈ l -> member_key st v <> Some k) ->
  resolvable st
    (Collection.with_persisted p
       (Collection.with_modelMap (delete k (Collection.modelMap c))
          (Collection.with_models l (Collection.with_clean b c)))).
Proof.
  intros ([Hvalid Hinj] & Hnd & Hres) Hsub Hk. split; [split|split]; simpl.
  - intros k' a [_ Hk']%lookup_delete_Some. by eapply Hvalid.
  - intros k1 k2 a [_ H1]%lookup_delete_Some [_ H2]%lookup_delete_Some.
    by eapply Hinj.
  - eapply sublist_NoDup; [exact Hnd|]. by apply fmap_sublist.
  - intros v Hv. destruct (Hres v) as (k' & Hk' & Hl' & Hin).
    { by eapply elem_of_sublist. }
    exists k'. split; [done|]. split; [done|].
    apply lookup_delete_is_Some. split; [|done].
    intros ->. by eapply Hk.
Qed.

(** With acyclic wiring, [remove] returns whenever the members that remain
    resolve in what remains of the index, and leaves the collection dirty
    and indexed. *)
Lemma Collection_remove_total rank fuel this st c r m :
  wired rank st -> heap st !! this = Some (OCollection c) ->
  heap st !! r = Some (OModel m) ->
  resolvable st (removed (VRef r) (Model_get m "pk") c) ->
  (rank this < fuel)%nat ->
  exists st' c' t1 t2,
    Collection_remove fuel this (VRef r) st = Ok tt st' /\
    heap st' !! this = Some (OCollection c') /\
    Collection.models c'
    = splice (Collection.models c) (indexOf (VRef r) (Collection.models c)) 1 [] /\
    Collection.persisted c'
    = splice (Collection.persisted c)
        (indexOf (Model_get m "pk") (Collection.persisted c)) 1 [] /\
    Collection.clean c' = false /\
    indexed st' c' /\ wired rank st' /\
    log st' = log st ++ Emitted this "change" :: t1 ++
                        Emitted this "remove" :: t2 /\
    (forall v, member_key st' v = member_key st v) /\
    (forall v, member_lookup st' v = member_lookup st v).
Proof.
  intros Hw Hc Hm Hres Hfuel.
  set (c1 := removed (VRef r) (Model_get m "pk") c) in *.
  set (st1 := set_obj this (OCollection c1) st).
  assert (is_collection st this) as Hic by (by exists c).
  assert (heap st1 !! this = Some (OCollection c1)) as Hc1.
  { apply lookup_set_obj_eq. eauto. }
  assert (resolvable st1 c1) as Hres1.
  { apply (resolvable_keys st); [| |done].
    - intros v. by apply member_key_set_collection.
    - intros v. by apply member_lookup_set_collection. }
  destruct (rebuildMap_spec this st1 c1 Hc1 Hres1)
    as (c2 & Hrun & Hsuper & Hmodels & Hpers & Hclean & Hidx).
  unfold st1 in Hrun at 2. rewrite set_obj_set_obj in Hrun.
  set (st2 := set_obj this (OCollection c2) st) in *.
  assert (wired rank st2) as Hw2.
  { apply (wired_set_obj rank st this (OCollection c)); [done|done|].
    split; [|done]. simpl. rewrite Hsuper. by destruct c. }
  assert (heap st2 !! this = Some (OCollection c2)) as Hc2.
  { apply lookup_set_obj_eq. eauto. }
  destruct (trigger_total rank fuel this "change" st2 Hw2)
    as (st3 & t1 & Hrun3 & E3 & Hw3 & Hlog3 & Hframe3 & _); [done|eauto|done|].
  assert (heap st3 !! this = Some (OCollection c2)) as Hc3 by (by rewrite Hframe3).
  destruct (trigger_total rank fuel this "remove" st3 Hw3)
    as (st4 & t2 & Hrun4 & E4 & Hw4 & Hlog4 & Hframe4 & _); [done|eauto|done|].
  destruct (keys_evolves _ _ (evolves_trans _ _ _ E3 E4)) as [Hk Hl].
  exists st4, c2, t1, t2. split.
  { erewrite Collection_remove_run by done. fold c1. fold st1.
    erewrite bind_Ok_l; [|done]. erewrite bind_Ok_l; [|done]. done. }
  split; [by rewrite Hframe4|].
  split; [by rewrite Hmodels; destruct c|].
  split; [by rewrite Hpers; destruct c|].
  split; [by rewrite Hclean; destruct c|].
  split.
  { apply (indexed_keys st1); [| |done].
    - intros v. rewrite Hk. unfold st2, st1.
      by rewrite !member_key_set_collection.
    - intros v. rewrite Hl. unfold st2, st1.
      by rewrite !member_lookup_set_collection. }
  split; [done|]. split.
  { rewrite Hlog4, Hlog3. simpl. by rewrite <- app_assoc. }
  split.
  - intros v. rewrite Hk. by apply member_key_set_collection.
  - intros v. rewrite Hl. by apply member_lookup_set_collection.
Qed.

Lemma take_pred_snoc {A} (l : list A) :
  l <> [] -> exists x, l = take (length l - 1) l ++ [x].
Proof.
  destruct l as [|y l _] using rev_ind; [done|]. intros _. exists y.
  rewrite length_app. simpl.
  replace (length l + 1 - 1)%nat with (length l) by lia.
  by rewrite take_app_length.
Qed.

(** The four members of [st_four], persisted as a collection, and two
    records that were never added: one at address 5 with the pk ["1"] of
    the first member, one at address 6 with the pk ["9"] of no member. *)
Definition st_strangers : state :=
  Eval vm_compute in
  state_of ((Collection_persist 1 0 >>
             FooModel_new 1 "1" >>
             FooModel_new 1 "9") st_four).

(** C9, as stated, fails for a record that is not a member but has the pk
    of a member other than the last: [remove] deletes that member's index
    entry, and the rebuild then reads a field of the missing entry. *)
Lemma C9_counterexample :
  Collection.models (the_collection st_strangers 0)
  = [VRef 1; VRef 2; VRef 3; VRef 4] /\
  member_key st_strangers (VRef 5) = Some "1" /\
  member_key st_strangers (VRef 1) = Some "1" /\
  forall fuel, Collection_remove fuel 0 (VRef 5) st_strangers = Err TypeError.
Proof. repeat split; vm_compute; reflexivity. Qed.

(** C9, amended.  In a non-empty collection whose members resolve in its
    index, under acyclic wiring, [remove(r)] of a record [r] that is not a
    member, whose pk is the pk of no member but possibly the last and is
    not among the persisted pks, returns; it drops the last member, drops
    the last persisted pk when there is one, leaves the collection dirty,
    and emits ['change'] and then ['remove']. *)
Theorem C9_remove_of_stranger_drops_last rank fuel this st c r m :
  wired rank st -> heap st !! this = Some (OCollection c) -> resolvable st c ->
  heap st !! r = Some (OModel m) -> (rank this < fuel)%nat ->
  Collection.models c <> [] ->
  VRef r ∉ Collection.models c ->
  Some (pk_key m) ∉
    member_key st <$> take (length (Collection.models c) - 1) (Collection.models c) ->
  Model_get m "pk" ∉ Collection.persisted c ->
  exists st' c' t1 t2,
    Collection_remove fuel this (VRef r) st = Ok tt st' /\
    heap st' !! this = Some (OCollection c') /\
    (exists last, Collection.models c = Collection.models c' ++ [last]) /\
    (Collection.persisted c <> [] ->
     exists last, Collection.persisted c = Collection.persisted c' ++ [last]) /\
    (Collection.persisted c = [] -> Collection.persisted c' = []) /\
    Collection.clean c' = false /\
    log st' = log st ++ Emitted this "change" :: t1 ++
                        Emitted this "remove" :: t2.
Proof.
  intros Hw Hc Hres Hm Hfuel Hne Hr Hkey Hpk.
  destruct (Collection_remove_total rank fuel this st c r m)
    as (st' & c' & t1 & t2 & Hrun & Hc' & Hmodels & Hpers & Hclean & _ & _ & Hlog & _);
    try done.
  { unfold removed. rewrite (splice_absent _ _ Hr).
    apply resolvable_removed; [done|apply sublist_take|].
    intros v Hv Hk. apply Hkey. unfold pk_key. rewrite <- Hk.
    apply list_elem_of_fmap. eauto. }
  rewrite (splice_absent _ _ Hr) in Hmodels.
  rewrite (splice_absent _ _ Hpk) in Hpers.
  exists st', c', t1, t2. split; [done|]. split; [done|].
  rewrite Hmodels, Hpers. split; [by apply take_pred_snoc|].
  split; [by apply take_pred_snoc|]. split; [by intros ->|done].
Qed.

Lemma C9_remove_of_stranger_drops_last_witness :
  exists st' c',
    Collection_remove 1 0 (VRef 6) st_strangers = Ok tt st' /\
    heap st' !! 0%nat = Some (OCollection c') /\
    [VRef 1; VRef 2; VRef 3; VRef 4] = Collection.models c' ++ [VRef 4] /\
    [VStr "1"; VStr "2"; VStr "3"; VStr "4"]
    = Collection.persisted c' ++ [VStr "4"] /\
    Collection.clean c' = false.
Proof.
  destruct (C9_remove_of_stranger_drops_last rank_four 1 0 st_strangers
              (the_collection st_strangers 0) 6 (the_model st_strangers 6))
    as (st' & c' & t1 & t2 & Hrun & Hc' & [x Hx] & Hp & _ & Hclean & _).
  - apply wiredb_sound. vm_compute. reflexivity.
  - vm_compute. reflexivity.
  - apply resolvableb_sound. vm_compute. reflexivity.
  - vm_compute. reflexivity.
  - vm_compute. lia.
  - vm_compute. discriminate.
  - apply (bool_decide_unpack _). vm_compute. exact I.
  - apply (bool_decide_unpack _). vm_compute. exact I.
  - apply (bool_decide_unpack _). vm_compute. exact I.
  - destruct Hp as [p Hp]; [vm_compute; discriminate|].
    exists st', c'. split; [assumption|]. split; [assumption|].
    change (Collection.models (the_collection st_strangers 0))
      with ([VRef 1; VRef 2; VRef 3] ++ [VRef 4]) in Hx.
    change (Collection.persisted (the_collection st_strangers 0))
      with ([VStr "1"; VStr "2"; VStr "3"] ++ [VStr "4"]) in Hp.
    apply app_inj_tail in Hx as [<- <-]. apply app_inj_tail in Hp as [<- <-].
    repeat split; assumption.
Defined.

(** ** A cascade other than ['change:pk'] leaves every index alone *)

(** The index of the collection at an address: its key map and the entries
    the map points to. *)
Definition index_at (st : state) (t : ref)
  : option (gmap string nat * list ModelMeta.t) :=
  match heap st !! t with
  | Some (OCollection c) => Some (Collection.modelMap c, Collection.metas c)
  | _ => None
  end.

Lemma index_at_add_log e st t : index_at (add_log e st) t = index_at st t.
Proof. done. Qed.





(** ** How a rebuild can end *)

















(** ** [add] and the index *)

(** [add] of a record that no member shares its pk with, and that the
    rebuild will look up under that pk, leaves the collection indexed. *)
Lemma indexed_add_index st c r m change changePK :
  indexed st c -> member_model st (VRef r) = Some m ->
  Some (pk_key m) ∉ member_key st <$> Collection.models c ->
  lookup_key m = pk_key m ->
  indexed st (add_index (Model_get m "pk") change changePK (VRef r) c).
Proof.
  intros [([Hvalid Hinj] & Hnd & Hres) Hpos] Hm Hfresh Hlook.
  assert (member_key st (VRef r) = Some (pk_key m)) as Hkey.
  { unfold member_key. by rewrite Hm. }
  assert (forall k a, Collection.modelMap c !! k = Some a ->
                      (a < length (Collection.metas c))%nat) as Hlt.
  { intros k a Hk. apply lookup_lt_is_Some. by eapply Hvalid. }
  fold (pk_key m). unfold add_index.
  split; [split; [split|split]|]; simpl.
  - intros k a [[<- <-]|[Hne Hk]]%lookup_insert_Some.
    + rewrite list_lookup_middle by done. eauto.
    + destruct (Hvalid k a Hk) as [meta Hmeta].
      exists meta. by apply lookup_app_l_Some.
  - intros k1 k2 a [[<- <-]|[Hne1 H1]]%lookup_insert_Some
                   [[<- Ha]|[Hne2 H2]]%lookup_insert_Some; try done.
    + apply Hlt in H2. lia.
    + apply Hlt in H1. lia.
    + by eapply Hinj.
  - rewrite fmap_app. apply NoDup_app. split; [done|]. split.
    + intros k Hk [->|[]%elem_of_nil]%elem_of_cons. simpl in Hk.
      by rewrite Hkey in Hk.
    + simpl. apply NoDup_singleton.
  - intros v [Hv|[->|[]%elem_of_nil]%elem_of_cons]%elem_of_app.
    + destruct (Hres v Hv) as (k & Hk & Hl & Hin). exists k.
      split; [done|]. split; [done|]. apply lookup_insert_is_Some'. by right.
    + exists (pk_key m). split; [done|]. split.
      * unfold member_lookup. rewrite Hm. simpl. by rewrite Hlook.
      * apply lookup_insert_is_Some'. by left.
  - intros i v [[Hi Hv]|[-> <-]]%lookup_snoc_Some.
    + destruct (Hpos i v Hv) as (k & a & meta & Hk & Ha & Hmeta & Hidx).
      exists k, a, meta. split; [done|]. split; [|split; [|done]].
      * rewrite lookup_insert_ne; [done|]. intros <-. apply Hfresh.
        unfold pk_key. rewrite <- Hk. apply list_elem_of_fmap. exists v. split; [done|].
        by eapply list_elem_of_lookup_2.
      * by apply lookup_app_l_Some.
    + exists (pk_key m), (length (Collection.metas c)),
        (ModelMeta.mk (length (Collection.models c)) change changePK).
      split; [done|]. split; [by rewrite lookup_insert_eq|].
      split; [by rewrite list_lookup_middle|done].
Qed.

Lemma keys_added st this r c m :
  heap st !! this = Some (OCollection c) -> heap st !! r = Some (OModel m) ->
  (forall v, member_key (added this r c m st) v = member_key st v) /\
  (forall v, member_lookup (added this r c m st) v = member_lookup st v).
Proof.
  intros Hc Hm. assert (this <> r) as Hne by congruence.
  assert (forall v, (exists m1 m2, member_model (added this r c m st) v = Some m1 /\
                                    member_model st v = Some m2 /\
                                    Model.fields m1 = Model.fields m2 /\
                                    Model.persisted m1 = Model.persisted m2) \/
                    (member_model (added this r c m st) v = None /\
                     member_model st v = None)) as Hcases.
  { intros [| | |r']; try (by right). simpl.
    destruct (decide (r' = this)) as [->|Hne1].
    { right. rewrite list_lookup_insert_eq; [by rewrite Hc|].
      rewrite length_insert. by eapply lookup_lt_Some. }
    rewrite list_lookup_insert_ne by done.
    destruct (decide (r' = r)) as [->|Hne2].
    { left. rewrite list_lookup_insert_eq by (by eapply lookup_lt_Some).
      rewrite Hm. eexists _, _. split; [done|]. split; [done|]. by destruct m. }
    rewrite list_lookup_insert_ne by done.
    destruct (heap st !! r') as [[|m'|]|]; try (by right).
    left. by exists m', m'. }
  split; intros v; unfold member_key, member_lookup;
    destruct (Hcases v) as [(m1 & m2 & -> & -> & Hf & Hp)|[-> ->]]; try done;
    simpl; unfold pk_key, lookup_key, Model_get; by rewrite ?Hf, ?Hp.
Qed.

Lemma Collection_add_indexed rank fuel this r st c m :
  wired rank st -> heap st !! this = Some (OCollection c) ->
  heap st !! r = Some (OModel m) -> indexed st c ->
  (rank this < rank r)%nat -> (rank this < fuel)%nat ->
  Some (pk_key m) ∉ member_key st <$> Collection.models c ->
  lookup_key m = pk_key m ->
  exists st' c',
    Collection_add fuel this (VRef r) st = Ok tt st' /\
    heap st' !! this = Some (OCollection c') /\
    Collection.models c' = Collection.models c ++ [VRef r] /\
    indexed st' c' /\ wired rank st'.
Proof.
  intros Hw Hc Hm Hidx Hrank Hfuel Hfresh Hlook.
  destruct (Collection_add_total rank fuel this r st c m)
    as (st' & t1 & t2 & Hrun & _ & Hw' & E & Hframe & _); try done.
  assert (this <> r) as Hne by congruence.
  set (idx := Events.eventIndex (Model.super m)).
  set (c1 := add_index (Model_get m "pk") (S idx) (S (S idx)) (VRef r) c).
  assert (heap (added this r c m st) !! this = Some (OCollection c1)) as Hc1.
  { unfold added. rewrite lookup_set_obj_eq; [done|].
    rewrite lookup_set_obj_ne by done. eauto. }
  exists st', c1. split; [done|].
  split; [by rewrite Hframe|]. split; [done|]. split; [|done].
  destruct (keys_evolves _ _ E) as [Hk Hl].
  destruct (keys_added st this r c m Hc Hm) as [Hk0 Hl0].
  apply (indexed_keys st).
  - intros v. by rewrite Hk, Hk0.
  - intros v. by rewrite Hl, Hl0.
  - apply indexed_add_index; try done. simpl. by rewrite Hm.
Qed.

(** ** What the index gives *)

Lemma member_is_model st c v :
  resolvable st c -> v ∈ Collection.models c ->
  exists r m, v = VRef r /\ heap st !! r = Some (OModel m) /\
              member_model st v = Some m.
Proof.
  intros (_ & _ & Hres) Hv. destruct (Hres v Hv) as (k & Hk & _).
  unfold member_key in Hk. destruct v as [| | |r]; try done. simpl in *.
  destruct (heap st !! r) as [[|m|]|] eqn:Hr; try done. eauto.
Qed.

Lemma nth_Z_of_nat {A} (l : list A) (i : nat) : nth_Z l (Z.of_nat i) = l !! i.
Proof.
  unfold nth_Z. destruct (Z.ltb_spec (Z.of_nat i) 0) as [Hneg|_]; [lia|].
  by rewrite Nat2Z.id.
Qed.

Lemma index_of_pk_run st c (i : nat) v m :
  indexed st c -> Collection.models c !! i = Some v ->
  member_model st v = Some m ->
  forall pk s, to_key pk = pk_key m -> index_of_pk c pk s = Ok i s.
Proof.
  intros [_ Hpos] Hi Hm pk s Hpk.
  destruct (Hpos i v Hi) as (k & a & meta & Hk & Ha & Hmeta & Hidx).
  unfold member_key in Hk. rewrite Hm in Hk. injection Hk as <-.
  unfold index_of_pk. by rewrite Hpk, Ha, Hmeta, Hidx.
Qed.

(** In an indexed collection, [get] of a member's pk and [at] of its
    position both answer the member. *)
Lemma indexed_get this st c (i : nat) v :
  heap st !! this = Some (OCollection c) -> indexed st c ->
  Collection.models c !! i = Some v ->
  exists pk,
    pk_of v st = Ok pk st /\
    Collection_get this pk st = Ok v st /\
    Collection_at c (Z.of_nat i) = v.
Proof.
  intros Hc Hidx Hi.
  destruct (member_is_model st c v (proj1 Hidx)) as (r & m & -> & Hr & Hm).
  { by eapply list_elem_of_lookup_2. }
  assert (Collection_at c (Z.of_nat i) = VRef r) as Hat.
  { unfold Collection_at. by rewrite nth_Z_of_nat, Hi. }
  exists (Model_get m "pk"). split; [by apply pk_of_run|]. split; [|done].
  unfold Collection_get. erewrite bind_Ok_l; [|by apply get_collection_run].
  erewrite bind_Ok_l; [|by eapply index_of_pk_run]. by rewrite Hat.
Qed.

(** ** Removing a member *)

Lemma Collection_remove_member rank fuel this st c r (i : nat) :
  wired rank st -> heap st !! this = Some (OCollection c) -> indexed st c ->
  (rank this < fuel)%nat -> Collection.models c !! i = Some (VRef r) ->
  exists st' c',
    Collection_remove fuel this (VRef r) st = Ok tt st' /\
    heap st' !! this = Some (OCollection c') /\
    Collection.models c' = delete i (Collection.models c) /\
    indexed st' c' /\ wired rank st'.
Proof.
  intros Hw Hc [Hres Hpos] Hfuel Hi.
  destruct (member_is_model st c (VRef r) Hres)
    as (r' & m & [= <-] & Hr & Hm); [by eapply list_elem_of_lookup_2|].
  pose proof (resolvable_NoDup _ _ Hres) as Hnd.
  pose proof (lookup_lt_Some _ _ _ Hi) as Hlt.
  assert (splice (Collection.models c)
            (indexOf (VRef r) (Collection.models c)) 1 []
          = delete i (Collection.models c)) as Hsplice.
  { rewrite (indexOf_NoDup _ _ i) by done. by apply splice_delete. }
  destruct (Collection_remove_total rank fuel this st c r m)
    as (st' & c' & t1 & t2 & Hrun & Hc' & Hmodels & _ & _ & Hidx' & Hw' & _);
    try done.
  { unfold removed. rewrite Hsplice.
    apply resolvable_removed; [done|apply sublist_delete|].
    intros v [j Hj]%list_elem_of_lookup Hk.
    destruct Hres as (_ & Hkeys & _).
    assert (member_key st (VRef r) = Some (pk_key m)) as Hkr.
    { unfold member_key. by rewrite Hm. }
    assert (exists j', j' <> i /\ Collection.models c !! j' = Some v)
      as (j' & Hne & Hj').
    { destruct (decide (j < i)%nat).
      - exists j. split; [lia|]. by rewrite list_lookup_delete_lt in Hj.
      - exists (S j). split; [lia|]. by rewrite list_lookup_delete_ge in Hj by lia. }
    apply Hne.
    apply (NoDup_lookup _ j' i (Some (pk_key m)) Hkeys);
      rewrite list_lookup_fmap.
    - by rewrite Hj'; simpl; rewrite Hk.
    - by rewrite Hi; simpl; rewrite Hkr. }
  exists st', c'. rewrite Hmodels, Hsplice. done.
Qed.

(** ** Sequences of [add], [remove] and [move] *)

(** The calls under which the index is kept: [add] of a model above the
    collection in the wiring whose pk no member has and which the rebuild will
    look up under that pk; [remove] and [move] of a member; [removeAt]
    and [moveAt] at a valid index; [removeBy] and [moveBy] with the pk of
    a member. *)
Definition admissible (rank : ref -> nat) (this : ref) (st : state)
    (mu : mutation) : bool :=
  let models := Collection.models (the_collection st this) in
  let keys := member_key st <$> models in
  match mu with
  | Add v =>
      match v with
      | VRef r =>
          is_modelb st r && bool_decide (rank this < rank r)%nat &&
          bool_decide (member_key st v ∉ keys) &&
          bool_decide (member_lookup st v = member_key st v)
      | _ => false
      end
  | Remove v | Move v _ => bool_decide (v ∈ models)
  | RemoveAt i | MoveAt i _ => bool_decide (0 <= i < Z.of_nat (length models))
  | RemoveBy pk | MoveBy pk _ => bool_decide (Some (to_key pk) ∈ keys)
  end.

(** Each call of the sequence is admissible in the state the calls before
    it lead to. *)
Fixpoint admissible_all (rank : ref -> nat) (fuel : nat) (this : ref)
    (mus : list mutation) (st : state) : bool :=
  match mus with
  | [] => true
  | mu :: mus' =>
      admissible rank this st mu &&
      admissible_all rank fuel this mus' (state_of (mutate fuel this mu st))
  end.

Lemma remove_of_member rank fuel this st c v :
  wired rank st -> heap st !! this = Some (OCollection c) -> indexed st c ->
  (rank this < fuel)%nat -> v ∈ Collection.models c ->
  exists st' c',
    Collection_remove fuel this v st = Ok tt st' /\
    heap st' !! this = Some (OCollection c') /\
    indexed st' c' /\ wired rank st'.
Proof.
  intros Hw Hc Hidx Hfuel Hv.
  destruct (member_is_model st c v (proj1 Hidx) Hv) as (r & m & -> & _).
  apply list_elem_of_lookup in Hv as [i Hi].
  destruct (Collection_remove_member rank fuel this st c r i)
    as (st' & c' & ? & ? & _ & ? & ?); try done.
  by exists st', c'.
Qed.

Lemma move_at_valid rank fuel this st c (i : nat) offset :
  wired rank st -> heap st !! this = Some (OCollection c) -> indexed st c ->
  (rank this < fuel)%nat -> (i < length (Collection.models c))%nat ->
  exists st' c',
    Collection_moveAt fuel this (Z.of_nat i) offset st = Ok tt st' /\
    heap st' !! this = Some (OCollection c') /\
    indexed st' c' /\ wired rank st'.
Proof.
  intros Hw Hc [Hres _] Hfuel [x Hx]%lookup_lt_is_Some.
  destruct (Collection_moveAt_total rank fuel this st c i offset x)
    as (st' & c' & t & ? & ? & _ & _ & _ & ? & ? & _); try done.
  by exists st', c'.
Qed.

Lemma member_of_key st c pk :
  indexed st c -> Some (to_key pk) ∈ member_key st <$> Collection.models c ->
  exists (i : nat) v,
    Collection.models c !! i = Some v /\
    forall s, index_of_pk c pk s = Ok i s.
Proof.
  intros Hidx (v & Hk & [i Hi]%list_elem_of_lookup)%list_elem_of_fmap.
  exists i, v. split; [done|]. intros s.
  unfold member_key in Hk. destruct (member_model st v) as [m|] eqn:Hm; [|done].
  injection Hk as Hk. by eapply index_of_pk_run.
Qed.

(** An admissible call returns and leaves the collection indexed. *)
Lemma mutate_indexed rank fuel this st c mu :
  wired rank st -> heap st !! this = Some (OCollection c) -> indexed st c ->
  (rank this < fuel)%nat -> admissible rank this st mu = true ->
  exists st' c',
    mutate fuel this mu st = Ok tt st' /\
    heap st' !! this = Some (OCollection c') /\
    indexed st' c' /\ wired rank st'.
Proof.
  intros Hw Hc Hidx Hfuel Hadm. unfold admissible, the_collection in Hadm.
  rewrite Hc in Hadm.
  destruct mu as [v|v|i|pk|v offset|i offset|pk offset]; simpl.
  - destruct v as [| | |r]; try done.
    apply andb_true_iff in Hadm as [Hadm Hlook%bool_decide_eq_true].
    apply andb_true_iff in Hadm as [Hadm Hfresh%bool_decide_eq_true].
    apply andb_true_iff in Hadm as [[m Hm]%is_modelb_true Hrank%bool_decide_eq_true].
    unfold member_lookup, member_key in Hlook, Hfresh. simpl in Hlook, Hfresh.
    rewrite Hm in Hlook, Hfresh. simpl in Hlook, Hfresh. injection Hlook as Hlook.
    destruct (Collection_add_indexed rank fuel this r st c m)
      as (st' & c' & ? & ? & _ & ? & ?); try done.
    by exists st', c'.
  - apply bool_decide_eq_true in Hadm. by eapply remove_of_member.
  - apply bool_decide_eq_true in Hadm. unfold Collection_removeAt.
    erewrite bind_Ok_l; [|by apply get_collection_run].
    assert (is_Some (Collection.models c !! Z.to_nat i)) as [v Hv].
    { apply lookup_lt_is_Some. lia. }
    replace i with (Z.of_nat (Z.to_nat i)) by lia.
    unfold Collection_at. rewrite nth_Z_of_nat, Hv. simpl.
    eapply remove_of_member; try done. by eapply list_elem_of_lookup_2.
  - apply bool_decide_eq_true in Hadm.
    destruct (member_of_key st c pk Hidx Hadm) as (i & v & Hi & Hrun).
    unfold Collection_removeBy, Collection_get.
    erewrite bind_Ok_l; cycle 1.
    { erewrite bind_Ok_l; [|by apply get_collection_run].
      erewrite bind_Ok_l; [|done]. done. }
    unfold Collection_at. rewrite nth_Z_of_nat, Hi. simpl.
    eapply remove_of_member; try done. by eapply list_elem_of_lookup_2.
  - apply bool_decide_eq_true, list_elem_of_lookup in Hadm as [i Hi].
    rewrite (Collection_move_run fuel this v offset st c i); try done.
    + eapply move_at_valid; try done. by eapply lookup_lt_Some.
    + by eapply resolvable_NoDup, Hidx.
  - apply bool_decide_eq_true in Hadm.
    replace i with (Z.of_nat (Z.to_nat i)) by lia.
    eapply move_at_valid; try done. lia.
  - apply bool_decide_eq_true in Hadm.
    destruct (member_of_key st c pk Hidx Hadm) as (i & v & Hi & Hrun).
    unfold Collection_moveBy.
    erewrite bind_Ok_l; [|by apply get_collection_run].
    erewrite bind_Ok_l; [|done].
    eapply move_at_valid; try done. by eapply lookup_lt_Some.
Qed.

Lemma indexed_new st : indexed st Collection.new.
Proof.
  split; [split; [split|split]|]; simpl.
  - intros k a Hk. by rewrite lookup_empty in Hk.
  - intros k k' a Hk. by rewrite lookup_empty in Hk.
  - apply NoDup_nil_2.
  - by intros v Hv%elem_of_nil.
  - by intros i v Hi.
Qed.

Lemma mutate_all_indexed rank fuel this : forall mus st c,
  wired rank st -> heap st !! this = Some (OCollection c) -> indexed st c ->
  (rank this < fuel)%nat -> admissible_all rank fuel this mus st = true ->
  exists st' c',
    forEach mus (mutate fuel this) st = Ok tt st' /\
    heap st' !! this = Some (OCollection c') /\
    indexed st' c' /\ wired rank st'.
Proof.
  induction mus as [|mu mus IH]; intros st c Hw Hc Hidx Hfuel Hadm.
  { by exists st, c. }
  simpl in Hadm. apply andb_true_iff in Hadm as [Hmu Hadm].
  destruct (mutate_indexed rank fuel this st c mu)
    as (st1 & c1 & Hrun & Hc1 & Hidx1 & Hw1); try done.
  rewrite Hrun in Hadm. simpl in Hadm.
  destruct (IH st1 c1) as (st' & c' & Hrun' & ?); try done.
  exists st', c'. split; [|done]. simpl. by erewrite bind_Ok_l.
Qed.

(** The two records of the collection at address 0 were both built with
    the pk ["1"] and both added. *)
Definition st_twins : state :=
  Eval vm_compute in
  state_of ((Collection_new >>
             FooModel_new 1 "1" >>
             FooModel_new 1 "1" >>
             Collection_add 1 0 (VRef 1) >>
             Collection_add 1 0 (VRef 2)) init).

(** C1, as stated, fails: [add] takes a record whose pk a member already
    has.  Then two members share a pk, and [get] of the pk of the first
    answers the second. *)
Lemma C1_counterexample :
  (Collection_new >>
   FooModel_new 1 "1" >>
   FooModel_new 1 "1" >>
   Collection_add 1 0 (VRef 1) >>
   Collection_add 1 0 (VRef 2)) init = Ok tt st_twins /\
  Collection_all (the_collection st_twins 0) = [VRef 1; VRef 2] /\
  pk_of (VRef 1) st_twins = Ok (VStr "1") st_twins /\
  pk_of (VRef 2) st_twins = Ok (VStr "1") st_twins /\
  Collection_get 0 (VStr "1") st_twins = Ok (VRef 2) st_twins.
Proof. repeat split; vm_compute; reflexivity. Qed.

(** C1, amended.  Start from an indexed collection, for instance a new one,
    under acyclic wiring, and run any sequence of calls of [add], [remove]
    and [move] and their variants in which every [add] brings a record
    whose pk no member has and that was not persisted under another pk,
    and every [remove] and [move] names a member, a valid index or the
    pk of a member.  Every call returns, and afterwards no two members
    share a pk, and for the member [v] at position [i] of [all()]:
    [get(v.pk)] is [v], [at(i)] is [v], and the index entry under [v.pk]
    holds the position [i]. *)
Theorem C1_index_follows_admissible_calls rank fuel this mus st c :
  wired rank st -> heap st !! this = Some (OCollection c) -> indexed st c ->
  (rank this < fuel)%nat -> admissible_all rank fuel this mus st = true ->
  exists st' c',
    forEach mus (mutate fuel this) st = Ok tt st' /\
    heap st' !! this = Some (OCollection c') /\
    NoDup (member_key st' <$> Collection_all c') /\
    forall (i : nat) v,
      Collection_all c' !! i = Some v ->
      exists pk a meta,
        pk_of v st' = Ok pk st' /\
        Collection_get this pk st' = Ok v st' /\
        Collection_at c' (Z.of_nat i) = v /\
        Collection.modelMap c' !! to_key pk = Some a /\
        Collection.metas c' !! a = Some meta /\
        ModelMeta.index meta = i.
Proof.
  intros Hw Hc Hidx Hfuel Hadm.
  destruct (mutate_all_indexed rank fuel this mus st c)
    as (st' & c' & Hrun & Hc' & Hidx' & _); try done.
  exists st', c'. split; [done|]. split; [done|].
  split; [apply Hidx'|]. unfold Collection_all. intros i v Hi.
  destruct (indexed_get this st' c' i v Hc' Hidx' Hi) as (pk & Hpk & Hget & Hat).
  destruct Hidx' as [_ Hpos].
  destruct (Hpos i v Hi) as (k & a & meta & Hk & Ha & Hmeta & Hindex).
  exists pk, a, meta. do 3 (split; [done|]). split; [|done].
  apply pk_of_member_pk in Hpk as [Hpk _].
  unfold member_key in Hk. destruct v as [| | |r]; try done. simpl in *.
  destruct (heap st' !! r) as [[|m|]|]; try done.
  simpl in Hk. injection Hk as <-. injection Hpk as <-. done.
Qed.

(** A new collection at address 0 and three records with the pks ["1"],
    ["2"], ["3"] at the addresses 1, 2, 3. *)
Definition st_fresh : state :=
  Eval vm_compute in
  state_of ((Collection_new >>
             FooModel_new 1 "1" >>
             FooModel_new 1 "2" >>
             FooModel_new 1 "3") init).

Lemma C1_index_follows_admissible_calls_witness :
  exists st' c',
    forEach [Add (VRef 1); Add (VRef 2); Add (VRef 3); Move (VRef 1) 5;
             RemoveBy (VStr "2"); MoveAt 0 1]
      (mutate 1 0) st_fresh = Ok tt st' /\
    heap st' !! 0%nat = Some (OCollection c') /\
    NoDup (member_key st' <$> Collection_all c') /\
    forall (i : nat) v,
      Collection_all c' !! i = Some v ->
      exists pk a meta,
        pk_of v st' = Ok pk st' /\
        Collection_get 0 pk st' = Ok v st' /\
        Collection_at c' (Z.of_nat i) = v /\
        Collection.modelMap c' !! to_key pk = Some a /\
        Collection.metas c' !! a = Some meta /\
        ModelMeta.index meta = i.
Proof.
  apply (C1_index_follows_admissible_calls rank_four 1 0 _ st_fresh
           Collection.new).
  - apply wiredb_sound. vm_compute. reflexivity.
  - vm_compute. reflexivity.
  - apply indexed_new.
  - vm_compute. lia.
  - vm_compute. reflexivity.
Defined.

(** * Further properties of the event core *)

(** ** [trigger] *)

Lemma observers_loop fuel x name o ids :
  Forall2 (fun h id => Events.events (ev_of o) !! h = Some (Spy id))
          (default [] (Events.map (ev_of o) !! name)) ids ->
  forall n k st,
    heap st !! x = Some o ->
    (k + n = length (default [] (Events.map (ev_of o) !! name)))%nat ->
    forEach_live (subscribers x name) (invoke (Events_trigger fuel) x) k n st
    = Ok tt (mkState (heap st) (log st ++ (Called <$> drop k ids))).
Proof.
  intros Hids. pose proof (Forall2_length _ _ _ Hids) as Hlen.
  induction n as [|n IH]; intros k st Ho Hk; simpl.
  { rewrite drop_ge by lia. simpl. rewrite app_nil_r. by destruct st. }
  erewrite bind_Ok_l; [|by apply subscribers_run].
  assert (is_Some (default [] (Events.map (ev_of o) !! name) !! k)) as [h Hh].
  { apply lookup_lt_is_Some. lia. }
  rewrite Hh.
  destruct (Forall2_lookup_l _ _ _ _ _ Hids Hh) as (id & Hid & Hcb).
  erewrite bind_Ok_l; cycle 1.
  { unfold invoke. erewrite bind_Ok_l; [|by apply get_events_run].
    rewrite Hcb. simpl. unfold record. reflexivity. }
  rewrite IH by (done || lia). simpl.
  rewrite (drop_S ids id k Hid). simpl. by rewrite <- app_assoc.
Qed.

Lemma trigger_unobserved fuel x name st o :
  heap st !! x = Some o ->
  default [] (Events.map (ev_of o) !! name) = [] ->
  Events_trigger (S fuel) x name st
  = Ok tt (mkState (heap st) (log st ++ [Emitted x name])).
Proof.
  intros Ho Hnil. simpl. unfold trigger_body.
  erewrite bind_Ok_l; [|done]. fold_states.
  erewrite bind_Ok_l; [|by apply subscribers_run].
  erewrite (observers_loop fuel x name o []); [|by rewrite Hnil|done|done].
  simpl. by rewrite <- app_assoc.
Qed.


(** A bus with the observers 1 and 3 on ['foo'], in that order, and the
    observer 2 on ['bar']. *)
Definition st_bus : state :=
  Eval vm_compute in
  state_of ((let* b := Events_new in
             Events_on b "foo" (Spy 1) >>
             Events_on b "bar" (Spy 2) >>
             Events_on b "foo" (Spy 3)) init).

Definition the_events (st : state) (r : ref) : Events.t :=
  match heap st !! r with
  | Some o => ev_of o
  | None => Events.new
  end.


(** ** Handles *)

(** [tidy e]: no list of [e] holds a handle twice, and no handle that is
    listed or bound is beyond the counter. *)
Definition tidy (e : Events.t) : Prop :=
  (forall name l, Events.map e !! name = Some l ->
     NoDup l /\ forall h, h ∈ l -> (h <= Events.eventIndex e)%nat) /\
  (forall h cb, Events.events e !! h = Some cb -> (h <= Events.eventIndex e)%nat).

Lemma tidy_new : tidy Events.new.
Proof.
  split.
  - intros name l Hl. simpl in Hl. by rewrite lookup_empty in Hl.
  - intros h cb Hh. simpl in Hh. by rewrite lookup_empty in Hh.
Qed.

Lemma tidy_subscribers e name h :
  tidy e -> h ∈ default [] (Events.map e !! name) -> (h <= Events.eventIndex e)%nat.
Proof.
  intros [Hmap _] Hh. destruct (Events.map e !! name) as [l|] eqn:El.
  - destruct (Hmap name l El) as [_ Hle]. by apply Hle.
  - by apply not_elem_of_nil in Hh.
Qed.

Lemma tidy_on name cb e : tidy e -> tidy (snd (Events.on name cb e)).
Proof.
  intros He. pose proof He as [Hmap Hev]. split; simpl.
  - intros n l [[<- <-]|[Hne Hl]]%lookup_insert_Some.
    + split.
      * apply NoDup_app. split; [|split; [|apply NoDup_singleton]].
        { destruct (Events.map e !! name) as [l|] eqn:El; [|apply NoDup_nil_2].
          by destruct (Hmap name l El). }
        { intros h Hh ->%list_elem_of_singleton.
          apply (tidy_subscribers e name) in Hh; [lia|done]. }
      * intros h [Hh| ->%list_elem_of_singleton]%elem_of_app; [|lia].
        apply (tidy_subscribers e name) in Hh; [lia|done].
    + destruct (Hmap n l Hl) as [Hnd Hle]. split; [done|].
      intros h Hh. apply Hle in Hh. lia.
  - intros h cb' [[<- _]|[_ Hh]]%lookup_insert_Some; [lia|].
    apply Hev in Hh. lia.
Qed.

Lemma splice_one_delete {A} (l : list A) start :
  splice l start 1 [] = delete (splice_start (Z.of_nat (length l)) start) l.
Proof. unfold splice. simpl. by rewrite delete_take_drop, Nat.add_1_r. Qed.

Lemma tidy_off name h e : tidy e -> tidy (Events.off name h e).
Proof.
  intros He. pose proof He as [Hmap Hev]. unfold Events.off.
  destruct (Events.map e !! name) as [evts|] eqn:El; [|done].
  destruct (Hmap name evts El) as [Hnd Hle].
  split; simpl.
  - intros n l [[<- <-]|[Hne Hl]]%lookup_insert_Some; [|by apply (Hmap n)].
    rewrite splice_one_delete. split.
    + eapply sublist_NoDup; [done|apply sublist_delete].
    + intros h' Hh'. apply Hle. eapply elem_of_sublist; [done|].
      apply sublist_delete.
  - intros h' cb [_ Hh']%lookup_delete_Some. by eapply Hev.
Qed.

(** Handles are not reused: on an object whose handles are tidy, which
    [on] and [off] keep them, the handle [on] returns is listed under no
    name and bound to no callback, whatever was unsubscribed before. *)
Theorem handles_are_never_reused e name cb name' h' :
  tidy e ->
  tidy (snd (Events.on name cb e)) /\
  tidy (Events.off name' h' e) /\
  (forall n l, Events.map e !! n = Some l -> fst (Events.on name cb e) ∉ l) /\
  Events.events e !! fst (Events.on name cb e) = None.
Proof.
  intros He. split; [by apply tidy_on|]. split; [by apply tidy_off|].
  destruct He as [Hmap Hev]. simpl. split.
  - intros n l Hl Hin. destruct (Hmap n l Hl) as [_ Hle].
    apply Hle in Hin. lia.
  - destruct (Events.events e !! S (Events.eventIndex e)) as [cb'|] eqn:Hb;
      [|done].
    apply Hev in Hb. lia.
Qed.

Lemma handles_are_never_reused_witness :
  fst (Events.on "foo" (Spy 4) (Events.off "foo" 3 (the_events st_bus 0)))
  ∉ [1%nat; 3%nat].
Proof.
  assert (tidy (the_events st_bus 0)) as Ht.
  { change (the_events st_bus 0)
      with (snd (Events.on "foo" (Spy 3)
              (snd (Events.on "bar" (Spy 2)
                 (snd (Events.on "foo" (Spy 1) Events.new)))))).
    do 3 apply tidy_on. apply tidy_new. }
  destruct (handles_are_never_reused (the_events st_bus 0) "foo" (Spy 4) "foo" 3 Ht)
    as (_ & _ & Hfresh & _).
  change (fst (Events.on "foo" (Spy 4) (Events.off "foo" 3 (the_events st_bus 0))))
    with (fst (Events.on "foo" (Spy 4) (the_events st_bus 0))).
  apply (Hfresh "foo"). vm_compute. reflexivity.
Defined.

(** [off] of the handle [on] has just returned leaves, under every name,
    the subscribers that were there, in their order, and the callbacks that
    were bound; only the counter has moved. *)
Theorem off_undoes_on name cb e :
  tidy e ->
  let e' := Events.off name (fst (Events.on name cb e)) (snd (Events.on name cb e)) in
  (forall n, default [] (Events.map e' !! n) = default [] (Events.map e !! n)) /\
  Events.events e' = Events.events e /\
  Events.eventIndex e' = S (Events.eventIndex e).
Proof.
  intros He e'. unfold e'. change (fst (Events.on name cb e)) with (S (Events.eventIndex e)).
  rewrite off_on by (intros h Hh; by apply (tidy_subscribers e name)).
  simpl. split; [|split; [|done]].
  - intros n. destruct (decide (name = n)) as [<-|Hne].
    + by rewrite lookup_insert_eq.
    + by rewrite lookup_insert_ne.
  - apply delete_id. destruct He as [_ Hev].
    destruct (Events.events e !! S (Events.eventIndex e)) as [cb'|] eqn:Hb;
      [|done].
    apply Hev in Hb. lia.
Qed.

Lemma off_undoes_on_witness :
  Events.events (Events.off "foo" 1 (snd (Events.on "foo" (Spy 1) Events.new)))
  = Events.events Events.new /\
  forall n,
    default [] (Events.map
                  (Events.off "foo" 1 (snd (Events.on "foo" (Spy 1) Events.new)))
                !! n)
    = [].
Proof.
  destruct (off_undoes_on "foo" (Spy 1) Events.new tidy_new) as (H & H' & _).
  split; [exact H'|]. intros n. exact (H n).
Defined.

(** [off(name, h)] of a handle listed under [name] takes out that handle
    and its callback, and nothing else: the other subscribers of [name]
    keep their order, the other names their lists. *)
Theorem off_removes_that_handle_only name h e l :
  tidy e -> Events.map e !! name = Some l -> h ∈ l ->
  exists l1 l2,
    l = l1 ++ h :: l2 /\ (h ∉ l1 ++ l2) /\
    Events.map (Events.off name h e) !! name = Some (l1 ++ l2) /\
    (forall n, n <> name ->
       Events.map (Events.off name h e) !! n = Events.map e !! n) /\
    Events.events (Events.off name h e) = delete h (Events.events e) /\
    Events.eventIndex (Events.off name h e) = Events.eventIndex e.
Proof.
  intros [Hmap _] Hl [i Hi]%list_elem_of_lookup.
  destruct (Hmap name l Hl) as [Hnd _].
  exists (take i l), (drop (S i) l).
  split; [by rewrite take_drop_middle|]. split.
  { rewrite <- (take_drop_middle l i h Hi) in Hnd.
    apply NoDup_app in Hnd as (_ & Hleft & Hright%NoDup_cons).
    intros [Hin|Hin]%elem_of_app.
    - apply (Hleft h Hin). by left.
    - by destruct Hright. }
  unfold Events.off. rewrite Hl. simpl.
  rewrite (indexOf_NoDup h l i) by done.
  rewrite splice_delete by (by eapply lookup_lt_Some).
  rewrite delete_take_drop, lookup_insert_eq. split; [done|].
  split; [|done]. intros n Hn. by rewrite lookup_insert_ne.
Qed.

Lemma off_removes_that_handle_only_witness :
  Events.map (Events.off "foo" 1 (the_events st_bus 0)) !! "foo" = Some [3%nat].
Proof.
  assert (tidy (the_events st_bus 0)) as Ht.
  { change (the_events st_bus 0)
      with (snd (Events.on "foo" (Spy 3)
              (snd (Events.on "bar" (Spy 2)
                 (snd (Events.on "foo" (Spy 1) Events.new)))))).
    do 3 apply tidy_on. apply tidy_new. }
  destruct (off_removes_that_handle_only "foo" 1 (the_events st_bus 0)
              [1%nat; 3%nat] Ht)
    as (l1 & l2 & Hl & _ & Hmap & _).
  - vm_compute. reflexivity.
  - apply (bool_decide_unpack _). vm_compute. exact I.
  - rewrite Hmap. f_equal.
    destruct l1 as [|a l1].
    + simpl in Hl. by injection Hl as <-.
    + simpl in Hl. injection Hl as -> Hl.
      destruct l1 as [|b l1]; simpl in Hl.
      * by injection Hl.
      * injection Hl as -> Hl. by destruct l1.
Defined.

(** * Further properties of models *)

Lemma defaults_lookup {A} (x : A) (names : list string) (p : string) :
  default x ((list_to_map ((fun n => (n, x)) <$> names) : gmap string A) !! p) = x.
Proof.
  destruct (list_to_map _ !! p) as [y|] eqn:Hp; [|done]. simpl.
  apply elem_of_list_to_map_2, list_elem_of_fmap in Hp as (n & [= _ ->] & _).
  done.
Qed.

(** [new Model(pk)], for a class with the fields [declared]: the object is
    the next of the heap, it holds [pk], every other field is [undefined],
    nothing is in the snapshot, nobody is subscribed, the model is dirty, and
    the constructor has emitted ['change'] and ['change:pk']. *)
Theorem new_model_is_dirty_and_holds_its_pk fuel declared pk st :
  instanceof_Events pk = None ->
  exists m,
    Model_new (S fuel) declared pk st
    = Ok (length (heap st))
        (mkState (heap st ++ [OModel m])
           (log st ++ [Emitted (length (heap st)) "change";
                       Emitted (length (heap st)) "change:pk"])) /\
    Model_get m "pk" = pk /\
    (forall f, f <> "pk" -> Model_get m f = VUndef) /\
    (forall f, default VUndef (Model.persisted m !! f) = VUndef) /\
    Model.fieldNames m = "pk" :: declared /\
    Model.super m = Events.new /\
    Model.clean m = false.
Proof.
  intros Hpk. unfold Model_new.
  set (fieldNames := "pk" :: declared).
  set (undefs := list_to_map ((fun n => (n, VUndef)) <$> fieldNames)
                 : gmap string value).
  set (empties := list_to_map ((fun n => (n, [])) <$> fieldNames)
                  : gmap string (list nat)).
  set (m0 := Model.mk Events.new fieldNames undefs empties undefs false).
  set (this := length (heap st)).
  set (m1 := Model.with_clean false
               (Model.with_fields (<["pk" := pk]> undefs) m0)).
  exists m1.
  split; [|split; [|split; [|split; [|split]]]]; try done.
  - unfold alloc. erewrite bind_Ok_l; [|reflexivity].
    set (st1 := mkState (heap st ++ [OModel m0]) (log st)).
    assert (heap st1 !! this = Some (OModel m0)) as Hm0.
    { simpl. by rewrite list_lookup_middle. }
    erewrite bind_Ok_l; [reflexivity|].
    unfold Model_set.
    erewrite bind_Ok_l; cycle 1.
    { eapply unbind_current_plain; [done|].
      unfold Model_get, m0, undefs. cbn [Model.fields].
      by rewrite defaults_lookup. }
    erewrite bind_Ok_l; [|by apply bind_value_plain].
    erewrite bind_Ok_l; [|by apply modify_model_run].
    fold m1. set (st2 := set_obj this (OModel m1) st1).
    assert (heap st2 !! this = Some (OModel m1)) as Hm1.
    { apply lookup_set_obj_eq. eauto. }
    erewrite bind_Ok_l; cycle 1.
    { destruct fuel.
      - apply (trigger_unobserved 0 this "change" st2 _ Hm1).
        simpl. by rewrite lookup_empty.
      - apply (trigger_unobserved (S fuel) this "change" st2 _ Hm1).
        simpl. by rewrite lookup_empty. }
    change ("change:" +:+ "pk") with "change:pk".
    erewrite (trigger_unobserved fuel this "change:pk" _ (OModel m1));
      [| done | simpl; by rewrite lookup_empty].
    simpl. f_equal. f_equal.
    + rewrite insert_app_r_alt by done. by rewrite Nat.sub_diag.
    + by rewrite <- app_assoc.
  - unfold Model_get, m1, m0. cbn [Model.fields Model.with_clean Model.with_fields].
    by rewrite lookup_insert_eq.
  - intros f Hf. unfold Model_get, m1, m0.
    cbn [Model.fields Model.with_clean Model.with_fields].
    rewrite lookup_insert_ne by done. unfold undefs. apply defaults_lookup.
  - intros f. unfold m1, m0.
    cbn [Model.persisted Model.with_clean Model.with_fields].
    unfold undefs. apply defaults_lookup.
Qed.

Lemma new_model_is_dirty_and_holds_its_pk_witness :
  exists m,
    Model_new 1 ["bar"; "qux"] (VStr "1") init
    = Ok 0%nat (mkState [OModel m] [Emitted 0 "change"; Emitted 0 "change:pk"]) /\
    Model_get m "pk" = VStr "1" /\ Model.clean m = false.
Proof.
  destruct (new_model_is_dirty_and_holds_its_pk 0 ["bar"; "qux"] (VStr "1") init)
    as (m & Hrun & Hpk & _ & _ & _ & _ & Hclean); [reflexivity|].
  exists m. split; [exact Hrun|]. split; assumption.
Defined.






(** * Further properties of collections *)

(** ** [changed] *)

Lemma member_pk_model st v :
  member_pk st v = (fun m => Model_get m "pk") <$> member_model st v.
Proof.
  destruct v as [| | |r]; try done. simpl.
  by destruct (heap st !! r) as [[| |]|].
Qed.

Lemma member_pk_evolves st st' v :
  evolves st st' -> member_pk st' v = member_pk st v.
Proof.
  intros E. rewrite !member_pk_model.
  destruct (member_model st v) as [m|] eqn:Hm.
  - destruct (member_model_evolves _ _ _ _ E Hm) as (m' & -> & Hf & _).
    simpl. unfold Model_get. by rewrite Hf.
  - by rewrite (member_model_evolves_None _ _ _ E Hm).
Qed.

Lemma member_pk_added st this r c m v :
  heap st !! this = Some (OCollection c) -> heap st !! r = Some (OModel m) ->
  member_pk (added this r c m st) v = member_pk st v.
Proof.
  intros Hc Hm. assert (this <> r) as Hne by congruence.
  destruct v as [| | |r']; try done. simpl.
  destruct (decide (r' = this)) as [->|Hne1].
  { rewrite list_lookup_insert_eq; [by rewrite Hc|].
    rewrite length_insert. by eapply lookup_lt_Some. }
  rewrite list_lookup_insert_ne by done.
  destruct (decide (r' = r)) as [->|Hne2].
  { rewrite list_lookup_insert_eq by (by eapply lookup_lt_Some).
    rewrite Hm. by destruct m. }
  by rewrite list_lookup_insert_ne.
Qed.

Lemma mapM_pk_of st : forall l pks,
  Forall2 (fun v pk => member_pk st v = Some pk) l pks ->
  mapM pk_of l st = Ok pks st.
Proof.
  induction l as [|v l IH]; intros pks H.
  - by apply Forall2_nil_inv_l in H as ->.
  - apply Forall2_cons_inv_l in H as (pk & pks' & Hv & H & ->). simpl.
    erewrite bind_Ok_l; [|by apply member_pk_run].
    erewrite bind_Ok_l; [|by apply IH]. done.
Qed.

(** A pk counts as changed when it is not in the snapshot. *)
Definition unsaved (persisted : list value) (pk : value) : bool :=
  indexOf pk persisted =? -1.

Lemma unsaved_true persisted pk : unsaved persisted pk = true <-> pk ∉ persisted.
Proof.
  unfold unsaved, indexOf. rewrite Z.eqb_eq.
  destruct (indexOf_from_spec pk persisted 0) as [[Hx ->]|(n & -> & Hn & _)].
  - done.
  - split; [lia|]. intros Hx. exfalso. apply Hx. by eapply list_elem_of_lookup_2.
Qed.

Lemma Collection_changed_run this st c pks :
  heap st !! this = Some (OCollection c) ->
  Forall2 (fun v pk => member_pk st v = Some pk) (Collection.models c) pks ->
  Collection_changed this st
  = Ok (List.filter (unsaved (Collection.persisted c)) pks) st.
Proof.
  intros Hc Hpks. unfold Collection_changed.
  erewrite bind_Ok_l; [|by apply get_collection_run].
  erewrite bind_Ok_l; [|by apply mapM_pk_of].
  erewrite bind_Ok_l; [|by apply get_collection_run]. done.
Qed.

Lemma filter_unsaved_self pks : List.filter (unsaved pks) pks = [].
Proof.
  assert (forall l, (forall pk, pk ∈ l -> pk ∈ pks) ->
                    List.filter (unsaved pks) l = []) as H; [|by apply H].
  induction l as [|pk l IH]; intros Hl; [done|]. simpl.
  destruct (unsaved pks pk) eqn:Hu.
  - apply unsaved_true in Hu. exfalso. apply Hu, Hl. by left.
  - apply IH. intros pk' Hpk'. apply Hl. by right.
Qed.

(** Right after [persist()] has returned [true], [changed] is empty. *)
Theorem nothing_is_changed_after_persist rank fuel st this c pks :
  wired rank st -> (rank this < fuel)%nat ->
  heap st !! this = Some (OCollection c) -> Collection.clean c = false ->
  Forall2 (fun v pk => member_pk st v = Some pk) (Collection.models c) pks ->
  exists st1,
    Collection_persist fuel this st = Ok true st1 /\
    Collection_changed this st1 = Ok [] st1.
Proof.
  intros Hw Hrank Hc Hdirty Hpks. unfold Collection_persist.
  erewrite bind_Ok_l; [|by apply get_collection_run]. rewrite Hdirty.
  erewrite bind_Ok_l; [|by apply modify_collection_run].
  set (c0 := Collection.with_persisted [] (Collection.with_clean true c)).
  set (st0 := set_obj this (OCollection c0) st).
  assert (is_collection st this) as Hic by (by exists c).
  erewrite bind_Ok_l; cycle 1.
  { apply (persist_loop this (Collection.models c) pks st0 c0).
    - apply lookup_set_obj_eq. eauto.
    - eapply Forall2_impl; [done|]. intros v pk Hv. subst st0.
      by rewrite member_pk_set_collection. }
  subst st0. rewrite set_obj_set_obj. simpl.
  set (c1 := Collection.with_persisted pks c0).
  set (st1 := set_obj this (OCollection c1) st).
  destruct (trigger_total rank fuel this "persist" st1)
    as (st2 & t & Hrun & E & Hw2 & Hlog & Hframe & Hsilent); try done.
  { apply (wired_set_obj rank st this (OCollection c)); [done|done|by split]. }
  { unfold st1. rewrite lookup_set_obj_eq; eauto. }
  erewrite bind_Ok_l; [|done]. exists st2. split; [done|].
  erewrite (Collection_changed_run this st2 c1 pks).
  - simpl. by rewrite filter_unsaved_self.
  - rewrite Hframe by lia. unfold st1. by rewrite lookup_set_obj_eq by eauto.
  - eapply Forall2_impl; [done|]. intros v pk Hv.
    rewrite (member_pk_evolves st1 st2) by done. unfold st1.
    by rewrite member_pk_set_collection.
Qed.

Lemma nothing_is_changed_after_persist_witness :
  exists st1,
    Collection_persist 1 0 st_four = Ok true st1 /\
    Collection_changed 0 st1 = Ok [] st1.
Proof.
  apply (nothing_is_changed_after_persist rank_four 1 st_four 0
           (the_collection st_four 0) [VStr "1"; VStr "2"; VStr "3"; VStr "4"]).
  - apply wiredb_sound. vm_compute. reflexivity.
  - vm_compute. lia.
  - vm_compute. reflexivity.
  - vm_compute. reflexivity.
  - vm_compute. repeat constructor.
Defined.

(** ** [add] *)

Lemma subscribed_added st this r c m :
  heap st !! this = Some (OCollection c) -> heap st !! r = Some (OModel m) ->
  subscribed (added this r c m st) r "change"
    (S (Events.eventIndex (Model.super m))) (CollChange this r) /\
  subscribed (added this r c m st) r "change:pk"
    (S (S (Events.eventIndex (Model.super m)))) (CollChangePK this).
Proof.
  intros Hc Hm. assert (this <> r) as Hne by congruence.
  assert (heap (added this r c m st) !! r
          = Some (OModel (Model.with_super
                            (add_member_events this r (Model.super m)) m)))
    as Hr.
  { unfold added. rewrite lookup_set_obj_ne by done.
    apply lookup_set_obj_eq. eauto. }
  set (idx := Events.eventIndex (Model.super m)).
  split.
  - eexists _, _. split; [exact Hr|]. simpl.
    rewrite lookup_insert_ne by done. rewrite lookup_insert_eq.
    split; [done|]. split.
    + apply elem_of_app. right. by apply list_elem_of_singleton.
    + rewrite lookup_insert_ne by lia. by rewrite lookup_insert_eq.
  - eexists _, _. split; [exact Hr|]. simpl.
    rewrite lookup_insert_eq. split; [done|]. split.
    + apply elem_of_app. right. by apply list_elem_of_singleton.
    + by rewrite lookup_insert_eq.
Qed.

(** [add(model)] puts the model last, subscribes to its ['change'] and
    ['change:pk'], leaves the snapshot alone, marks the collection dirty
    and emits ['change'] and then ['append'] on it.  It does so whether or
    not the model is a member already. *)
Theorem add_appends_subscribes_and_announces rank fuel this r st c m :
  wired rank st -> heap st !! this = Some (OCollection c) ->
  heap st !! r = Some (OModel m) ->
  (rank this < rank r)%nat -> (rank this < fuel)%nat ->
  exists st' c' h1 h2 t1 t2,
    Collection_add fuel this (VRef r) st = Ok tt st' /\
    heap st' !! this = Some (OCollection c') /\
    Collection_all c' = Collection_all c ++ [VRef r] /\
    Collection_length c' = Collection_length c + 1 /\
    Collection_at c' (Collection_length c) = VRef r /\
    Collection.persisted c' = Collection.persisted c /\
    Collection.clean c' = false /\
    subscribed st' r "change" h1 (CollChange this r) /\
    subscribed st' r "change:pk" h2 (CollChangePK this) /\
    log st' = log st ++ Emitted this "change" :: t1 ++
                        Emitted this "append" :: t2.
Proof.
  intros Hw Hc Hm Hrank Hfuel.
  destruct (Collection_add_total rank fuel this r st c m)
    as (st' & t1 & t2 & Hrun & _ & _ & E & Hframe & Hlog & _); try done.
  assert (this <> r) as Hne by congruence.
  destruct (subscribed_added st this r c m Hc Hm) as [Hs1 Hs2].
  eexists st', _, _, _, t1, t2. split; [done|]. split.
  { rewrite Hframe by lia. unfold added. apply lookup_set_obj_eq.
    rewrite lookup_set_obj_ne by done. eauto. }
  unfold Collection_all, Collection_length, Collection_at. simpl.
  split; [done|]. split; [rewrite length_app; simpl; lia|].
  split; [by rewrite nth_Z_of_nat, list_lookup_middle|].
  split; [done|]. split; [done|].
  split; [by eapply subscribed_evolves|].
  split; [by eapply subscribed_evolves|done].
Qed.

Lemma add_appends_subscribes_and_announces_witness :
  exists st' c',
    Collection_add 1 0 (VRef 1) st_four = Ok tt st' /\
    heap st' !! 0%nat = Some (OCollection c') /\
    Collection_all c' = [VRef 1; VRef 2; VRef 3; VRef 4; VRef 1].
Proof.
  destruct (add_appends_subscribes_and_announces rank_four 1 0 1 st_four
              (the_collection st_four 0) (the_model st_four 1))
    as (st' & c' & h1 & h2 & t1 & t2 & Hrun & Hc' & Hall & _).
  - apply wiredb_sound. vm_compute. reflexivity.
  - vm_compute. reflexivity.
  - vm_compute. reflexivity.
  - vm_compute. lia.
  - vm_compute. lia.
  - exists st', c'. split; [assumption|]. split; [assumption|exact Hall].
Defined.

(** [changed] after [add]: the pks that were reported are still reported,
    and the pk of the added model comes last when the snapshot does not
    have it. *)
Theorem changed_reports_the_added_record rank fuel this r st c m pks :
  wired rank st -> heap st !! this = Some (OCollection c) ->
  heap st !! r = Some (OModel m) ->
  (rank this < rank r)%nat -> (rank this < fuel)%nat ->
  Forall2 (fun v pk => member_pk st v = Some pk) (Collection.models c) pks ->
  exists st' ch,
    Collection_changed this st = Ok ch st /\
    Collection_add fuel this (VRef r) st = Ok tt st' /\
    Collection_changed this st'
    = Ok (ch ++ if unsaved (Collection.persisted c) (Model_get m "pk")
                then [Model_get m "pk"] else []) st'.
Proof.
  intros Hw Hc Hm Hrank Hfuel Hpks.
  destruct (Collection_add_total rank fuel this r st c m)
    as (st' & t1 & t2 & Hrun & _ & _ & E & Hframe & Hlog & _); try done.
  assert (this <> r) as Hne by congruence.
  exists st', (List.filter (unsaved (Collection.persisted c)) pks).
  split; [by apply Collection_changed_run|]. split; [done|].
  set (idx := Events.eventIndex (Model.super m)).
  set (c1 := add_index (Model_get m "pk") (S idx) (S (S idx)) (VRef r) c).
  assert (heap st' !! this = Some (OCollection c1)) as Hc1.
  { rewrite Hframe by lia. unfold added. apply lookup_set_obj_eq.
    rewrite lookup_set_obj_ne by done. eauto. }
  rewrite (Collection_changed_run this st' c1 (pks ++ [Model_get m "pk"]) Hc1).
  - simpl. by rewrite List.filter_app.
  - simpl. apply Forall2_app.
    + eapply Forall2_impl; [done|]. intros v pk Hv.
      by rewrite (member_pk_evolves _ _ _ E), member_pk_added.
    + constructor; [|constructor].
      rewrite (member_pk_evolves _ _ _ E), member_pk_added by done.
      simpl. by rewrite Hm.
Qed.

Lemma changed_reports_the_added_record_witness :
  exists st',
    Collection_changed 0 st_strangers = Ok [] st_strangers /\
    Collection_add 1 0 (VRef 6) st_strangers = Ok tt st' /\
    Collection_changed 0 st' = Ok [VStr "9"] st'.
Proof.
  destruct (changed_reports_the_added_record rank_four 1 0 6 st_strangers
              (the_collection st_strangers 0) (the_model st_strangers 6)
              [VStr "1"; VStr "2"; VStr "3"; VStr "4"])
    as (st' & ch & H1 & H2 & H3).
  - apply wiredb_sound. vm_compute. reflexivity.
  - vm_compute. reflexivity.
  - vm_compute. reflexivity.
  - vm_compute. lia.
  - vm_compute. lia.
  - vm_compute. repeat constructor.
  - exists st'. assert (ch = []) as ->.
    { vm_compute in H1. by injection H1. }
    split; [exact H1|]. split; [exact H2|exact H3].
Defined.

(** ** [remove] *)

(** The rebuilt index has the keys of the members and no other. *)
Lemma rebuildMap_tight this st c :
  heap st !! this = Some (OCollection c) -> resolvable st c ->
  exists c',
    Collection_rebuildMap this st = Ok tt (set_obj this (OCollection c') st) /\
    Collection.super c' = Collection.super c /\
    Collection.models c' = Collection.models c /\
    Collection.persisted c' = Collection.persisted c /\
    Collection.clean c' = Collection.clean c /\
    indexed st c' /\
    forall k, Some k ∉ member_key st <$> Collection.models c ->
              Collection.modelMap c' !! k = None.
Proof.
  intros Hc Hres.
  destruct (rebuildMap_spec this st c Hc Hres)
    as (c' & Hrun & Hsuper & Hmodels & Hpers & Hclean & Hidx).
  exists c'. do 6 (split; [done|]).
  destruct Hres as (Hsound & Hnd & Hres).
  destruct (rebuild_loop_spec this (Collection.models c) ∅ 0 st c)
    as (metas' & newMap' & Hloop & _ & Hmap & _); try done.
  assert (Collection_rebuildMap this st
          = Ok tt (set_obj this
                     (OCollection (Collection.with_modelMap newMap'
                                     (Collection.with_metas metas' c))) st))
    as Hrun'.
  { unfold Collection_rebuildMap.
    erewrite bind_Ok_l; [|by apply get_collection_run].
    erewrite bind_Ok_l; [|done].
    erewrite modify_collection_run; [|apply lookup_set_obj_eq; eauto].
    by rewrite set_obj_set_obj. }
  rewrite Hrun in Hrun'. injection Hrun' as Heq.
  assert (c' = Collection.with_modelMap newMap' (Collection.with_metas metas' c))
    as ->.
  { apply (f_equal (fun l => l !! this)) in Heq.
    rewrite !list_lookup_insert_eq in Heq by (by eapply lookup_lt_Some).
    by injection Heq. }
  intros k Hk. simpl. rewrite Hmap. by rewrite decide_False.
Qed.

Lemma other_members_have_other_keys st c (i : nat) v k :
  resolvable st c -> Collection.models c !! i = Some v ->
  member_key st v = Some k ->
  Some k ∉ member_key st <$> delete i (Collection.models c).
Proof.
  intros (_ & Hkeys & _) Hi Hk (w & Hw & [j Hj]%list_elem_of_lookup)%list_elem_of_fmap.
  assert (exists j', j' <> i /\ Collection.models c !! j' = Some w)
    as (j' & Hne & Hj').
  { destruct (decide (j < i)%nat).
    - exists j. split; [lia|]. by rewrite list_lookup_delete_lt in Hj.
    - exists (S j). split; [lia|]. by rewrite list_lookup_delete_ge in Hj by lia. }
  apply Hne.
  apply (NoDup_lookup _ j' i (Some k) Hkeys); rewrite list_lookup_fmap.
  - by rewrite Hj'; simpl; rewrite <- Hw.
  - by rewrite Hi; simpl; rewrite Hk.
Qed.

(** [remove] of the member at position [i], with what is left of the
    index. *)
Lemma Collection_remove_tight rank fuel this st c r m (i : nat) :
  wired rank st -> heap st !! this = Some (OCollection c) -> indexed st c ->
  (rank this < fuel)%nat -> Collection.models c !! i = Some (VRef r) ->
  heap st !! r = Some (OModel m) ->
  exists st' c' t1 t2,
    Collection_remove fuel this (VRef r) st = Ok tt st' /\
    heap st' !! this = Some (OCollection c') /\
    Collection.models c' = delete i (Collection.models c) /\
    Collection.clean c' = false /\
    indexed st' c' /\ wired rank st' /\
    log st' = log st ++ Emitted this "change" :: t1 ++
                        Emitted this "remove" :: t2 /\
    Collection.modelMap c' !! pk_key m = None /\
    (forall v, member_pk st' v = member_pk st v).
Proof.
  intros Hw Hc [Hres Hpos] Hfuel Hi Hm.
  pose proof (resolvable_NoDup _ _ Hres) as Hnd.
  pose proof (lookup_lt_Some _ _ _ Hi) as Hlt.
  assert (member_key st (VRef r) = Some (pk_key m)) as Hkr.
  { unfold member_key. simpl. by rewrite Hm. }
  assert (removed (VRef r) (Model_get m "pk") c
          = Collection.with_persisted
              (splice (Collection.persisted c)
                 (indexOf (Model_get m "pk") (Collection.persisted c)) 1 [])
              (Collection.with_modelMap
                 (delete (pk_key m) (Collection.modelMap c))
                 (Collection.with_models (delete i (Collection.models c))
                    (Collection.with_clean false c)))) as Hremoved.
  { unfold removed.
    rewrite (indexOf_NoDup (VRef r) (Collection.models c) i) by done.
    by rewrite splice_delete. }
  set (c1 := removed (VRef r) (Model_get m "pk") c) in *.
  set (st1 := set_obj this (OCollection c1) st).
  assert (is_collection st this) as Hic by (by exists c).
  assert (heap st1 !! this = Some (OCollection c1)) as Hc1.
  { apply lookup_set_obj_eq. eauto. }
  assert (Some (pk_key m) ∉ member_key st <$> delete i (Collection.models c))
    as Hother by (by eapply other_members_have_other_keys).
  assert (resolvable st1 c1) as Hres1.
  { apply (resolvable_keys st).
    - intros v. by apply member_key_set_collection.
    - intros v. by apply member_lookup_set_collection.
    - rewrite Hremoved. apply resolvable_removed; [done|apply sublist_delete|].
      intros v Hv Hk. apply Hother. rewrite <- Hk. apply list_elem_of_fmap. eauto. }
  destruct (rebuildMap_tight this st1 c1 Hc1 Hres1)
    as (c2 & Hrun & Hsuper & Hmodels & Hpers & Hclean & Hidx & Htight).
  unfold st1 in Hrun at 2. rewrite set_obj_set_obj in Hrun.
  set (st2 := set_obj this (OCollection c2) st) in *.
  assert (wired rank st2) as Hw2.
  { apply (wired_set_obj rank st this (OCollection c)); [done|done|].
    split; [|done]. simpl. rewrite Hsuper, Hremoved. by destruct c. }
  assert (heap st2 !! this = Some (OCollection c2)) as Hc2.
  { apply lookup_set_obj_eq. eauto. }
  destruct (trigger_total rank fuel this "change" st2 Hw2)
    as (st3 & t1 & Hrun3 & E3 & Hw3 & Hlog3 & Hframe3 & _); [done|eauto|done|].
  assert (heap st3 !! this = Some (OCollection c2)) as Hc3 by (by rewrite Hframe3).
  destruct (trigger_total rank fuel this "remove" st3 Hw3)
    as (st4 & t2 & Hrun4 & E4 & Hw4 & Hlog4 & Hframe4 & _); [done|eauto|done|].
  pose proof (evolves_trans _ _ _ E3 E4) as E.
  destruct (keys_evolves _ _ E) as [Hk Hl].
  exists st4, c2, t1, t2. split.
  { erewrite Collection_remove_run by done. fold c1. fold st1.
    erewrite bind_Ok_l; [|done]. erewrite bind_Ok_l; [|done]. done. }
  split; [by rewrite Hframe4|].
  split; [by rewrite Hmodels, Hremoved|].
  split; [by rewrite Hclean, Hremoved|].
  split.
  { apply (indexed_keys st1); [| |done].
    - intros v. rewrite Hk. unfold st2, st1.
      by rewrite !member_key_set_collection.
    - intros v. rewrite Hl. unfold st2, st1.
      by rewrite !member_lookup_set_collection. }
  split; [done|]. split.
  { rewrite Hlog4, Hlog3. simpl. by rewrite <- app_assoc. }
  split.
  - apply Htight. rewrite Hremoved. simpl.
    erewrite list_fmap_ext; [exact Hother|].
    intros j v Hv. unfold st1. by apply member_key_set_collection.
  - intros v. rewrite (member_pk_evolves _ _ _ E). unfold st2.
    by apply member_pk_set_collection.
Qed.

Definition positionsb (st : state) (c : Collection.t) : bool :=
  forallb (fun iv : nat * value =>
             match member_key st iv.2 with
             | Some k =>
                 match Collection.modelMap c !! k with
                 | Some a =>
                     match Collection.metas c !! a with
                     | Some meta => bool_decide (ModelMeta.index meta = iv.1)
                     | None => false
                     end
                 | None => false
                 end
             | None => false
             end) (imap pair (Collection.models c)).

Definition indexedb (st : state) (c : Collection.t) : bool :=
  resolvableb st c && positionsb st c.

Lemma indexedb_sound st c : indexedb st c = true -> indexed st c.
Proof.
  unfold indexedb. intros [Hres Hpos]%andb_true_iff.
  split; [by apply resolvableb_sound|].
  intros i v Hi. unfold positionsb in Hpos. rewrite forallb_forall in Hpos.
  assert ((i, v) ∈ imap pair (Collection.models c)) as Hin.
  { apply elem_of_lookup_imap. by exists i, v. }
  apply list_elem_of_In, Hpos in Hin. simpl in Hin.
  destruct (member_key st v) as [k|]; [|done].
  destruct (Collection.modelMap c !! k) as [a|] eqn:Ha; [|done].
  destruct (Collection.metas c !! a) as [meta|] eqn:Hmeta; [|done].
  apply bool_decide_eq_true in Hin. by exists k, a, meta.
Qed.



(** ** [removeWhere] *)

Lemma filter_true {A} (l : list A) : List.filter (fun _ => true) l = l.
Proof. induction l as [|y l IH]; [done|]. simpl. by rewrite IH. Qed.

Lemma delete_filter_ne (l : list value) : forall (i : nat) v,
  NoDup l -> l !! i = Some v ->
  delete i l = List.filter (fun w => negb (bool_decide (w = v))) l.
Proof.
  induction l as [|x l IH]; intros i v Hnd Hi; [done|].
  apply NoDup_cons in Hnd as [Hx Hnd]. destruct i as [|i]; simpl in *.
  - injection Hi as ->. rewrite bool_decide_eq_true_2 by done. simpl.
    symmetry. rewrite <- (List.filter_ext_in (fun _ => true)).
    + apply filter_true.
    + intros w Hw%list_elem_of_In. symmetry. apply negb_true_iff.
      apply bool_decide_eq_false_2. by intros ->.
  - rewrite bool_decide_eq_false_2; cycle 1.
    { intros ->. apply Hx. by eapply list_elem_of_lookup_2. }
    simpl. f_equal. by apply IH.
Qed.

Lemma filter_filter_andb {A} (f g : A -> bool) (l : list A) :
  List.filter f (List.filter g l) = List.filter (fun x => g x && f x) l.
Proof.
  induction l as [|x l IH]; [done|]. simpl.
  destruct (g x); simpl; [destruct (f x)|]; by rewrite IH.
Qed.

(** Removing, one after the other, members that were selected. *)
Lemma remove_each rank fuel this : forall sel st c,
  wired rank st -> heap st !! this = Some (OCollection c) -> indexed st c ->
  (rank this < fuel)%nat -> NoDup sel ->
  (forall v, v ∈ sel -> v ∈ Collection.models c) ->
  exists st' c',
    forEach sel (Collection_remove fuel this) st = Ok tt st' /\
    heap st' !! this = Some (OCollection c') /\
    Collection.models c'
    = List.filter (fun w => negb (bool_decide (w ∈ sel))) (Collection.models c) /\
    indexed st' c' /\ wired rank st'.
Proof.
  induction sel as [|v sel IH]; intros st c Hw Hc Hidx Hfuel Hnd Hsel.
  { exists st, c. split; [done|]. split; [done|]. split; [|done].
    rewrite <- (List.filter_ext_in (fun _ => true)).
    - symmetry. apply filter_true.
    - intros w _. symmetry. apply negb_true_iff, bool_decide_eq_false_2.
      apply not_elem_of_nil. }
  apply NoDup_cons in Hnd as [Hv Hnd].
  assert (v ∈ Collection.models c) as Hin by (apply Hsel; by left).
  destruct (member_is_model st c v (proj1 Hidx) Hin) as (r & m & -> & Hr & _).
  apply list_elem_of_lookup in Hin as [i Hi].
  pose proof (resolvable_NoDup _ _ (proj1 Hidx)) as Hmodels.
  destruct (Collection_remove_tight rank fuel this st c r m i)
    as (st1 & c1 & t1 & t2 & Hrun & Hc1 & Hm1 & _ & Hidx1 & Hw1 & _);
    try done.
  destruct (IH st1 c1) as (st' & c' & Hrun' & Hc' & Hm' & Hidx' & Hw');
    try done.
  { intros w Hws. rewrite Hm1, (delete_filter_ne _ i (VRef r)) by done.
    apply list_elem_of_In, List.filter_In. split.
    - apply list_elem_of_In, Hsel. by right.
    - apply negb_true_iff, bool_decide_eq_false_2. by intros ->. }
  exists st', c'. split.
  { simpl. by erewrite bind_Ok_l. }
  split; [done|]. split; [|done].
  rewrite Hm', Hm1, (delete_filter_ne _ i (VRef r)) by done.
  rewrite filter_filter_andb. apply List.filter_ext. intros w.
  destruct (decide (w = VRef r)) as [->|Hne].
  - rewrite (bool_decide_eq_true_2 (VRef r = VRef r)) by done.
    rewrite (bool_decide_eq_true_2 (VRef r ∈ VRef r :: sel)); [done|by left].
  - rewrite (bool_decide_eq_false_2 (w = VRef r)) by done. simpl.
    f_equal. apply bool_decide_ext. rewrite elem_of_cons. tauto.
Qed.

(** [removeWhere(key)] on an indexed collection removes the members for
    which [key] answers true and no other, keeps the rest in their order,
    and leaves the collection indexed: [get] and [at] answer every member
    that is left. *)
Theorem removeWhere_removes_the_selected rank fuel this st c key :
  wired rank st -> heap st !! this = Some (OCollection c) -> indexed st c ->
  (rank this < fuel)%nat ->
  exists st' c',
    Collection_removeWhere fuel this key st = Ok tt st' /\
    heap st' !! this = Some (OCollection c') /\
    Collection_all c'
    = List.filter (fun v => negb (key st v)) (Collection_all c) /\
    forall (j : nat) v,
      Collection_all c' !! j = Some v ->
      exists pk,
        pk_of v st' = Ok pk st' /\
        Collection_get this pk st' = Ok v st' /\
        Collection_at c' (Z.of_nat j) = v.
Proof.
  unfold Collection_all. intros Hw Hc Hidx Hfuel.
  set (sel := List.filter (key st) (Collection.models c)).
  pose proof (resolvable_NoDup _ _ (proj1 Hidx)) as Hmodels.
  destruct (remove_each rank fuel this sel st c)
    as (st' & c' & Hrun & Hc' & Hm' & Hidx' & _); try done.
  { apply NoDup_ListNoDup, List.NoDup_filter. by apply NoDup_ListNoDup. }
  { intros v Hv%list_elem_of_In%List.filter_In. apply list_elem_of_In. tauto. }
  exists st', c'. split.
  { unfold Collection_removeWhere, Collection_filter.
    erewrite bind_Ok_l; cycle 1.
    { erewrite bind_Ok_l; [|by apply get_collection_run]. reflexivity. }
    exact Hrun. }
  split; [done|]. split.
  - rewrite Hm'. apply List.filter_ext_in. intros w Hw'. f_equal.
    destruct (key st w) eqn:Hk.
    + apply bool_decide_eq_true_2, list_elem_of_In, List.filter_In. done.
    + apply bool_decide_eq_false_2.
      intros [_ Hk']%list_elem_of_In%List.filter_In. congruence.
  - intros j v Hj. by apply indexed_get.
Qed.

(** The members whose pk is ["2"] or ["4"]. *)
Definition even_pk (st : state) (v : value) : bool :=
  match member_pk st v with
  | Some (VStr s) => bool_decide (s = "2") || bool_decide (s = "4")
  | _ => false
  end.

Lemma removeWhere_removes_the_selected_witness :
  exists st' c',
    Collection_removeWhere 1 0 even_pk st_four = Ok tt st' /\
    heap st' !! 0%nat = Some (OCollection c') /\
    Collection_all c' = [VRef 1; VRef 3].
Proof.
  destruct (removeWhere_removes_the_selected rank_four 1 0 st_four
              (the_collection st_four 0) even_pk)
    as (st' & c' & Hrun & Hc' & Hall & _).
  - apply wiredb_sound. vm_compute. reflexivity.
  - vm_compute. reflexivity.
  - apply indexedb_sound. vm_compute. reflexivity.
  - vm_compute. lia.
  - exists st', c'. split; [assumption|]. split; [assumption|exact Hall].
Defined.

(** ** [moveAt] *)






(** ** Calls that miss *)







(** ** By member, by position, by pk *)

(** In an indexed collection the three ways to name a member agree: for
    the member [v] at position [i] with the pk [pk], [get(pk)] and [at(i)]
    answer [v], [removeAt(i)] and [removeBy(pk)] do what [remove(v)]
    does, and [move(v, offset)] and [moveBy(pk, offset)] do what
    [moveAt(i, offset)] does. *)
Theorem member_position_and_pk_agree fuel this st c (i : nat) v pk offset :
  heap st !! this = Some (OCollection c) -> indexed st c ->
  Collection_all c !! i = Some v -> pk_of v st = Ok pk st ->
  Collection_get this pk st = Ok v st /\
  Collection_at c (Z.of_nat i) = v /\
  Collection_removeAt fuel this (Z.of_nat i) st = Collection_remove fuel this v st /\
  Collection_removeBy fuel this pk st = Collection_remove fuel this v st /\
  Collection_move fuel this v offset st
  = Collection_moveAt fuel this (Z.of_nat i) offset st /\
  Collection_moveBy fuel this pk offset st
  = Collection_moveAt fuel this (Z.of_nat i) offset st.
Proof.
  unfold Collection_all. intros Hc Hidx Hi Hpk.
  destruct (indexed_get this st c i v Hc Hidx Hi) as (pk' & Hpk' & Hget & Hat).
  assert (pk' = pk) as -> by congruence.
  destruct (member_is_model st c v (proj1 Hidx)) as (r & m & -> & Hr & Hm).
  { by eapply list_elem_of_lookup_2. }
  apply pk_of_member_pk in Hpk as [Hpk _]. simpl in Hpk. rewrite Hr in Hpk.
  injection Hpk as <-.
  split; [done|]. split; [done|]. split; [|split; [|split]].
  - unfold Collection_removeAt.
    erewrite bind_Ok_l; [|by apply get_collection_run]. by rewrite Hat.
  - unfold Collection_removeBy. by erewrite bind_Ok_l.
  - apply (Collection_move_run fuel this (VRef r) offset st c i); try done.
    by eapply resolvable_NoDup, Hidx.
  - unfold Collection_moveBy.
    erewrite bind_Ok_l; [|by apply get_collection_run].
    erewrite bind_Ok_l; [done|]. by eapply index_of_pk_run.
Qed.

Lemma member_position_and_pk_agree_witness :
  Collection_get 0 (VStr "3") st_four = Ok (VRef 3) st_four /\
  Collection_at (the_collection st_four 0) 2 = VRef 3 /\
  Collection_removeBy 1 0 (VStr "3") st_four
  = Collection_remove 1 0 (VRef 3) st_four /\
  Collection_moveBy 1 0 (VStr "3") (-1) st_four
  = Collection_moveAt 1 0 2 (-1) st_four.
Proof.
  destruct (member_position_and_pk_agree 1 0 st_four (the_collection st_four 0)
              2 (VRef 3) (VStr "3") (-1))
    as (H1 & H2 & _ & H3 & _ & H4).
  - vm_compute. reflexivity.
  - apply indexedb_sound. vm_compute. reflexivity.
  - vm_compute. reflexivity.
  - vm_compute. reflexivity.
  - split; [exact H1|]. split; [exact H2|]. split; [exact H3|exact H4].
Defined.

(** ** A member changes *)

Lemma member_pk_set_model st r m m' v :
  heap st !! r = Some (OModel m) -> Model_get m' "pk" = Model_get m "pk" ->
  member_pk (set_obj r (OModel m') st) v = member_pk st v.
Proof.
  intros Hr Hpk. destruct v as [| | |r']; try done. simpl.
  destruct (decide (r = r')) as [<-|Hne].
  - rewrite list_lookup_insert_eq by (by eapply lookup_lt_Some).
    by rewrite Hr, Hpk.
  - by rewrite list_lookup_insert_ne.
Qed.

Lemma elem_of_delete_NoDup {A} (l : list A) (j : nat) x y :
  NoDup l -> l !! j = Some x -> y ∈ delete j l <-> y ∈ l /\ y <> x.
Proof.
  intros Hnd Hj. rewrite <- (take_drop_middle l j x Hj) in Hnd |- * at 2.
  rewrite delete_take_drop.
  apply NoDup_app in Hnd as (_ & Hleft & [Hx _]%NoDup_cons).
  rewrite !elem_of_app, elem_of_cons. split.
  - intros [Hy|Hy]; (split; [tauto|]); intros ->; [|done].
    apply (Hleft x Hy). by left.
  - tauto.
Qed.

(** A member of one collection, whose pk is in the collection's snapshot,
    gets a new value in a field: the collection is dirty afterwards,
    ['change'] is emitted on it, and [changed] holds the pk of the member
    besides what it held. *)
Theorem member_change_reaches_the_collection
    rank fuel this r st c m f v h pks :
  wired rank st -> heap st !! this = Some (OCollection c) ->
  heap st !! r = Some (OModel m) ->
  Forall2 (fun v pk => member_pk st v = Some pk) (Collection.models c) pks ->
  Events.map (Model.super m) !! "change" = Some [h] ->
  Events.events (Model.super m) !! h = Some (CollChange this r) ->
  Events.map (Model.super m) !! ("change:" +:+ f) = None ->
  f <> "pk" ->
  instanceof_Events (Model_get m f) = None -> instanceof_Events v = None ->
  NoDup (Collection.persisted c) ->
  Model_get m "pk" ∈ Collection.persisted c ->
  (rank this < fuel)%nat ->
  exists st' c' ch t,
    Model_set (S fuel) r f v st = Ok tt st' /\
    heap st' !! this = Some (OCollection c') /\
    Collection.clean c' = false /\
    log st' = log st ++ t /\ Emitted this "change" ∈ t /\
    Collection_changed this st' = Ok ch st' /\
    forall pk, In pk ch <->
               In pk pks /\ (pk = Model_get m "pk" \/ pk ∉ Collection.persisted c).
Proof.
  intros Hw Hc Hm Hpks Hl Hcb Hnone Hf Hcur Hv Hnd Hin Hfuel.
  assert (this <> r) as Hne by congruence.
  assert ((rank this < rank r)%nat) as Hrank.
  { destruct (Hw r (OModel m) "change" [h] h Hm Hl) as (cb & Hcb' & Hok & _);
      [by left|].
    simpl in Hcb'. assert (cb = CollChange this r) as -> by congruence.
    simpl in Hok. tauto. }
  set (m1 := Model.with_clean false
               (Model.with_fields (<[f := v]> (Model.fields m)) m)).
  assert (Model_get m1 "pk" = Model_get m "pk") as Hpk1.
  { unfold Model_get, m1. simpl. by rewrite lookup_insert_ne. }
  set (st1 := set_obj r (OModel m1) st).
  set (sa := add_log (Emitted r "change") st1).
  assert (heap sa !! r = Some (OModel m1)) as Hra.
  { apply lookup_set_obj_eq. eauto. }
  assert (heap sa !! this = Some (OCollection c)) as Hca.
  { unfold sa, st1. simpl. by rewrite list_lookup_insert_ne. }
  apply list_elem_of_lookup in Hin as [j Hj].
  set (c1 := Collection.with_persisted (delete j (Collection.persisted c))
               (Collection.with_clean false c)).
  set (sb := set_obj this (OCollection c1) sa).
  assert (member_changed this r sa = Ok tt sb) as Hmc.
  { apply (member_changed_present this r sa c m1 j); try done.
    - by rewrite Hpk1.
    - intros j' Hj' Hj2. rewrite Hpk1 in Hj2.
      pose proof (NoDup_lookup _ j' j _ Hnd Hj2 Hj). lia. }
  assert (wired rank sb) as Hwb.
  { apply (wired_set_obj rank sa this (OCollection c)); [|done|by split].
    apply (wired_set_obj rank st r (OModel m)); [done|done|by split]. }
  destruct (trigger_total rank fuel this "change" sb Hwb)
    as (sc & t1 & Hrun & E & Hwc & Hlog & Hframe & _); [done| |done|].
  { unfold sb. rewrite lookup_set_obj_eq; eauto. }
  assert (heap sc !! this = Some (OCollection c1)) as Hcc.
  { rewrite Hframe by lia. apply lookup_set_obj_eq. eauto. }
  assert (heap sc !! r = Some (OModel m1)) as Hrc.
  { rewrite Hframe by lia. unfold sb. by rewrite lookup_set_obj_ne. }
  set (sd := mkState (heap sc) (log sc ++ [Emitted r ("change:" +:+ f)])).
  assert (Model_set (S fuel) r f v st = Ok tt sd) as Hset.
  { unfold Model_set.
    erewrite bind_Ok_l; [|by eapply unbind_current_plain].
    erewrite bind_Ok_l; [|by apply bind_value_plain].
    erewrite bind_Ok_l; [|by apply modify_model_run].
    fold m1. fold st1.
    erewrite bind_Ok_l; cycle 1.
    { simpl. unfold trigger_body.
      erewrite bind_Ok_l; [|done]. fold_states. fold sa.
      erewrite bind_Ok_l; [|by apply subscribers_run].
      simpl. rewrite Hl. simpl.
      erewrite bind_Ok_l; [|by apply subscribers_run].
      simpl. rewrite Hl. simpl.
      erewrite bind_Ok_l; cycle 1.
      { unfold invoke. erewrite bind_Ok_l; [|by apply get_events_run].
        simpl. rewrite Hcb. simpl.
        erewrite bind_Ok_l; [|exact Hmc]. exact Hrun. }
      reflexivity. }
    erewrite (trigger_unobserved fuel r _ sc (OModel m1));
      [done|done|].
    simpl. by rewrite Hnone. }
  assert (forall w, member_pk sd w = member_pk st w) as Hsame.
  { intros w. change (member_pk sd w) with (member_pk sc w).
    rewrite (member_pk_evolves sb sc) by done. unfold sb.
    rewrite member_pk_set_collection by (by exists c).
    change (member_pk sa w) with (member_pk st1 w).
    by apply (member_pk_set_model st r m m1). }
  exists sd, c1, (List.filter (unsaved (Collection.persisted c1)) pks),
    (Emitted r "change" :: Emitted this "change" :: t1 ++
     [Emitted r ("change:" +:+ f)]).
  split; [done|]. split; [done|]. split; [done|]. split.
  { simpl. rewrite Hlog. simpl. rewrite <- !app_assoc. simpl.
    by rewrite <- ?app_assoc. }
  split; [right; by left|]. split.
  { apply (Collection_changed_run this sd c1 pks); [done|].
    eapply Forall2_impl; [done|]. intros w pk Hwpk. by rewrite Hsame. }
  intros pk. rewrite List.filter_In, unsaved_true. simpl.
  rewrite (elem_of_delete_NoDup _ j (Model_get m "pk")) by done.
  split; intros [Hpk Hcase]; (split; [done|]).
  - destruct (decide (pk = Model_get m "pk")); [by left|right].
    intros Hp. apply Hcase. done.
  - intros [Hp Hneq]. destruct Hcase; done.
Qed.

Lemma member_change_reaches_the_collection_witness :
  Collection_changed 0 st_strangers = Ok [] st_strangers /\
  exists st' c' ch t,
    Model_set 2 2 "bar" (VStr "foo") st_strangers = Ok tt st' /\
    heap st' !! 0%nat = Some (OCollection c') /\
    Collection.clean c' = false /\
    log st' = log st_strangers ++ t /\ Emitted 0 "change" ∈ t /\
    Collection_changed 0 st' = Ok ch st' /\
    forall pk, In pk ch <->
               In pk [VStr "1"; VStr "2"; VStr "3"; VStr "4"] /\
               (pk = Model_get (the_model st_strangers 2) "pk" \/
                pk ∉ Collection.persisted (the_collection st_strangers 0)).
Proof.
  split; [vm_compute; reflexivity|].
  apply (member_change_reaches_the_collection rank_four 1 0 2 st_strangers
           (the_collection st_strangers 0) (the_model st_strangers 2)
           "bar" (VStr "foo") 1
           [VStr "1"; VStr "2"; VStr "3"; VStr "4"]).
  - apply wiredb_sound. vm_compute. reflexivity.
  - vm_compute. reflexivity.
  - vm_compute. reflexivity.
  - vm_compute. repeat constructor.
  - vm_compute. reflexivity.
  - vm_compute. reflexivity.
  - vm_compute. reflexivity.
  - discriminate.
  - vm_compute. reflexivity.
  - reflexivity.
  - apply (bool_decide_unpack _). vm_compute. exact I.
  - apply (bool_decide_unpack _). vm_compute. exact I.
  - vm_compute. lia.
Defined.

(** ** Renaming a member *)




